(** * The question-evaluation route: a shallow embedding of [app/api/route.ts]

    The route receives three text fields, cuts the question block into
    questions, sends them to a chat-completion service, recovers a JSON
    array from the free-text answer and aggregates it into a report.

    The development has three layers:
    - [JS]: the fragment of ECMAScript the handler relies on (strings as
      sequences of UTF-16 code units, the [String.prototype] methods called
      with a regular expression, numbers, [Math.round], property order of
      ordinary objects, [Array.prototype.sort]);
    - [JSON]: JSON values and [JSON.parse];
    - [Route]: the handler itself, one definition per named binding of the
      source. *)

From Stdlib Require Import Ascii String DecimalString.
From Stdlib Require Import List ZArith NArith QArith Qround Qabs Qpower.
From Stdlib Require Import Bool Lia Lqa Sorted.
From Stdlib Require Import Permutation.
From Stdlib Require Qcanon.
From Equations Require Import Equations.
Import ListNotations.

Set Implicit Arguments.
Set Default Goal Selector "!".

(* ===================================================================== *)
(** * ECMAScript fragment *)
(* ===================================================================== *)

Module JS.

(** A string is a sequence of UTF-16 code units. *)
Definition char := N.
Definition jsstring := list char.

(** ASCII literals; only applied to literals whose bytes are below 128. *)
Definition str (s : String.string) : jsstring :=
  List.map N_of_ascii (list_ascii_of_string s).

Definition char_eqb (a b : char) : bool := N.eqb a b.

Fixpoint jsstring_eqb (a b : jsstring) : bool :=
  match a, b with
  | [], [] => true
  | x :: a', y :: b' => char_eqb x y && jsstring_eqb a' b'
  | _, _ => false
  end.

(** Code units written out where the source names them. *)
Definition LF : char := 10%N.
Definition QUOTE : char := 34%N.          (* straight double quote *)
Definition APOSTROPHE : char := 39%N.     (* straight single quote *)
Definition HYPHEN : char := 45%N.         (* hyphen-minus *)
Definition LBRACKET : char := 91%N.       (* opening square bracket *)
Definition RBRACKET : char := 93%N.       (* closing square bracket *)
Definition BACKTICK : char := 96%N.       (* grave accent *)
Definition BULLET : char := 0x2022%N.
Definition LSQUO : char := 0x2018%N.
Definition RSQUO : char := 0x2019%N.
Definition LDQUO : char := 0x201C%N.
Definition RDQUO : char := 0x201D%N.

(** [WhiteSpace] and [LineTerminator] of ECMA-262: what [\s] matches and
    what [trim] strips. *)
Definition is_space (c : char) : bool :=
  ((9 <=? c) && (c <=? 13) || (c =? 32) || (c =? 0xA0) || (c =? 0x1680)
   || (0x2000 <=? c) && (c <=? 0x200A) || (c =? 0x2028) || (c =? 0x2029)
   || (c =? 0x202F) || (c =? 0x205F) || (c =? 0x3000) || (c =? 0xFEFF))%N.

Fixpoint trimStart (s : jsstring) : jsstring :=
  match s with
  | [] => []
  | c :: t => if is_space c then trimStart t else s
  end.

Definition trimEnd (s : jsstring) : jsstring := rev (trimStart (rev s)).

(** [String.prototype.trim]. *)
Definition trim (s : jsstring) : jsstring := trimEnd (trimStart s).

(** ** Regular expressions

    A regular expression is represented by its sticky matcher: applied to
    the text that starts at the current index it returns the length of the
    match found there, with the priorities of the backtracking semantics
    already resolved. *)
Definition matcher := jsstring -> option nat.

(** [s.replace(re, by)] for a global [re] and a replacement text without
    [$] patterns. An empty match inserts [by] and moves on by one unit. *)
Equations? replace_all (re : matcher) (by_ : jsstring) (s : jsstring)
  : jsstring by wf (length s) lt :=
  replace_all re by_ [] with re [] => {
    | Some _ := by_ ;
    | None := [] } ;
  replace_all re by_ (c :: t) with re (c :: t) => {
    | Some (S k) := by_ ++ replace_all re by_ (skipn k t) ;
    | Some O := by_ ++ c :: replace_all re by_ t ;
    | None := c :: replace_all re by_ t }.
Proof.
  all: simpl; try lia.
  pose proof (length_skipn k t). lia.
Qed.

(** [s.split(re)] without limit, for [re] without capture groups
    (RegExp.prototype[Symbol.split]): [cur] holds, reversed, the units
    between the end of the last separator and the current index. *)
Equations? split_from (re : matcher) (cur : jsstring) (s : jsstring)
  : list jsstring by wf (length s) lt :=
  split_from re cur [] := [rev cur] ;
  split_from re cur (c :: t) with re (c :: t) => {
    | Some (S k) := rev cur :: split_from re [] (skipn k t) ;
    | Some O with cur => {
        | [] := split_from re [c] t ;
        | _ :: _ := rev cur :: split_from re [c] t } ;
    | None := split_from re (c :: cur) t }.
Proof.
  all: simpl; try lia.
  pose proof (length_skipn k t). lia.
Qed.

Definition split (re : matcher) (s : jsstring) : list jsstring :=
  match s, re [] with
  | [], Some _ => []
  | _, _ => split_from re [] s
  end.

(** [s.match(re)] for a non-global [re]: the leftmost index at which the
    matcher succeeds; the result is the matched text (index 0 of the
    match object). *)
Fixpoint match_ (re : matcher) (s : jsstring) : option jsstring :=
  match re s with
  | Some n => Some (firstn n s)
  | None => match s with
            | [] => None
            | _ :: t => match_ re t
            end
  end.

(** ** Numbers

    A number is a binary64 value: a rational with a significand of 53
    bits, NaN, or one of the two infinities; the two zeros are not told
    apart. An arithmetic operation is the exact operation followed by the
    rounding to the nearest binary64 value, the one with an even
    significand of two at equal distance. *)
Inductive number : Type :=
| Num (q : Q)
| NaN
| PosInfinity
| NegInfinity.

Definition pow2 (j : Z) : Q := Qpower 2 j.

(** The integer [e] with [2^e <= |q| < 2^(e+1)], for [q] other than 0. *)
Definition Qlog2 (q : Q) : Z :=
  let e := (Z.log2 (Z.abs (Qnum q)) - Z.log2 (Zpos (Qden q)))%Z in
  if Qle_bool (pow2 e) (Qabs q) then e else (e - 1)%Z.

(** The nearest integer, the even one of two at equal distance. *)
Definition round_even (y : Q) : Z :=
  let f := Qfloor y in
  match Qcompare (y - inject_Z f) (1 # 2) with
  | Lt => f
  | Gt => (f + 1)%Z
  | Eq => if Z.even f then f else (f + 1)%Z
  end.

(** Rounding to binary64: 53 bits from the leading one, the last place
    not below [2^-1074], and an infinity from [2^1024] on. *)
Definition binary64 (q : Q) : number :=
  if Qeq_bool q 0 then Num 0
  else
    let j := Z.max (Qlog2 q - 52) (-1074) in
    let m := round_even (q / pow2 j) in
    let r := inject_Z m * pow2 j in
    if Qle_bool (pow2 1024) (Qabs r)
    then (if (0 <? m)%Z then PosInfinity else NegInfinity)
    else Num (Qred r).

(** An integer literal or a count; these stay below [2^53]. *)
Definition of_Z (z : Z) : number := Num (inject_Z z).
Definition of_nat (n : nat) : number := of_Z (Z.of_nat n).

(** The number that the decimal form of [z] denotes. *)
Definition rounded (z : Z) : number := binary64 (inject_Z z).

Definition Qsign (q : Q) : comparison := (Qnum q ?= 0)%Z.

(** [a + b]. *)
Definition add (a b : number) : number :=
  match a, b with
  | NaN, _ | _, NaN => NaN
  | Num x, Num y => binary64 (x + y)
  | PosInfinity, NegInfinity | NegInfinity, PosInfinity => NaN
  | PosInfinity, _ | _, PosInfinity => PosInfinity
  | NegInfinity, _ | _, NegInfinity => NegInfinity
  end.

(** [a / b]. *)
Definition div (a b : number) : number :=
  match a, b with
  | NaN, _ | _, NaN => NaN
  | Num x, Num y =>
      match Qsign y, Qsign x with
      | Eq, Eq => NaN
      | Eq, Gt => PosInfinity
      | Eq, Lt => NegInfinity
      | _, _ => binary64 (x / y)
      end
  | Num _, _ => Num 0
  | PosInfinity, Num y => match Qsign y with Lt => NegInfinity | _ => PosInfinity end
  | NegInfinity, Num y => match Qsign y with Lt => PosInfinity | _ => NegInfinity end
  | _, _ => NaN
  end.

(** [a * b]. *)
Definition mul (a b : number) : number :=
  let scale (positive : bool) (q : Q) :=
    match Qsign q with
    | Eq => NaN
    | Gt => if positive then PosInfinity else NegInfinity
    | Lt => if positive then NegInfinity else PosInfinity
    end in
  match a, b with
  | NaN, _ | _, NaN => NaN
  | Num x, Num y => binary64 (x * y)
  | PosInfinity, Num y => scale true y
  | NegInfinity, Num y => scale false y
  | Num x, PosInfinity => scale true x
  | Num x, NegInfinity => scale false x
  | PosInfinity, PosInfinity | NegInfinity, NegInfinity => PosInfinity
  | PosInfinity, NegInfinity | NegInfinity, PosInfinity => NegInfinity
  end.

(** [Math.round]: the nearest integer, a tie going towards +Infinity; the
    result of a binary64 value is one again. *)
Definition Math_round (x : number) : number :=
  match x with
  | Num q => of_Z (Qfloor (q + (1 # 2)))
  | other => other
  end.

(** ** Ordinary objects used as maps

    An object created by the literal [{}] holds its own properties in
    creation order and inherits from [Object.prototype]. *)
Definition object (V : Type) := list (jsstring * V).

(** The property names of [Object.prototype]. *)
Definition Object_prototype_names : list jsstring :=
  List.map str
    [ "constructor"; "__defineGetter__"; "__defineSetter__"; "hasOwnProperty";
      "__lookupGetter__"; "__lookupSetter__"; "isPrototypeOf";
      "propertyIsEnumerable"; "toString"; "valueOf"; "__proto__";
      "toLocaleString" ]%string.

Definition inherited (k : jsstring) : bool :=
  existsb (jsstring_eqb k) Object_prototype_names.

Fixpoint get_own {V} (o : object V) (k : jsstring) : option V :=
  match o with
  | [] => None
  | (k', v) :: o' => if jsstring_eqb k k' then Some v else get_own o' k
  end.

(** [o\[k\] = v] on an own data property: the value is replaced in place,
    a new property goes last. *)
Fixpoint set_own {V} (o : object V) (k : jsstring) (v : V) : object V :=
  match o with
  | [] => [(k, v)]
  | (k', v') :: o' =>
      if jsstring_eqb k k' then (k', v) :: o' else (k', v') :: set_own o' k v
  end.

Definition is_digit (c : char) : bool := ((48 <=? c) && (c <=? 57))%N.

Definition digits_value (s : jsstring) : N :=
  fold_left (fun acc c => (10 * acc + (c - 48))%N) s 0%N.

(** An array index is the canonical decimal form of an integer in
    [0, 2^32 - 2]. *)
Definition array_index (k : jsstring) : option N :=
  match k with
  | [] => None
  | c :: t =>
      if forallb is_digit k && (negb (c =? 48)%N || match t with [] => true | _ => false end)
         && (length k <=? 10)%nat && (digits_value k <? 4294967295)%N
      then Some (digits_value k)
      else None
  end.

Fixpoint insert_index {V} (i : N) (e : jsstring * V) (l : list (N * (jsstring * V)))
  : list (N * (jsstring * V)) :=
  match l with
  | [] => [(i, e)]
  | (j, e') :: l' => if (i <? j)%N then (i, e) :: l else (j, e') :: insert_index i e l'
  end.

Definition index_entries {V} (o : object V) : list (N * (jsstring * V)) :=
  fold_right (fun e acc =>
                match array_index (fst e) with
                | Some i => insert_index i e acc
                | None => acc
                end) [] o.

Definition named_entries {V} (o : object V) : object V :=
  filter (fun e => match array_index (fst e) with Some _ => false | None => true end) o.

(** [Object.entries(o)] (OrdinaryOwnPropertyKeys): the array indices in
    ascending numeric order, then the other names in creation order. *)
Definition Object_entries {V} (o : object V) : list (jsstring * V) :=
  List.map snd (index_entries o) ++ named_entries o.

(** [Array.prototype.sort(comparefn)] is stable; [after a b] tells that
    [comparefn(a, b) > 0], a [NaN] result counting as [+0]. For a
    consistent comparator every stable sort returns this list. With a
    comparator that is not consistent the order is left to the engine:
    the statements that depend on the order are made for counts that can
    be compared, that is, for labels that name no member of
    [Object.prototype]. *)
Fixpoint sort_insert {A} (after : A -> A -> bool) (x : A) (l : list A) : list A :=
  match l with
  | [] => [x]
  | y :: l' => if after x y then y :: sort_insert after x l' else x :: l
  end.

Definition sort {A} (after : A -> A -> bool) (l : list A) : list A :=
  fold_right (sort_insert after) [] l.

End JS.

(* ===================================================================== *)
(** * JSON values and [JSON.parse] (ECMA-404) *)
(* ===================================================================== *)

Module JSON.
Import JS.

#[warnings="-register-all"]
Inductive json : Type :=
| JNull
| JBool (b : bool)
| JNum (n : number)
| JStr (s : jsstring)
| JArr (items : list json)
| JObj (members : object json).

Inductive result (A : Type) : Type :=
| Ok (a : A) (rest : jsstring)
| Fail
| OutOfFuel.
Arguments Ok {A} a rest.
Arguments Fail {A}.
Arguments OutOfFuel {A}.

Definition COMMA : char := 44%N.
Definition MINUS : char := 45%N.
Definition COLON : char := 58%N.
Definition BACKSLASH : char := 92%N.
Definition LBRACE : char := 123%N.
Definition RBRACE : char := 125%N.

(** JSON white space: tab, line feed, carriage return, space. *)
Definition is_ws (c : char) : bool :=
  ((c =? 9) || (c =? 10) || (c =? 13) || (c =? 32))%N.

Fixpoint skip_ws (s : jsstring) : jsstring :=
  match s with
  | c :: t => if is_ws c then skip_ws t else s
  | [] => []
  end.

Fixpoint starts_with (p s : jsstring) : option jsstring :=
  match p, s with
  | [], _ => Some s
  | a :: p', b :: s' => if char_eqb a b then starts_with p' s' else None
  | _ :: _, [] => None
  end.

Fixpoint take_digits (s : jsstring) : jsstring :=
  match s with
  | c :: t => if is_digit c then c :: take_digits t else []
  | [] => []
  end.

Fixpoint drop_digits (s : jsstring) : jsstring :=
  match s with
  | c :: t => if is_digit c then drop_digits t else s
  | [] => []
  end.

(** The value [m * 10^e] of a decimal literal. *)
Definition decimal (negative : bool) (m : N) (e : Z) : Q :=
  let m' := if negative then (- Z.of_N m)%Z else Z.of_N m in
  match e with
  | Zneg p => Qmake m' (Pos.pow 10 p)
  | _ => inject_Z (m' * 10 ^ e)
  end.

(** number = [-] int [frac] [exp], read as the nearest binary64 value. *)
Definition parse_number (s : jsstring) : option (number * jsstring) :=
  let '(negative, s1) :=
    match s with
    | c :: t => if (c =? MINUS)%N then (true, t) else (false, s)
    | [] => (false, s)
    end in
  let '(int_part, s2) :=
    match s1 with
    | c :: t => if (c =? 48)%N then ([c], t) else (take_digits s1, drop_digits s1)
    | [] => ([], [])
    end in
  match int_part with
  | [] => None
  | _ :: _ =>
      let frac :=
        match s2 with
        | c :: t =>
            if (c =? 46)%N then
              match take_digits t with
              | [] => None
              | ds => Some (ds, drop_digits t)
              end
            else Some ([], s2)
        | [] => Some ([], s2)
        end in
      match frac with
      | None => None
      | Some (frac_part, s3) =>
          let mantissa := digits_value (int_part ++ frac_part) in
          let scale := (- Z.of_nat (length frac_part))%Z in
          match s3 with
          | c :: t =>
              if ((c =? 101) || (c =? 69))%N then
                let '(exp_negative, t') :=
                  match t with
                  | sg :: t'' =>
                      if (sg =? MINUS)%N then (true, t'')
                      else if (sg =? 43)%N then (false, t'')
                      else (false, t)
                  | [] => (false, t)
                  end in
                match take_digits t' with
                | [] => None
                | ds =>
                    let e := Z.of_N (digits_value ds) in
                    let e' := if exp_negative then (- e)%Z else e in
                    Some (binary64 (decimal negative mantissa (e' + scale)),
                          drop_digits t')
                end
              else Some (binary64 (decimal negative mantissa scale), s3)
          | [] => Some (binary64 (decimal negative mantissa scale), s3)
          end
      end
  end.

Definition hex_value (c : char) : option N :=
  if is_digit c then Some (c - 48)%N
  else if ((97 <=? c) && (c <=? 102))%N then Some (c - 87)%N
  else if ((65 <=? c) && (c <=? 70))%N then Some (c - 55)%N
  else None.

Definition hex4 (a b c d : char) : option char :=
  match hex_value a, hex_value b, hex_value c, hex_value d with
  | Some x, Some y, Some z, Some w => Some (((x * 16 + y) * 16 + z) * 16 + w)%N
  | _, _, _, _ => None
  end.

(** The two-character escapes. *)
Definition escape (c : char) : option char :=
  if ((c =? 34) || (c =? 92) || (c =? 47))%N then Some c
  else if (c =? 98)%N then Some 8%N
  else if (c =? 102)%N then Some 12%N
  else if (c =? 110)%N then Some 10%N
  else if (c =? 114)%N then Some 13%N
  else if (c =? 116)%N then Some 9%N
  else None.

Definition push (c : char) (r : option (jsstring * jsstring)) :=
  match r with
  | Some (body, rest) => Some (c :: body, rest)
  | None => None
  end.

(** The characters of a string, up to and including the closing quote. *)
Fixpoint parse_chars (s : jsstring) : option (jsstring * jsstring) :=
  match s with
  | [] => None
  | c :: t =>
      if (c =? QUOTE)%N then Some ([], t)
      else if (c =? BACKSLASH)%N then
        match t with
        | e :: t' =>
            if (e =? 117)%N then
              match t' with
              | h1 :: h2 :: h3 :: h4 :: t'' =>
                  match hex4 h1 h2 h3 h4 with
                  | Some u => push u (parse_chars t'')
                  | None => None
                  end
              | _ => None
              end
            else
              match escape e with
              | Some u => push u (parse_chars t')
              | None => None
              end
        | [] => None
        end
      else if (c <? 32)%N then None
      else push c (parse_chars t)
  end.

Definition parse_literal (s : jsstring) : option (json * jsstring) :=
  match starts_with (str "true") s with
  | Some rest => Some (JBool true, rest)
  | None =>
  match starts_with (str "false") s with
  | Some rest => Some (JBool false, rest)
  | None =>
  match starts_with (str "null") s with
  | Some rest => Some (JNull, rest)
  | None =>
  match parse_number s with
  | Some (q, rest) => Some (JNum q, rest)
  | None => None
  end end end end.

(** Recursive descent; each call spends one unit of [fuel]. A member whose
    name is already present replaces the earlier value in place. *)
Fixpoint parse_value (fuel : nat) (s : jsstring) {struct fuel} : result json :=
  match fuel with
  | O => OutOfFuel
  | S fuel' =>
      match skip_ws s with
      | [] => Fail
      | c :: t =>
          if (c =? LBRACKET)%N then
            match skip_ws t with
            | [] => Fail
            | c' :: t' =>
                if (c' =? RBRACKET)%N then Ok (JArr []) t'
                else match parse_elements fuel' [] t with
                     | Ok items rest => Ok (JArr items) rest
                     | Fail => Fail
                     | OutOfFuel => OutOfFuel
                     end
            end
          else if (c =? LBRACE)%N then
            match skip_ws t with
            | [] => Fail
            | c' :: t' =>
                if (c' =? RBRACE)%N then Ok (JObj []) t'
                else match parse_members fuel' [] t with
                     | Ok members rest => Ok (JObj members) rest
                     | Fail => Fail
                     | OutOfFuel => OutOfFuel
                     end
            end
          else if (c =? QUOTE)%N then
            match parse_chars t with
            | Some (body, rest) => Ok (JStr body) rest
            | None => Fail
            end
          else
            match parse_literal (c :: t) with
            | Some (v, rest) => Ok v rest
            | None => Fail
            end
      end
  end

with parse_elements (fuel : nat) (acc : list json) (s : jsstring) {struct fuel}
  : result (list json) :=
  match fuel with
  | O => OutOfFuel
  | S fuel' =>
      match parse_value fuel' s with
      | Ok v rest =>
          match skip_ws rest with
          | [] => Fail
          | c :: t =>
              if (c =? COMMA)%N then parse_elements fuel' (v :: acc) t
              else if (c =? RBRACKET)%N then Ok (rev (v :: acc)) t
              else Fail
          end
      | Fail => Fail
      | OutOfFuel => OutOfFuel
      end
  end

with parse_members (fuel : nat) (acc : object json) (s : jsstring) {struct fuel}
  : result (object json) :=
  match fuel with
  | O => OutOfFuel
  | S fuel' =>
      match skip_ws s with
      | [] => Fail
      | c :: t =>
          if (c =? QUOTE)%N then
            match parse_chars t with
            | None => Fail
            | Some (name, rest) =>
                match skip_ws rest with
                | [] => Fail
                | c2 :: t2 =>
                    if (c2 =? COLON)%N then
                      match parse_value fuel' t2 with
                      | Ok v rest2 =>
                          match skip_ws rest2 with
                          | [] => Fail
                          | c3 :: t3 =>
                              if (c3 =? COMMA)%N
                              then parse_members fuel' (set_own acc name v) t3
                              else if (c3 =? RBRACE)%N
                              then Ok (set_own acc name v) t3
                              else Fail
                          end
                      | Fail => Fail
                      | OutOfFuel => OutOfFuel
                      end
                    else Fail
                end
            end
          else Fail
      end
  end.

(** [JSON.parse(text)]: [None] stands for the thrown [SyntaxError]. *)
Definition parse (text : jsstring) : option json :=
  match parse_value (2 * length text + 1) text with
  | Ok v rest => match skip_ws rest with [] => Some v | _ :: _ => None end
  | Fail | OutOfFuel => None
  end.

(** Property read [v.name] on a parsed value; none of the names the handler
    reads exists on a prototype, so a value other than an object with that
    own property yields [undefined], here [None]. Reading a property of
    [null] throws and is handled where it occurs. *)
Definition get (v : json) (name : jsstring) : option json :=
  match v with
  | JObj members => get_own members name
  | _ => None
  end.

(** ToBoolean; [None] is [undefined]. *)
Definition truthy (v : option json) : bool :=
  match v with
  | None | Some JNull => false
  | Some (JBool b) => b
  | Some (JNum (Num q)) => negb (Qeq_bool q 0)
  | Some (JNum NaN) => false
  | Some (JNum _) => true
  | Some (JStr s) => match s with [] => false | _ :: _ => true end
  | Some (JArr _) | Some (JObj _) => true
  end.

End JSON.

(* ===================================================================== *)
(** * The route handler *)
(* ===================================================================== *)

Module Route.
Import JS JSON.

(** ** Regular expressions of the source *)

(** A character class, one code unit long. *)
Definition char_class (cls : list char) : matcher :=
  fun s => match s with
           | c :: _ => if existsb (char_eqb c) cls then Some 1%nat else None
           | [] => None
           end.

Definition to_upper (c : char) : char :=
  if ((97 <=? c) && (c <=? 122))%N then (c - 32)%N else c.

(** A literal pattern; with the [i] flag both sides are canonicalised, which
    on a pattern of ASCII letters only folds the ASCII letters. *)
Fixpoint literal_at (ignore_case : bool) (p s : jsstring) : bool :=
  match p, s with
  | [], _ => true
  | a :: p', b :: s' =>
      (if ignore_case then char_eqb (to_upper a) (to_upper b) else char_eqb a b)
      && literal_at ignore_case p' s'
  | _ :: _, [] => false
  end.

Definition literal (ignore_case : bool) (p : jsstring) : matcher :=
  fun s => if literal_at ignore_case p s then Some (length p) else None.

(** Index of the last occurrence of [c]. *)
Fixpoint last_index (c : char) (s : jsstring) : option nat :=
  match s with
  | [] => None
  | x :: t =>
      match last_index c t with
      | Some j => Some (S j)
      | None => if char_eqb x c then Some O else None
      end
  end.

Fixpoint take_spaces (s : jsstring) : jsstring :=
  match s with
  | c :: t => if is_space c then c :: take_spaces t else []
  | [] => []
  end.

(** [/\n\s*\n/]: a line feed, then the longest run of white space that is
    still followed, inside the run, by a line feed. *)
Definition re_blank_lines : matcher :=
  fun s => match s with
           | c :: t =>
               if char_eqb c LF then
                 match last_index LF (take_spaces t) with
                 | Some j => Some (S (S j))
                 | None => None
                 end
               else None
           | [] => None
           end.

(** [/\[[\s\S]*\]/]: an opening bracket, then everything up to the last
    closing bracket of the text. *)
Definition re_array : matcher :=
  fun s => match s with
           | c :: t =>
               if char_eqb c LBRACKET then
                 match last_index RBRACKET t with
                 | Some j => Some (S (S j))
                 | None => None
                 end
               else None
           | [] => None
           end.

Definition fence_json : jsstring := [BACKTICK; BACKTICK; BACKTICK] ++ str "json".
Definition fence : jsstring := [BACKTICK; BACKTICK; BACKTICK].

(** ** Data model *)

(** The scores are integers; one too large for binary64 stands for the
    number its decimal form denotes. *)
Record QuestionEvaluation : Type := {
  question : jsstring;
  bloom : option jsstring;
  higherOrder : bool;
  clarityScore : Z;
  grammarScore : Z;
  spellingScore : Z;
  overallScore : Z;
  suggestions : list jsstring
}.

(** A metric score is a number, or for the Bloom level a text. *)
Inductive score_value : Type :=
| Score (n : number)
| Label (s : jsstring).

Record Metric : Type := { label : jsstring; score : score_value }.

Record EvaluationReport : Type := {
  totalScore : number;
  metrics : list Metric;
  unitCoverage : jsstring;
  difficulty : jsstring;
  evaluations : list QuestionEvaluation
}.

Inductive Payload : Type :=
| ErrorBody (error : jsstring)
| ReportBody (report : EvaluationReport).

(** What [NextResponse.json(payload, { status })] carries. *)
Record Response : Type := { payload : Payload; status : Z }.

(** ** Sanitizer and segmenter *)

Definition sanitize (txt : jsstring) : jsstring :=
  replace_all (char_class [LDQUO; RDQUO]) [QUOTE]
    (replace_all (char_class [LSQUO; RSQUO]) [APOSTROPHE]
       (replace_all (char_class [BULLET]) [HYPHEN] txt)).

Definition questions (set1 : jsstring) : list jsstring :=
  filter (fun q => (0 <? length (trim q))%nat)
    (map sanitize (split re_blank_lines set1)).

(** ** Prompt *)

Definition quoted (s : string) : jsstring := QUOTE :: str s ++ [QUOTE].

Fixpoint join (sep : jsstring) (l : list jsstring) : jsstring :=
  match l with
  | [] => []
  | [x] => x
  | x :: l' => x ++ sep ++ join sep l'
  end.

Definition systemPrompt : jsstring :=
  [LF] ++
  join [LF]
    [ str "You are an expert academic evaluator.";
      [];
      str "For each question, return a JSON array with:";
      str "- " ++ quoted "question" ++ str ": original question";
      str "- " ++ quoted "bloom" ++ str ": Bloom's level";
      str "- " ++ quoted "higherOrder" ++ str ": true/false";
      str "- " ++ quoted "clarityScore" ++ str ": out of 100";
      str "- " ++ quoted "grammarScore" ++ str ": out of 100";
      str "- " ++ quoted "spellingScore" ++ str ": out of 100";
      str "- " ++ quoted "overallScore" ++ str ": out of 100 (average of the above)";
      str "- " ++ quoted "suggestions" ++ str ": list of 2 suggestions to improve";
      [];
      str "Respond in JSON array format only." ]
  ++ [LF].

(** Decimal form of a natural number. *)
Definition decimal_of_nat (n : nat) : jsstring :=
  str (NilEmpty.string_of_uint (Nat.to_uint n)).

Fixpoint numbered (i : nat) (qs : list jsstring) : list jsstring :=
  match qs with
  | [] => []
  | q :: qs' => (decimal_of_nat (i + 1) ++ str ". " ++ q) :: numbered (S i) qs'
  end.

Definition userPrompt (questions : list jsstring) : jsstring :=
  join [LF] (numbered 0 questions).

(** ** The Evaluator *)

Inductive role : Type := system | user.

Record CreateParams : Type := {
  model : jsstring;
  messages : list (role * jsstring);
  max_tokens : Z
}.

Record Message : Type := { content : option jsstring }.
Record Choice : Type := { message : option Message }.
Record Completion : Type := { choices : option (list Choice) }.

(** The awaited call resolves, possibly to nothing, or rejects. *)
Inductive EvaluatorResult : Type :=
| Resolved (completion : option Completion)
| Rejected.

Definition Evaluator := CreateParams -> EvaluatorResult.

(** ** Extractor *)

(** [raw.replace(/```json/gi, "").replace(/```/g, "").trim()]. *)
Definition strip_fences (raw : jsstring) : jsstring :=
  trim (replace_all (literal false fence) []
          (replace_all (literal true fence_json) [] raw)).

Definition extract (raw : jsstring) : jsstring :=
  let raw := strip_fences raw in
  match match_ re_array raw with
  | Some m => m
  | None => raw
  end.

(** ** Aggregator *)

(** A property of [bloomCounts] holds a count, or, once a member inherited
    from [Object.prototype] has been read and incremented, a text that is
    not a numeric literal. *)
Inductive tally : Type :=
| Count (n : Z)
| Text.

Record Totals : Type := {
  total : number;
  spelling : number;
  grammar : number;
  clarity : number;
  bloomCounts : object tally;
  higherOrderCount : Z
}.

(** [bloomCounts\[k\]]: the own property, else what the prototype holds. *)
Definition read_count (counts : object tally) (k : jsstring) : option tally :=
  match get_own counts k with
  | Some v => Some v
  | None => if inherited k then Some Text else None
  end.

(** [(bloomCounts\[k\] || 0) + 1]. *)
Definition incremented (current : option tally) : tally :=
  match current with
  | Some (Count n) => Count ((if (n =? 0)%Z then 0 else n) + 1)
  | Some Text => Text
  | None => Count (0 + 1)
  end.

(** [bloomCounts\[k\] = v]; the setter of [__proto__] ignores a primitive. *)
Definition write_count (counts : object tally) (k : jsstring) (v : tally)
  : object tally :=
  if jsstring_eqb k (str "__proto__") then counts else set_own counts k v.

(** The body of the [forEach] callback. *)
Definition accumulate (acc : Totals) (q : QuestionEvaluation) : Totals :=
  {| total := add (total acc) (rounded (overallScore q));
     spelling := add (spelling acc) (rounded (spellingScore q));
     grammar := add (grammar acc) (rounded (grammarScore q));
     clarity := add (clarity acc) (rounded (clarityScore q));
     bloomCounts :=
       match bloom q with
       | Some (c :: k) =>
           write_count (bloomCounts acc) (c :: k)
             (incremented (read_count (bloomCounts acc) (c :: k)))
       | Some [] | None => bloomCounts acc
       end;
     higherOrderCount :=
       if higherOrder q then higherOrderCount acc + 1 else higherOrderCount acc |}.

Section Aggregate.

Variable evaluations : list QuestionEvaluation.

Definition avg (val : number) : number :=
  match length evaluations with
  | O => of_Z 0
  | S _ => Math_round (div val (of_nat (length evaluations)))
  end.

Definition totals : Totals :=
  fold_left accumulate evaluations
    {| total := of_Z 0; spelling := of_Z 0; grammar := of_Z 0;
       clarity := of_Z 0; bloomCounts := []; higherOrderCount := 0 |}.

(** [(a, b) => b\[1\] - a\[1\]] is positive. *)
Definition by_count_desc (a b : jsstring * tally) : bool :=
  match snd a, snd b with
  | Count x, Count y => (0 <? y - x)%Z
  | _, _ => false
  end.

Definition mostCommonBloom : jsstring :=
  match sort by_count_desc (Object_entries (bloomCounts totals)) with
  | (k, _) :: _ => match k with [] => str "N/A" | _ :: _ => k end
  | [] => str "N/A"
  end.

Definition metrics_of : list Metric :=
  [ {| label := str "Spelling"; score := Score (avg (spelling totals)) |};
    {| label := str "Grammar"; score := Score (avg (grammar totals)) |};
    {| label := str "Clarity"; score := Score (avg (clarity totals)) |};
    {| label := str "Bloom Level"; score := Label mostCommonBloom |};
    {| label := str "Higher Order";
       score := Score (Math_round
                         (mul (div (of_Z (higherOrderCount totals))
                                   (of_nat (length evaluations)))
                              (of_Z 100))) |};
    {| label := str "CO Match"; score := Score (of_Z 70) |};
    {| label := str "Syllabus Match"; score := Score (of_Z 75) |} ].

(** The success payload: totalScore, metrics, unitCoverage, difficulty,
    evaluations. *)
Definition aggregate : EvaluationReport :=
  Build_EvaluationReport (avg (total totals)) metrics_of
    (str "3 / 5") (str "Medium") evaluations.

End Aggregate.

(** ** Handler

    A computation of the handler may throw and records the calls made to
    the Evaluator. [Unmodelled] marks a parsed answer outside the data
    model, on which the source goes on with the coercions of untyped
    arithmetic; no statement is made about it. *)

Inductive Error : Type := TypeError | SyntaxError | APIError.

Inductive outcome (A : Type) : Type :=
| Value (a : A)
| Thrown (e : Error)
| Unmodelled.
Arguments Value {A} a.
Arguments Thrown {A} e.
Arguments Unmodelled {A}.

Definition handler (A : Type) : Type :=
  list CreateParams -> outcome A * list CreateParams.

Definition ret {A} (a : A) : handler A := fun calls => (Value a, calls).
Definition throw {A} (e : Error) : handler A := fun calls => (Thrown e, calls).
Definition unmodelled {A} : handler A := fun calls => (Unmodelled, calls).

Definition bind {A B} (m : handler A) (k : A -> handler B) : handler B :=
  fun calls =>
    match m calls with
    | (Value a, calls') => k a calls'
    | (Thrown e, calls') => (Thrown e, calls')
    | (Unmodelled, calls') => (Unmodelled, calls')
    end.

Notation "x <- m ;; k" := (bind m (fun x => k))
  (at level 61, m at next level, right associativity).

(** [try { body } catch (err) { handle }]. *)
Definition try_catch {A} (body : handler A) (handle : Error -> handler A)
  : handler A :=
  fun calls =>
    match body calls with
    | (Thrown e, calls') => handle e calls'
    | other => other
    end.

Definition run {A} (m : handler A) : outcome A * list CreateParams := m [].

(** [await openai.chat.completions.create(params)]. *)
Definition create (openai : Evaluator) (params : CreateParams)
  : handler (option Completion) :=
  fun calls =>
    match openai params with
    | Resolved completion => (Value completion, calls ++ [params])
    | Rejected => (Thrown APIError, calls ++ [params])
    end.

(** The request; [text] is its body. *)
Record Request : Type := { text : jsstring }.

(** [await req.json()]. *)
Definition req_json (req : Request) : handler json :=
  match JSON.parse (text req) with
  | Some v => ret v
  | None => throw SyntaxError
  end.

(** [const { outcomes, syllabus, set1 } = value]. *)
Definition destructure (value : json)
  : handler (option json * option json * option json) :=
  match value with
  | JNull => throw TypeError
  | _ => ret (get value (str "outcomes"), get value (str "syllabus"),
              get value (str "set1"))
  end.

(** [typeof v === "string"]. *)
Definition as_string (v : option json) : option jsstring :=
  match v with
  | Some (JStr s) => Some s
  | _ => None
  end.

Definition as_integer (v : option json) : option Z :=
  match v with
  | Some (JNum (Num q)) =>
      match Qden (Qred q) with
      | xH => Some (Qnum (Qred q))
      | _ => None
      end
  | _ => None
  end.

Definition as_boolean (v : option json) : option bool :=
  match v with
  | Some (JBool b) => Some b
  | _ => None
  end.

Fixpoint as_strings (l : list json) : option (list jsstring) :=
  match l with
  | [] => Some []
  | JStr s :: l' => option_map (cons s) (as_strings l')
  | _ :: _ => None
  end.

(** The record of the data model that an item of the parsed array stands
    for; [bloom] may be absent or [null]. *)
Definition as_evaluation (item : json) : option QuestionEvaluation :=
  match as_string (get item (str "question")),
        match get item (str "bloom") with
        | None | Some JNull => Some None
        | Some (JStr s) => Some (Some s)
        | Some _ => None
        end,
        as_boolean (get item (str "higherOrder")),
        as_integer (get item (str "clarityScore")),
        as_integer (get item (str "grammarScore")),
        as_integer (get item (str "spellingScore")),
        as_integer (get item (str "overallScore")),
        match get item (str "suggestions") with
        | Some (JArr l) => as_strings l
        | _ => None
        end
  with
  | Some q, Some b, Some h, Some c, Some g, Some s, Some o, Some sg =>
      Some (Build_QuestionEvaluation q b h c g s o sg)
  | _, _, _, _, _, _, _, _ => None
  end.

Fixpoint as_evaluations (items : list json) : option (list QuestionEvaluation) :=
  match items with
  | [] => Some []
  | item :: items' =>
      match as_evaluation item, as_evaluations items' with
      | Some q, Some qs => Some (q :: qs)
      | _, _ => None
      end
  end.

Definition is_null (v : json) : bool :=
  match v with JNull => true | _ => false end.

(** What [evaluations.forEach(...)] meets: a value without [forEach] and
    an item [null], whose property cannot be read, throw. *)
Definition typed (evaluations : json) : handler (list QuestionEvaluation) :=
  match evaluations with
  | JArr items =>
      if existsb is_null items then throw TypeError
      else match as_evaluations items with
           | Some qs => ret qs
           | None => unmodelled
           end
  | _ => throw TypeError
  end.

Definition json_response (payload : Payload) (status : Z) : Response :=
  {| payload := payload; status := status |}.

(** [completion.choices\[0\].message], behind the two guards before it. *)
Definition first_message (completion : option Completion)
  : handler (option Message) :=
  match completion with
  | None => ret None
  | Some c =>
      match choices c with
      | None => ret None
      | Some [] => throw TypeError
      | Some (choice :: _) => ret (message choice)
      end
  end.

(** The parameters of the one outbound call. *)
Definition create_params (questions : list jsstring) : CreateParams :=
  {| model := str "mistralai/mistral-7b-instruct";
     messages := [ (system, systemPrompt); (user, userPrompt questions) ];
     max_tokens := 2000 |}.

(** From the message of the first choice to the response: clean up,
    extract, parse, aggregate. *)
Definition report_from (m : Message) : handler Response :=
  let raw := match content m with
             | Some (c :: t) => c :: t
             | Some [] | None => str "[]"
             end in
  let raw := extract raw in
  match JSON.parse raw with
  | None =>
      ret (json_response (ErrorBody (str "AI response could not be parsed.")) 500)
  | Some evaluations =>
      qs <- typed evaluations ;;
      ret (json_response (ReportBody (aggregate qs)) 200)
  end.

(** The handler past input validation. *)
Definition evaluate (openai : Evaluator) (set1 : jsstring) : handler Response :=
  let questions := questions set1 in
  completion <- create openai (create_params questions) ;;
  msg <- first_message completion ;;
  match msg with
  | None => ret (json_response (ErrorBody (str "No response from AI.")) 500)
  | Some m => report_from m
  end.

Definition POST (openai : Evaluator) (req : Request) : handler Response :=
  try_catch
    (body <- req_json req ;;
     fields <- destructure body ;;
     let '(outcomes, syllabus, set1) := fields in
     match as_string outcomes, as_string syllabus, as_string set1 with
     | Some _, Some _, Some set1 => evaluate openai set1
     | _, _, _ =>
         ret (json_response (ErrorBody (str "Invalid input data.")) 400)
     end)
    (fun _ => ret (json_response (ErrorBody (str "Evaluation failed.")) 500)).

End Route.


(* ===================================================================== *)
(** * Notions used in the statements *)
(* ===================================================================== *)

Import JS JSON Route.

(** ** Sanitizer, in the words of the specification *)

(** The bullet becomes a hyphen, a curly single quote a straight one, a
    curly double quote a straight one; every other unit is kept. *)
Definition straighten (c : char) : char :=
  if (c =? BULLET)%N then HYPHEN
  else if ((c =? LSQUO) || (c =? RSQUO))%N then APOSTROPHE
  else if ((c =? LDQUO) || (c =? RDQUO))%N then QUOTE
  else c.

Definition fold_class (cls : list char) (by_ : char) (c : char) : char :=
  if existsb (char_eqb c) cls then by_ else c.

(** ** Extractor *)

(** The text holds an opening bracket and, later, a closing one. *)
Definition contains_bracketed (s : jsstring) : Prop :=
  exists a b c, s = a ++ LBRACKET :: b ++ RBRACKET :: c.

(** ** Aggregator *)

Definition sum_of (field : QuestionEvaluation -> Z)
  (evs : list QuestionEvaluation) : Z :=
  fold_right (fun q acc => field q + acc)%Z 0%Z evs.

Definition mean (s : Z) (n : nat) : Q := inject_Z s / inject_Z (Z.of_nat n).

(** [r] is the integer nearest to [x], the upper one of two at equal
    distance. *)
Definition nearest_half_up (x : Q) (r : Z) : Prop :=
  (inject_Z r - (1 # 2) <= x)%Q /\ (x < inject_Z r + (1 # 2))%Q.

(** The absolute values of the field sum to less than [2^52]: every
    partial sum is then a binary64 value, and so is every half-integer
    near the mean. *)
Definition within_precision (field : QuestionEvaluation -> Z)
  (evs : list QuestionEvaluation) : Prop :=
  (sum_of (fun q => Z.abs (field q)) evs < 2 ^ 52)%Z.

(** A sequence that an array can hold, with the four scores within
    precision. *)
Definition representable (evs : list QuestionEvaluation) : Prop :=
  (Z.of_nat (length evs) < 2 ^ 32)%Z /\
  within_precision spellingScore evs /\ within_precision grammarScore evs /\
  within_precision clarityScore evs /\ within_precision overallScore evs.

(** The scores of the data model: integers from 0 to 100. *)
Definition in_range (q : QuestionEvaluation) : Prop :=
  (0 <= spellingScore q <= 100)%Z /\ (0 <= grammarScore q <= 100)%Z /\
  (0 <= clarityScore q <= 100)%Z /\ (0 <= overallScore q <= 100)%Z.

(** The score listed under a label. *)
Fixpoint metric (name : jsstring) (ms : list Metric) : option score_value :=
  match ms with
  | [] => None
  | m :: ms' =>
      if jsstring_eqb (label m) name then Some (score m) else metric name ms'
  end.

Definition averaged (field : QuestionEvaluation -> Z)
  (evs : list QuestionEvaluation) (s : option score_value) : Prop :=
  exists r, s = Some (Score (of_Z r)) /\
            nearest_half_up (mean (sum_of field evs) (length evs)) r.

(** ** Handler *)

Definition error_response (msg : string) (status : Z) : Response :=
  json_response (ErrorBody (str msg)) status.

(** The three fields of a request that passes validation. *)
Definition request_fields (req : Request)
  : option (jsstring * jsstring * jsstring) :=
  match JSON.parse (text req) with
  | Some body =>
      match as_string (get body (str "outcomes")),
            as_string (get body (str "syllabus")),
            as_string (get body (str "set1")) with
      | Some o, Some s, Some q => Some (o, s, q)
      | _, _, _ => None
      end
  | None => None
  end.

(** The Evaluator answers the call made for [set1] with a completion whose
    first choice carries [m]. *)
Definition answers (openai : Evaluator) (set1 : jsstring) (m : option Message)
  : Prop :=
  exists others,
    openai (create_params (questions set1)) =
    Resolved (Some {| choices := Some ({| message := m |} :: others) |}).

Definition is_array (v : json) : bool :=
  match v with JArr _ => true | _ => false end.

(** ** Segmenter *)

(** Nothing but white space. *)
Definition blank (q : jsstring) : bool := forallb is_space q.

(** The text made of the chunks with the separators between them. *)
Fixpoint interleave (chunks seps : list jsstring) : jsstring :=
  match chunks, seps with
  | c :: cs, s :: ss => c ++ s ++ interleave cs ss
  | c :: _, [] => c
  | [], _ => []
  end.

(** One or more blank lines: a line feed, white space, a line feed. *)
Definition blank_line_run (sep : jsstring) : Prop :=
  exists ws, sep = LF :: ws ++ [LF] /\ blank ws = true.

Definition free_of_blank_lines (chunk : jsstring) : Prop :=
  forall a sep b, chunk = a ++ sep ++ b -> ~ blank_line_run sep.

(** The chunk has no line feed in its leading white space. *)
Definition starts_clean (chunk : jsstring) : Prop :=
  forall ws rest, chunk = ws ++ LF :: rest -> blank ws = false.

(** No blank-line run starts inside [pre] when [pre] is followed by [s]. *)
Definition no_run_starts (pre s : jsstring) : Prop :=
  forall a b, pre = a ++ b -> b <> [] -> re_blank_lines (b ++ s) = None.

(** The chunk does not end in a line feed followed by white space only:
    a blank-line run that comes next does not start earlier, inside it. *)
Definition ends_clean (chunk : jsstring) : Prop :=
  forall rest ws, chunk = rest ++ LF :: ws -> blank ws = false.

(** [segmented text chunks seps]: the text is the chunks with the
    separators between them; every separator is a blank-line run, taken
    from the first line feed that opens one (the chunk before it is free
    of runs and does not end in a line feed followed by white space only)
    up to the last line feed that closes one (what comes after it has no
    line feed in its leading white space); the last chunk is free of
    runs. *)
Inductive segmented : jsstring -> list jsstring -> list jsstring -> Prop :=
| segmented_last chunk :
    free_of_blank_lines chunk -> segmented chunk [chunk] []
| segmented_cut chunk sep rest chunks seps :
    free_of_blank_lines chunk -> ends_clean chunk ->
    blank_line_run sep -> starts_clean rest ->
    segmented rest chunks seps ->
    segmented (chunk ++ sep ++ rest) (chunk :: chunks) (sep :: seps).

(** ** Bloom levels *)

(** The label an evaluation is counted under, if any. *)
Definition label_of (q : QuestionEvaluation) : list jsstring :=
  match bloom q with
  | Some (c :: k) => [c :: k]
  | Some [] | None => []
  end.

(** The labels counted, in the order of the evaluations. *)
Definition labels (evs : list QuestionEvaluation) : list jsstring :=
  flat_map label_of evs.

Fixpoint occurrences (l : jsstring) (ls : list jsstring) : Z :=
  match ls with
  | [] => 0
  | x :: ls' => (if jsstring_eqb x l then 1 else 0) + occurrences l ls'
  end.

(** [a] is met in [ls] before any [b]. *)
Definition first_seen_before (a b : jsstring) (ls : list jsstring) : Prop :=
  exists pre post, ls = pre ++ a :: post /\ ~ In b pre.

(** The order in which the counts are listed: the labels that are array
    indices by increasing value, then the others as first met. *)
Definition listed_before (ls : list jsstring) (a b : jsstring) : Prop :=
  match array_index a, array_index b with
  | Some i, Some j => (i < j)%N
  | Some _, None => True
  | None, Some _ => False
  | None, None => first_seen_before a b ls
  end.

(** [x] stands somewhere before [y] in the list. *)
Inductive precedes {A : Type} (x y : A) : list A -> Prop :=
| precedes_here l : In y l -> precedes x y (x :: l)
| precedes_later z l : precedes x y l -> precedes x y (z :: l).

(** Counting one more occurrence of a label that names no member of
    [Object.prototype]. *)
Definition tally_step (o : object tally) (l : jsstring) : object tally :=
  set_own o l (incremented (get_own o l)).

Definition tallies (ls : list jsstring) : object tally :=
  fold_left tally_step ls [].

Definition count_of (e : jsstring * tally) : Z :=
  match snd e with Count n => n | Text => 0 end.

Definition counted (e : jsstring * tally) : Prop := exists n, snd e = Count n.

Definition mem_dec (l : jsstring) (ls : list jsstring)
  : {In l ls} + {~ In l ls} :=
  in_dec (list_eq_dec N.eq_dec) l ls.

(** What the counts look like once the labels [ls] have been counted. *)
Record tallied (ls : list jsstring) (o : object tally) : Prop := {
  tallied_nodup : NoDup (map fst o);
  tallied_keys : forall k, In k (map fst o) <-> In k ls;
  tallied_count :
    forall k, In k ls -> get_own o k = Some (Count (occurrences k ls));
  tallied_order :
    forall a b, precedes a b (map fst o) -> first_seen_before a b ls
}.

Definition no_leading_zero (k : jsstring) : Prop :=
  match k with c :: _ => c <> 48%N | [] => True end.

Definition by_index {V} (a b : N * (jsstring * V)) : Prop :=
  (fst a <= fst b)%N.

(** ** Parser *)

(** [rest] is what is left of [s] after a non-empty prefix. *)
Definition consumed (s rest : jsstring) : Prop :=
  exists a, a <> [] /\ s = a ++ rest.

Definition suffix (s rest : jsstring) : Prop := exists a, s = a ++ rest.

Ltac list_eq :=
  repeat first [rewrite <- app_assoc | rewrite <- app_comm_cons]; reflexivity.

(** ** Sample inputs *)

(** A request with the three fields; [set1] holds two questions. *)
Definition sample_request : Request :=
  {| text :=
       str "{" ++ quoted "outcomes" ++ str ":" ++ quoted "CO1" ++ str ","
       ++ quoted "syllabus" ++ str ":" ++ quoted "Unit 1" ++ str ","
       ++ quoted "set1" ++ str ":"
       ++ quoted "What is 2+2?\n\nExplain photosynthesis." ++ str "}" |}.

(** The same request without [outcomes]. *)
Definition request_without_outcomes : Request :=
  {| text :=
       str "{" ++ quoted "syllabus" ++ str ":" ++ quoted "Unit 1" ++ str ","
       ++ quoted "set1" ++ str ":" ++ quoted "What is 2+2?" ++ str "}" |}.

(** An Evaluator whose completion has one choice with message [m]. *)
Definition stub (m : option Message) : Evaluator :=
  fun _ => Resolved (Some {| choices := Some [ {| message := m |} ] |}).

Definition evaluation (overall : Z) (level : string) (higher : bool)
  : QuestionEvaluation :=
  {| question := str "Q"; bloom := Some (str level); higherOrder := higher;
     clarityScore := 90; grammarScore := 85; spellingScore := 100;
     overallScore := overall; suggestions := [] |}.

(** A request whose body is the JSON value null. *)
Definition null_request : Request := {| text := str "null" |}.

(** The answer of the extractor example of the specification. *)
Definition fenced_answer : jsstring :=
  str "Sure! " ++ fence_json ++ [LF] ++ str "[{" ++ quoted "a" ++ str ":1}]"
  ++ [LF] ++ fence ++ str " Thanks".

(** ** Further notions *)

(** The five glyphs the sanitizer replaces. *)
Definition glyphs : list char := [BULLET; LSQUO; RSQUO; LDQUO; RDQUO].

(** The text [p] occurs in [s]. *)
Definition occurs (p s : jsstring) : Prop := exists a b, s = a ++ p ++ b.

(** The number of grave accents the text starts with. *)
Fixpoint ticks (s : jsstring) : nat :=
  match s with
  | c :: t => if char_eqb c BACKTICK then S (ticks t) else O
  | [] => O
  end.

(** The four scores of an evaluation lie between [lo] and [hi]. *)
Definition scores_between (lo hi : Z) (q : QuestionEvaluation) : Prop :=
  (lo <= spellingScore q <= hi)%Z /\ (lo <= grammarScore q <= hi)%Z /\
  (lo <= clarityScore q <= hi)%Z /\ (lo <= overallScore q <= hi)%Z.

(** The number of evaluations marked higher-order. *)
Definition higher (evs : list QuestionEvaluation) : nat :=
  length (filter higherOrder evs).

(** [c] out of [n], in per cent. *)
Definition percentage (c n : nat) : Q :=
  inject_Z (100 * Z.of_nat c) / inject_Z (Z.of_nat n).

(** [r] is an integer nearest to [x]: either one of two at equal
    distance. *)
Definition nearest (x : Q) (r : Z) : Prop :=
  inject_Z r - (1 # 2) <= x /\ x <= inject_Z r + (1 # 2).

(** ** The parts of a number

    [parse_number] in four steps: the sign, the integer part, the
    fraction, the exponent. *)
Definition number_sign (s : jsstring) : bool * jsstring :=
  match s with
  | c :: t => if (c =? MINUS)%N then (true, t) else (false, s)
  | [] => (false, s)
  end.

Definition number_int (s1 : jsstring) : jsstring * jsstring :=
  match s1 with
  | c :: t => if (c =? 48)%N then ([c], t) else (take_digits s1, drop_digits s1)
  | [] => ([], [])
  end.

Definition number_frac (s2 : jsstring) : option (jsstring * jsstring) :=
  match s2 with
  | c :: t =>
      if (c =? 46)%N then
        match take_digits t with
        | [] => None
        | ds => Some (ds, drop_digits t)
        end
      else Some ([], s2)
  | [] => Some ([], s2)
  end.

Definition number_exp (negative : bool) (mantissa : N) (scale : Z)
  (s3 : jsstring) : option (number * jsstring) :=
  match s3 with
  | c :: t =>
      if ((c =? 101) || (c =? 69))%N then
        let '(exp_negative, t') :=
          match t with
          | sg :: t'' =>
              if (sg =? MINUS)%N then (true, t'')
              else if (sg =? 43)%N then (false, t'')
              else (false, t)
          | [] => (false, t)
          end in
        match take_digits t' with
        | [] => None
        | ds =>
            let e := Z.of_N (digits_value ds) in
            let e' := if exp_negative then (- e)%Z else e in
            Some (binary64 (decimal negative mantissa (e' + scale)),
                  drop_digits t')
        end
      else Some (binary64 (decimal negative mantissa scale), s3)
  | [] => Some (binary64 (decimal negative mantissa scale), s3)
  end.

Definition is_number (v : json) : bool :=
  match v with JNum _ => true | _ => false end.

(** After a number the next unit has been looked at; after any other
    value nothing has. *)
Definition agrees (v : json) (r r' : jsstring) : Prop :=
  is_number v = true -> hd_error r' = hd_error r.

(** The answer with the fence markers removed, before the trim. *)
Definition markers_removed (raw : jsstring) : jsstring :=
  replace_all (literal false fence) []
    (replace_all (literal true fence_json) [] raw).

(** A response with status 200 that carries a report. *)
Definition is_report (r : Response) : Prop :=
  exists report, r = json_response (ReportBody report) 200.

(** The text handed to [JSON.parse]: the content of the message, or the
    text of the empty array when it is missing or empty, after the
    extractor. *)
Definition candidate (m : Message) : jsstring :=
  extract match content m with
          | Some (c :: t) => c :: t
          | Some [] | None => str "[]"
          end.

(** The request passes validation and the Evaluator answers it with an
    array that holds no null and an item that is no evaluation of the data
    model: the case the model leaves open. *)
Definition outside_model (openai : Evaluator) (req : Request) : Prop :=
  exists o s set1 m items,
    request_fields req = Some (o, s, set1) /\
    answers openai set1 (Some m) /\
    JSON.parse (candidate m) = Some (JArr items) /\
    ~ In JNull items /\
    as_evaluations items = None.

(** ** Further sample inputs *)

(** A request whose body breaks off. *)
Definition truncated_request : Request :=
  {| text := str "{" ++ quoted "outcomes" ++ str ":" |}.

(** The questions of [sample_request] with other [outcomes] and
    [syllabus], and the fields in another order. *)
Definition other_request : Request :=
  {| text :=
       str "{" ++ quoted "set1" ++ str ":"
       ++ quoted "What is 2+2?\n\nExplain photosynthesis." ++ str ","
       ++ quoted "outcomes" ++ str ":" ++ quoted "CO7" ++ str ","
       ++ quoted "syllabus" ++ str ":" ++ quoted "Unit 9" ++ str "}" |}.

(** A request whose [set1] is white space only. *)
Definition blank_request : Request :=
  {| text :=
       str "{" ++ quoted "outcomes" ++ str ":" ++ quoted "CO1" ++ str ","
       ++ quoted "syllabus" ++ str ":" ++ quoted "Unit 1" ++ str ","
       ++ quoted "set1" ++ str ":" ++ quoted " \n\n\t" ++ str "}" |}.

(** An Evaluator whose call rejects, and one that resolves to a completion
    with an empty array of choices. *)
Definition failing : Evaluator := fun _ => Rejected.

Definition choiceless : Evaluator :=
  fun _ => Resolved (Some {| choices := Some [] |}).

(** An answer with one evaluation, the array fenced, and the record it
    stands for. *)
Definition sample_array : jsstring :=
  str "[{" ++ quoted "question" ++ str ":"
  ++ quoted "What is 2+2?" ++ str "," ++ quoted "bloom" ++ str ":"
  ++ quoted "Remember" ++ str "," ++ quoted "higherOrder" ++ str ":false,"
  ++ quoted "clarityScore" ++ str ":90," ++ quoted "grammarScore"
  ++ str ":85," ++ quoted "spellingScore" ++ str ":100,"
  ++ quoted "overallScore" ++ str ":92," ++ quoted "suggestions"
  ++ str ":[" ++ quoted "Name the operation." ++ str "]}]".

Definition sample_answer : jsstring :=
  fence_json ++ [LF] ++ sample_array ++ [LF] ++ fence.

Definition sample_evaluation : QuestionEvaluation :=
  {| question := str "What is 2+2?"; bloom := Some (str "Remember");
     higherOrder := false; clarityScore := 90; grammarScore := 85;
     spellingScore := 100; overallScore := 92;
     suggestions := [str "Name the operation."] |}.

(** Two hundred evaluations, twenty-nine of them higher-order. *)
Definition tie_sample : list QuestionEvaluation :=
  repeat (evaluation 80 "Apply" true) 29
  ++ repeat (evaluation 80 "Apply" false) 171.

(* ===================================================================== *)
(** * Sanitizer *)
(* ===================================================================== *)

Lemma replace_all_nil re by_ :
  replace_all re by_ [] = match re [] with Some _ => by_ | None => [] end.
Proof. simp replace_all. destruct (re []); reflexivity. Qed.

Lemma replace_all_cons re by_ c t :
  replace_all re by_ (c :: t) =
  match re (c :: t) with
  | Some (S k) => by_ ++ replace_all re by_ (skipn k t)
  | Some O => by_ ++ c :: replace_all re by_ t
  | None => c :: replace_all re by_ t
  end.
Proof. simp replace_all. destruct (re (c :: t)) as [[|k]|]; reflexivity. Qed.

Lemma replace_all_char_class cls by_ s :
  replace_all (char_class cls) [by_] s = map (fold_class cls by_) s.
Proof.
  induction s as [|c t IH].
  - rewrite replace_all_nil. reflexivity.
  - rewrite replace_all_cons. cbn [char_class map]. unfold fold_class at 1.
    destruct (existsb (char_eqb c) cls); cbn [skipn app]; rewrite IH; reflexivity.
Qed.

Lemma folds_straighten c :
  fold_class [LDQUO; RDQUO] QUOTE
    (fold_class [LSQUO; RSQUO] APOSTROPHE (fold_class [BULLET] HYPHEN c))
  = straighten c.
Proof.
  unfold straighten.
  destruct (N.eqb_spec c BULLET) as [->|H1]; [reflexivity|].
  destruct (N.eqb_spec c LSQUO) as [->|H2]; [reflexivity|].
  destruct (N.eqb_spec c RSQUO) as [->|H3]; [reflexivity|].
  destruct (N.eqb_spec c LDQUO) as [->|H4]; [reflexivity|].
  destruct (N.eqb_spec c RDQUO) as [->|H5]; [reflexivity|].
  unfold fold_class, char_eqb. cbn [existsb orb].
  apply N.eqb_neq in H1, H2, H3, H4, H5.
  rewrite H1. cbn [orb]. rewrite H2, H3. cbn [orb]. rewrite H4, H5. reflexivity.
Qed.

Lemma sanitize_map txt : sanitize txt = map straighten txt.
Proof.
  unfold sanitize. rewrite !replace_all_char_class, !map_map.
  apply map_ext. exact folds_straighten.
Qed.

Lemma straighten_image c :
  straighten c = HYPHEN \/ straighten c = APOSTROPHE \/
  straighten c = QUOTE \/ straighten c = c.
Proof.
  unfold straighten.
  destruct (c =? BULLET)%N; [now left|].
  destruct ((c =? LSQUO) || (c =? RSQUO))%N; [now right; left|].
  destruct ((c =? LDQUO) || (c =? RDQUO))%N; [now right; right; left|].
  now right; right; right.
Qed.

Lemma straighten_idempotent c : straighten (straighten c) = straighten c.
Proof.
  destruct (straighten_image c) as [E|[E|[E|E]]]; rewrite E; try reflexivity.
  exact E.
Qed.

(** C10. The sanitizer is idempotent. It is a total function that maps
    the text unit by unit: the bullet to a hyphen, the curly single quotes
    to the straight one, the curly double quotes to the straight one, any
    other unit to itself. *)
Theorem sanitize_idempotent :
  forall x : jsstring,
    sanitize (sanitize x) = sanitize x /\ sanitize x = map straighten x.
Proof.
  intros x. split; [|apply sanitize_map].
  rewrite !sanitize_map, map_map. apply map_ext. exact straighten_idempotent.
Qed.

(* ===================================================================== *)
(** * Extractor *)
(* ===================================================================== *)

Lemma char_eqb_spec a b : reflect (a = b) (char_eqb a b).
Proof. apply N.eqb_spec. Qed.

Lemma last_index_spec c s :
  match last_index c s with
  | Some j => exists mid post, s = mid ++ c :: post /\ length mid = j /\ ~ In c post
  | None => ~ In c s
  end.
Proof.
  induction s as [|x t IH]; simpl.
  - tauto.
  - destruct (last_index c t) as [j|].
    + destruct IH as (mid & post & -> & <- & Hpost).
      exists (x :: mid), post. auto.
    + destruct (char_eqb_spec x c) as [->|Hne].
      * exists [], t. auto.
      * intros [H|H]; auto.
Qed.

Lemma last_index_none c s : ~ In c s -> last_index c s = None.
Proof.
  induction s as [|x s IH]; [reflexivity|]. intros H. cbn [last_index].
  rewrite IH by (intros K; apply H; now right).
  destruct (char_eqb_spec x c) as [->|]; [|reflexivity].
  exfalso. apply H. now left.
Qed.

Lemma last_index_last c (mid post : jsstring) :
  ~ In c post -> last_index c (mid ++ c :: post) = Some (length mid).
Proof.
  intros H. induction mid as [|x mid IH]; cbn [app last_index length].
  - rewrite (last_index_none _ _ H). destruct (char_eqb_spec c c); congruence.
  - now rewrite IH.
Qed.

Lemma firstn_through (mid : jsstring) c post :
  firstn (S (length mid)) (mid ++ c :: post) = mid ++ [c].
Proof.
  induction mid as [|x mid IH]; [reflexivity|].
  cbn [length app]. rewrite firstn_cons. now rewrite IH.
Qed.

(** What the pattern for the array matches at the current index. *)
Lemma re_array_spec s :
  match re_array s with
  | Some n => exists mid post,
      s = LBRACKET :: mid ++ RBRACKET :: post /\
      ~ In RBRACKET post /\ firstn n s = LBRACKET :: mid ++ [RBRACKET]
  | None => forall t, s = LBRACKET :: t -> ~ In RBRACKET t
  end.
Proof.
  destruct s as [|c t]; simpl.
  - discriminate.
  - destruct (char_eqb_spec c LBRACKET) as [->|Hne].
    + pose proof (last_index_spec RBRACKET t) as H.
      destruct (last_index RBRACKET t) as [j|].
      * destruct H as (mid & post & -> & <- & Hpost).
        exists mid, post. repeat split; auto.
        rewrite firstn_cons. now rewrite firstn_through.
      * intros t' [= <-]. exact H.
    + intros t' [= -> _]. contradiction.
Qed.

Lemma match_array_skip pre s :
  ~ In LBRACKET pre -> match_ re_array (pre ++ s) = match_ re_array s.
Proof.
  induction pre as [|c pre IH]; intros Hpre; [reflexivity|].
  cbn [app match_].
  assert (re_array (c :: pre ++ s) = None) as ->.
  { simpl. destruct (char_eqb_spec c LBRACKET) as [->|]; [|reflexivity].
    exfalso. apply Hpre. now left. }
  apply IH. intros H. apply Hpre. now right.
Qed.

Lemma first_opening a b c :
  exists pre rest,
    a ++ LBRACKET :: b ++ RBRACKET :: c = pre ++ LBRACKET :: rest /\
    ~ In LBRACKET pre /\ In RBRACKET rest.
Proof.
  induction a as [|x a IH].
  - exists [], (b ++ RBRACKET :: c). repeat split; auto.
    apply in_or_app. right. now left.
  - destruct (N.eq_dec x LBRACKET) as [->|Hne].
    + exists [], (a ++ LBRACKET :: b ++ RBRACKET :: c). repeat split; auto.
      apply in_or_app. right. right. apply in_or_app. right. now left.
    + destruct IH as (pre & rest & E & Hpre & Hrest).
      exists (x :: pre), rest. cbn [app]. rewrite E. repeat split; auto.
      intros [H|H]; auto.
Qed.

Lemma match_array_found s :
  contains_bracketed s ->
  exists pre mid post,
    s = pre ++ LBRACKET :: mid ++ RBRACKET :: post /\
    ~ In LBRACKET pre /\ ~ In RBRACKET post /\
    match_ re_array s = Some (LBRACKET :: mid ++ [RBRACKET]).
Proof.
  intros (a & b & c & ->).
  destruct (first_opening a b c) as (pre & rest & E & Hpre & Hin).
  rewrite E, match_array_skip by assumption.
  cbn [match_]. pose proof (re_array_spec (LBRACKET :: rest)) as H.
  destruct (re_array (LBRACKET :: rest)) as [n|].
  - destruct H as (mid & post & [= ->] & Hpost & Hfirst).
    exists pre, mid, post. rewrite Hfirst. auto.
  - exfalso. exact (H rest eq_refl Hin).
Qed.

Lemma match_array_none s :
  ~ contains_bracketed s -> match_ re_array s = None.
Proof.
  induction s as [|x t IH]; intros Hn.
  - reflexivity.
  - cbn [match_]. pose proof (re_array_spec (x :: t)) as H.
    destruct (re_array (x :: t)) as [n|].
    + exfalso. apply Hn. destruct H as (mid & post & E & _).
      exists [], mid, post. exact E.
    + apply IH. intros (a & b & c & ->). apply Hn.
      exists (x :: a), b, c. reflexivity.
Qed.

(** The search for the array decides whether the text is bracketed. *)
Lemma not_bracketed s : match_ re_array s = None -> ~ contains_bracketed s.
Proof.
  intros E H. destruct (match_array_found H) as (? & ? & ? & _ & _ & _ & E').
  congruence.
Qed.

(** C7. When the text left after the removal of the fence markers and the
    trim holds a bracketed part, the extractor returns exactly the part
    from the first opening bracket to the last closing bracket; the prose
    before and after is discarded. On the answer of the example, a fenced
    array between the words Sure! and Thanks, it returns the array alone. *)
Theorem extract_bracketed :
  (forall raw : jsstring,
     contains_bracketed (strip_fences raw) ->
     exists pre mid post,
       strip_fences raw = pre ++ LBRACKET :: mid ++ RBRACKET :: post /\
       ~ In LBRACKET pre /\ ~ In RBRACKET post /\
       extract raw = LBRACKET :: mid ++ [RBRACKET])
  /\ extract fenced_answer = str "[{" ++ quoted "a" ++ str ":1}]".
Proof.
  split; [|reflexivity].
  intros raw H. destruct (match_array_found H) as (pre & mid & post & E & A & B & M).
  exists pre, mid, post. unfold extract. rewrite M. auto.
Qed.

Lemma extract_bracketed_witness :
  exists pre mid post,
    strip_fences fenced_answer = pre ++ LBRACKET :: mid ++ RBRACKET :: post /\
    ~ In LBRACKET pre /\ ~ In RBRACKET post /\
    extract fenced_answer = LBRACKET :: mid ++ [RBRACKET].
Proof.
  apply (proj1 extract_bracketed fenced_answer).
  exists (str "Sure! " ++ [LF]), (str "{" ++ quoted "a" ++ str ":1}"),
    (LF :: str " Thanks").
  reflexivity.
Defined.


(* ===================================================================== *)
(** * Segmenter *)
(* ===================================================================== *)

Lemma interleave_cons c cs s ss :
  interleave (c :: cs) (s :: ss) = c ++ s ++ interleave cs ss.
Proof. reflexivity. Qed.

Lemma split_from_nil re cur : split_from re cur [] = [rev cur].
Proof. now simp split_from. Qed.

Lemma split_from_cons re cur c t :
  split_from re cur (c :: t) =
  match re (c :: t) with
  | Some (S k) => rev cur :: split_from re [] (skipn k t)
  | Some O => match cur with
              | [] => split_from re [c] t
              | _ :: _ => rev cur :: split_from re [c] t
              end
  | None => split_from re (c :: cur) t
  end.
Proof.
  simp split_from. destruct (re (c :: t)) as [[|k]|]; try reflexivity.
  simpl. destruct cur; reflexivity.
Qed.

Lemma trimStart_nil s : trimStart s = [] <-> blank s = true.
Proof.
  induction s as [|c t IH]; simpl; [tauto|].
  destruct (is_space c); simpl; [exact IH|]. split; discriminate.
Qed.

Lemma trimStart_blank s : blank (trimStart s) = blank s.
Proof.
  induction s as [|c t IH]; simpl; [reflexivity|].
  destruct (is_space c) eqn:E; simpl; [exact IH|]. now rewrite E.
Qed.

Lemma split_from_unmatched (re : matcher) s :
  forall cur, match_ re s = None -> split_from re cur s = [rev cur ++ s].
Proof.
  induction s as [|c t IH]; intros cur H.
  - rewrite split_from_nil, app_nil_r. reflexivity.
  - rewrite split_from_cons. cbn [match_] in H.
    destruct (re (c :: t)); [discriminate|].
    rewrite (IH (c :: cur) H). cbn [rev]. rewrite <- app_assoc. reflexivity.
Qed.

Lemma blank_rev s : blank (rev s) = blank s.
Proof.
  unfold blank. induction s as [|c t IH]; simpl; [reflexivity|].
  rewrite forallb_app, IH. simpl. rewrite andb_true_r. apply andb_comm.
Qed.

Lemma trim_nil s : trim s = [] <-> blank s = true.
Proof.
  unfold trim, trimEnd. split.
  - intros H. apply (f_equal (@rev char)) in H. rewrite rev_involutive in H.
    simpl in H. apply trimStart_nil in H.
    rewrite blank_rev, trimStart_blank in H. exact H.
  - intros H. apply trimStart_nil in H. rewrite H. reflexivity.
Qed.

Lemma trim_length_blank q : (0 <? length (trim q))%nat = negb (blank q).
Proof.
  destruct (blank q) eqn:B.
  - apply trim_nil in B. rewrite B. reflexivity.
  - destruct (trim q) eqn:T; [|reflexivity].
    apply trim_nil in T. congruence.
Qed.

Lemma take_spaces_app ws x :
  blank ws = true -> take_spaces (ws ++ x) = ws ++ take_spaces x.
Proof.
  induction ws as [|c ws IH]; simpl; [reflexivity|].
  destruct (is_space c); simpl; [|discriminate]. intros H. now rewrite IH.
Qed.

Lemma take_spaces_split t :
  exists rest, t = take_spaces t ++ rest /\ blank (take_spaces t) = true /\
               take_spaces rest = [].
Proof.
  induction t as [|c t (rest & E & B & M)]; simpl.
  - exists []. auto.
  - destruct (is_space c) eqn:S.
    + exists rest. simpl. rewrite S. split; [now f_equal|auto].
    + exists (c :: t). simpl. rewrite S. auto.
Qed.

Lemma blank_app a b : blank (a ++ b) = blank a && blank b.
Proof. apply forallb_app. Qed.

(** What the pattern for the blank lines matches at the current index:
    the run up to the last line feed of the white space that follows. *)
Lemma re_blank_lines_some s n :
  re_blank_lines s = Some n ->
  exists ws rest, s = LF :: ws ++ LF :: rest /\ blank ws = true /\
                  n = S (S (length ws)) /\ starts_clean rest.
Proof.
  destruct s as [|c t]; simpl; [discriminate|].
  destruct (char_eqb_spec c LF) as [->|]; [|discriminate].
  pose proof (last_index_spec LF (take_spaces t)) as H.
  destruct (last_index LF (take_spaces t)) as [j|]; [|discriminate].
  intros [= <-]. destruct H as (mid & post & E & <- & Hpost).
  destruct (take_spaces_split t) as (rest & Et & B & M).
  rewrite E, blank_app in B. apply andb_true_iff in B. destruct B as [Bm Bp].
  cbn [blank forallb] in Bp. apply andb_true_iff in Bp. destruct Bp as [_ Bp].
  exists mid, (post ++ rest). repeat split.
  - rewrite Et at 1. rewrite E. rewrite <- app_assoc. reflexivity.
  - exact Bm.
  - intros ws' r' Er. destruct (blank ws') eqn:Bw; [|reflexivity]. exfalso.
    apply (f_equal take_spaces) in Er.
    rewrite !take_spaces_app, M, app_nil_r in Er by assumption.
    apply Hpost. rewrite Er. apply in_or_app. right. now left.
Qed.

Lemma re_blank_lines_none s :
  re_blank_lines s = None ->
  forall ws rest, s = LF :: ws ++ LF :: rest -> blank ws = false.
Proof.
  intros H ws rest ->. destruct (blank ws) eqn:B; [|reflexivity]. exfalso.
  simpl in H. 
  rewrite take_spaces_app in H by assumption.
  pose proof (last_index_spec LF (ws ++ take_spaces (LF :: rest))) as L.
  destruct (last_index LF (ws ++ take_spaces (LF :: rest))); [discriminate|].
  apply L. apply in_or_app. right. simpl. now left.
Qed.

Lemma re_blank_lines_prefix a b :
  re_blank_lines (a ++ b) = None -> re_blank_lines a = None.
Proof.
  intros H. destruct (re_blank_lines a) as [n|] eqn:E; [|reflexivity].
  destruct (re_blank_lines_some _ E) as (ws & rest & -> & B & _).
  pose proof (re_blank_lines_none H ws (rest ++ b)) as F.
  rewrite F in B; [discriminate|].
  cbn [app]. rewrite <- app_assoc. reflexivity.
Qed.

Lemma no_run_free chunk :
  no_run_starts chunk [] -> free_of_blank_lines chunk.
Proof.
  intros H a sep b -> (ws & -> & B).
  assert (re_blank_lines (((LF :: ws ++ [LF]) ++ b) ++ []) = None) as E.
  { apply (H a); [reflexivity|discriminate]. }
  rewrite app_nil_r in E.
  pose proof (re_blank_lines_none E ws b) as F.
  rewrite F in B; [discriminate|].
  cbn [app]. rewrite <- app_assoc. reflexivity.
Qed.

Lemma no_run_starts_weaken pre s :
  no_run_starts pre s -> no_run_starts pre [].
Proof.
  intros H a b E Hb. rewrite app_nil_r.
  apply re_blank_lines_prefix with (b := s). now apply (H a).
Qed.

Lemma no_run_starts_snoc pre c t :
  no_run_starts pre (c :: t) -> re_blank_lines (c :: t) = None ->
  no_run_starts (pre ++ [c]) t.
Proof.
  intros H Hc a b E Hb.
  destruct (@exists_last _ b Hb) as (b' & x & ->).
  rewrite app_assoc in E. apply app_inj_tail in E. destruct E as (E & <-).
  rewrite <- app_assoc. cbn [app].
  destruct b' as [|y b'].
  - exact Hc.
  - apply (H a); [exact E|discriminate].
Qed.

Lemma interleave_prefix c cs seps : exists x, interleave (c :: cs) seps = c ++ x.
Proof.
  destruct seps as [|s ss]; simpl.
  - exists []. now rewrite app_nil_r.
  - eauto.
Qed.

Lemma split_from_spec n :
  forall s cur, (length s <= n)%nat ->
    no_run_starts (rev cur) s ->
    let chunks := split_from re_blank_lines cur s in
    (exists seps, length chunks = S (length seps) /\
                  interleave chunks seps = rev cur ++ s /\
                  Forall blank_line_run seps) /\
    Forall free_of_blank_lines chunks /\
    Forall starts_clean (tl chunks).
Proof.
  induction n as [|n IH]; intros s cur Hlen Hcur.
  - destruct s; [|simpl in Hlen; lia].
    rewrite split_from_nil. cbn zeta. split; [|split].
    + exists []. rewrite app_nil_r. auto.
    + constructor; [|constructor]. now apply no_run_free.
    + constructor.
  - destruct s as [|c t].
    { rewrite split_from_nil. cbn zeta. split; [|split].
      + exists []. rewrite app_nil_r. auto.
      + constructor; [|constructor]. now apply no_run_free.
      + constructor. }
    rewrite split_from_cons. cbn zeta.
    destruct (re_blank_lines (c :: t)) as [m|] eqn:E.
    + destruct (re_blank_lines_some _ E) as (ws & rest & Es & B & -> & Hclean).
      injection Es as -> ->.
      assert (skipn (S (length ws)) (ws ++ LF :: rest) = rest) as Sk.
      { change (LF :: rest) with ([LF] ++ rest). rewrite app_assoc.
        replace (S (length ws)) with (length (ws ++ [LF]))
          by (rewrite length_app; simpl; lia).
        rewrite skipn_app, skipn_all, Nat.sub_diag. reflexivity. }
      rewrite Sk.
      destruct (IH rest []) as ((seps & L & I & F) & G & K).
      { simpl in Hlen. rewrite length_app in Hlen. simpl in Hlen. lia. }
      { intros a b Ea. destruct a; destruct b; try discriminate. congruence. }
      split; [|split].
      * exists ((LF :: ws ++ [LF]) :: seps). split; [|split].
        -- simpl. now rewrite L.
        -- revert L I.
           destruct (split_from re_blank_lines [] rest) as [|ch chs];
             intros L I; [simpl in L; lia|].
           rewrite interleave_cons, I. cbn [rev app].
           rewrite <- !app_assoc. reflexivity.
        -- constructor; [|exact F]. exists ws. auto.
      * constructor; [|exact G].
        apply no_run_free. eapply no_run_starts_weaken. exact Hcur.
      * cbn [tl]. revert L I K.
        destruct (split_from re_blank_lines [] rest) as [|ch chs];
          intros L I K; [constructor|].
        constructor; [|exact K].
        destruct (interleave_prefix ch chs seps) as (x & Ex).
        rewrite Ex in I. cbn [rev app] in I.
        intros ws' r' ->. apply (Hclean ws' (r' ++ x)).
        rewrite <- I. rewrite <- app_assoc. reflexivity.
    + destruct (IH t (c :: cur)) as ((seps & L & I & F) & G & K).
      { simpl in Hlen. lia. }
      { cbn [rev]. now apply no_run_starts_snoc. }
      split; [|split; [exact G|exact K]].
      exists seps. split; [exact L|]. split; [|exact F].
      rewrite I. cbn [rev]. rewrite <- app_assoc. reflexivity.
Qed.

Lemma take_spaces_clean rest : starts_clean rest -> ~ In LF (take_spaces rest).
Proof.
  intros H K. destruct (take_spaces_split rest) as (r & E & B & _).
  apply in_split in K. destruct K as (w1 & w2 & K).
  rewrite K, blank_app in B. apply andb_true_iff in B. destruct B as [B1 _].
  rewrite (H w1 (w2 ++ r)) in B1; [discriminate|].
  rewrite E at 1. rewrite K, <- app_assoc. reflexivity.
Qed.

(** The pattern on a run that nothing after it prolongs: the whole run. *)
Lemma re_blank_lines_run ws rest :
  blank ws = true -> starts_clean rest ->
  re_blank_lines (LF :: ws ++ LF :: rest) = Some (S (S (length ws))).
Proof.
  intros B H. cbn [re_blank_lines].
  destruct (char_eqb_spec LF LF) as [_|]; [|congruence].
  rewrite take_spaces_app by assumption.
  assert (take_spaces (LF :: rest) = LF :: take_spaces rest) as -> by reflexivity.
  rewrite last_index_last by now apply take_spaces_clean.
  reflexivity.
Qed.

(** No match starts inside a chunk that is free of runs and does not end
    in a line feed followed by white space only. *)
Lemma no_run_starts_clean chunk sep rest :
  free_of_blank_lines chunk -> ends_clean chunk -> blank_line_run sep ->
  no_run_starts chunk (sep ++ rest).
Proof.
  intros F C (ws & -> & B) a b -> Hb.
  destruct (re_blank_lines (b ++ (LF :: ws ++ [LF]) ++ rest)) as [n|] eqn:E;
    [exfalso|reflexivity].
  destruct (re_blank_lines_some _ E) as (ws1 & rest1 & Es & B1 & _ & _).
  destruct b as [|x b]; [congruence|]. cbn [app] in Es.
  injection Es as -> Es.
  apply app_eq_app in Es. destruct Es as (l & [(E1 & E2)|(E1 & E2)]).
  - (* the white space ends inside the chunk *)
    destruct l as [|y l].
    + rewrite app_nil_r in E1. subst b.
      rewrite (C a ws1 eq_refl) in B1. discriminate.
    + injection E2 as <- E2. subst b.
      apply (F a (LF :: ws1 ++ [LF]) l).
      * cbn [app]. rewrite <- !app_assoc. reflexivity.
      * exists ws1. auto.
  - (* the white space covers the rest of the chunk *)
    subst ws1. rewrite blank_app in B1. apply andb_true_iff in B1.
    rewrite (C a b eq_refl) in B1. destruct B1. discriminate.
Qed.

Lemma split_from_skip chunk :
  forall tail cur, no_run_starts chunk tail ->
    split_from re_blank_lines cur (chunk ++ tail)
    = split_from re_blank_lines (rev chunk ++ cur) tail.
Proof.
  induction chunk as [|x chunk IH]; intros tail cur H; [reflexivity|].
  cbn [app]. rewrite split_from_cons.
  change (x :: chunk ++ tail) with ((x :: chunk) ++ tail).
  rewrite (H [] (x :: chunk) eq_refl) by discriminate.
  rewrite IH.
  - cbn [rev]. rewrite <- app_assoc. reflexivity.
  - intros a b -> Hb. apply (H (x :: a)); [reflexivity|exact Hb].
Qed.

Lemma free_unmatched chunk :
  free_of_blank_lines chunk -> match_ re_blank_lines chunk = None.
Proof.
  induction chunk as [|c t IH]; intros F; [reflexivity|].
  cbn [match_].
  destruct (re_blank_lines (c :: t)) as [m|] eqn:Em.
  - exfalso.
    destruct (re_blank_lines_some _ Em) as (ws & rest & Es & B & _ & _).
    apply (F [] (LF :: ws ++ [LF]) rest).
    + rewrite Es. cbn [app]. rewrite <- app_assoc. reflexivity.
    + exists ws. auto.
  - apply IH.
    intros a sep b -> R. apply (F (c :: a) sep b); [reflexivity|exact R].
Qed.

(** A segmentation at the blank-line runs is the one the split computes. *)
Lemma segmented_split text chunks seps :
  segmented text chunks seps -> split_from re_blank_lines [] text = chunks.
Proof.
  induction 1 as [chunk F|chunk sep rest chunks seps F C R Hs _ IH].
  - now rewrite (@split_from_unmatched _ _ [] (free_unmatched F)).
  - rewrite split_from_skip by now apply no_run_starts_clean.
    destruct R as (ws & -> & B). rewrite app_nil_r.
    cbn [app]. rewrite <- app_assoc. cbn [app].
    rewrite split_from_cons, (re_blank_lines_run _ B Hs).
    rewrite rev_involutive. f_equal.
    replace (skipn (S (length ws)) (ws ++ LF :: rest)) with rest; [exact IH|].
    change (LF :: rest) with ([LF] ++ rest). rewrite app_assoc.
    replace (S (length ws)) with (length (ws ++ [LF]))
      by (rewrite length_app; simpl; lia).
    rewrite skipn_app, skipn_all, Nat.sub_diag. reflexivity.
Qed.

Lemma no_run_ends_clean pre ws rest :
  blank ws = true -> no_run_starts pre (LF :: ws ++ LF :: rest) ->
  ends_clean pre.
Proof.
  intros B H a ws' ->. destruct (blank ws') eqn:B'; [exfalso|reflexivity].
  pose proof (H a (LF :: ws') eq_refl) as E.
  assert (re_blank_lines ((LF :: ws') ++ LF :: ws ++ LF :: rest) = None) as E'
    by (apply E; discriminate).
  pose proof (re_blank_lines_none E' ws' (ws ++ LF :: rest) eq_refl).
  congruence.
Qed.

(** In a segmentation every chunk that a separator follows ends clean. *)
Lemma segmented_ends_clean text chunks seps :
  segmented text chunks seps -> Forall ends_clean (removelast chunks).
Proof.
  induction 1 as [chunk F|chunk sep rest chunks seps F C R Hs G IH].
  - constructor.
  - destruct G; cbn [removelast] in *; constructor; assumption.
Qed.

(** What the split computes is a segmentation at the blank-line runs. *)
Lemma split_from_segmented n :
  forall s cur, (length s <= n)%nat ->
    no_run_starts (rev cur) s ->
    exists seps, segmented (rev cur ++ s) (split_from re_blank_lines cur s) seps.
Proof.
  induction n as [|n IH]; intros s cur Hlen Hcur.
  - destruct s; [|simpl in Hlen; lia].
    rewrite split_from_nil, app_nil_r. exists [].
    constructor. now apply no_run_free.
  - destruct s as [|c t].
    { rewrite split_from_nil, app_nil_r. exists [].
      constructor. now apply no_run_free. }
    rewrite split_from_cons.
    destruct (re_blank_lines (c :: t)) as [m|] eqn:E.
    + destruct (re_blank_lines_some _ E) as (ws & rest & Es & B & -> & Hclean).
      injection Es as -> ->.
      assert (skipn (S (length ws)) (ws ++ LF :: rest) = rest) as Sk.
      { change (LF :: rest) with ([LF] ++ rest). rewrite app_assoc.
        replace (S (length ws)) with (length (ws ++ [LF]))
          by (rewrite length_app; simpl; lia).
        rewrite skipn_app, skipn_all, Nat.sub_diag. reflexivity. }
      rewrite Sk.
      destruct (IH rest []) as (seps & G).
      { simpl in Hlen. rewrite length_app in Hlen. simpl in Hlen. lia. }
      { intros a b Ea. destruct a; destruct b; try discriminate. congruence. }
      exists ((LF :: ws ++ [LF]) :: seps).
      replace (rev cur ++ LF :: ws ++ LF :: rest)
        with (rev cur ++ (LF :: ws ++ [LF]) ++ rest)
        by (cbn [app]; now rewrite <- app_assoc).
      constructor.
      * apply no_run_free. eapply no_run_starts_weaken. exact Hcur.
      * eapply no_run_ends_clean; eassumption.
      * exists ws. auto.
      * exact Hclean.
      * exact G.
    + destruct (IH t (c :: cur)) as (seps & G).
      { simpl in Hlen. lia. }
      { cbn [rev]. now apply no_run_starts_snoc. }
      exists seps. cbn [rev] in G. rewrite <- app_assoc in G. exact G.
Qed.

Lemma split_blank_lines text :
  split re_blank_lines text = split_from re_blank_lines [] text.
Proof. destruct text; reflexivity. Qed.

Lemma is_space_straighten c : is_space (straighten c) = is_space c.
Proof.
  unfold straighten.
  destruct (N.eqb_spec c BULLET) as [->|]; [reflexivity|].
  destruct (N.eqb_spec c LSQUO) as [->|]; [reflexivity|].
  destruct (N.eqb_spec c RSQUO) as [->|]; [reflexivity|].
  destruct (N.eqb_spec c LDQUO) as [->|]; [reflexivity|].
  destruct (N.eqb_spec c RDQUO) as [->|]; [reflexivity|].
  reflexivity.
Qed.

Lemma blank_sanitize q : blank (sanitize q) = blank q.
Proof.
  rewrite sanitize_map. unfold blank.
  induction q as [|c q IH]; [reflexivity|].
  cbn [map forallb]. now rewrite is_space_straighten, IH.
Qed.

Lemma filter_sanitized cs :
  filter (fun q => (0 <? length (trim q))%nat) (map sanitize cs)
  = map sanitize (filter (fun c => negb (blank c)) cs).
Proof.
  induction cs as [|c cs IH]; [reflexivity|].
  cbn [map filter]. rewrite trim_length_blank, blank_sanitize.
  destruct (blank c); cbn [negb map]; now rewrite IH.
Qed.

(** C4, as stated, fails on the trimming: the chunks are returned with
    the white space around them. *)
Lemma questions_not_trimmed :
  questions (str "  What is 2+2? " ++ [LF; LF] ++ str "Explain osmosis.  ")
  = [str "  What is 2+2? "; str "Explain osmosis.  "] /\
  trim (str "  What is 2+2? ") <> str "  What is 2+2? ".
Proof. split; [reflexivity|discriminate]. Qed.

(** A cut has to be the first one possible: in [a], line feed, space, line
    feed, line feed, [b] the run starts at the first line feed, and the
    chunks [a], line feed, space and [b] around the last two line feeds are
    no segmentation. *)
Lemma cut_is_leftmost :
  split re_blank_lines (str "a" ++ [LF; 32%N; LF; LF] ++ str "b")
  = [str "a"; str "b"] /\
  ~ segmented (str "a" ++ [LF; 32%N; LF; LF] ++ str "b")
      [str "a" ++ [LF; 32%N]; str "b"] [[LF; LF]].
Proof.
  split; [reflexivity|].
  intros H. apply segmented_split in H. vm_compute in H. discriminate.
Qed.

(** C4, amended. For every text the segmenter cuts at the runs of one or
    more blank lines (a line feed, white space, a line feed; a line of white
    space only separates): the chunks put back between such runs give the
    text and no chunk holds such a run. Every run is taken from the first
    line feed that opens one, so that the chunk before it does not end in a
    line feed followed by white space only, up to the last line feed that
    closes one, so that what follows it has no line feed in its leading
    white space; the chunks are the only segmentation of the text of that
    kind. The segmenter returns, in their order, the chunks that are not
    white space only, each with the bullets and curly quotes replaced and
    with its surrounding white space kept (the chunks are not trimmed). No
    question returned is empty or white space only. *)
Theorem questions_spec :
  forall text : jsstring,
    let chunks := split re_blank_lines text in
    (exists seps, length chunks = S (length seps) /\
                  interleave chunks seps = text /\
                  Forall blank_line_run seps) /\
    Forall free_of_blank_lines chunks /\
    Forall starts_clean (tl chunks) /\
    Forall ends_clean (removelast chunks) /\
    (exists seps, segmented text chunks seps) /\
    (forall chunks' seps', segmented text chunks' seps' -> chunks' = chunks) /\
    questions text = map sanitize (filter (fun c => negb (blank c)) chunks) /\
    (forall q, In q (questions text) ->
               q <> [] /\ blank q = false /\ trim q <> []).
Proof.
  intros text. cbn zeta. rewrite split_blank_lines.
  assert (N : no_run_starts (rev []) text).
  { intros a b Ea. destruct a; destruct b; try discriminate. congruence. }
  destruct (@split_from_spec (length text) text [] (le_n _) N) as (A & B & C).
  destruct (@split_from_segmented (length text) text [] (le_n _) N) as (seps & D).
  assert (Q : questions text =
              map sanitize (filter (fun c => negb (blank c))
                              (split_from re_blank_lines [] text))).
  { unfold questions. rewrite split_blank_lines. apply filter_sanitized. }
  split; [exact A|]. split; [exact B|]. split; [exact C|].
  split; [exact (segmented_ends_clean D)|].
  split; [exists seps; exact D|].
  split; [intros chunks' seps' H; symmetry; exact (segmented_split H)|].
  split; [exact Q|]. intros q H.
  rewrite Q in H. apply in_map_iff in H. destruct H as (c & <- & Hc).
  apply filter_In in Hc. destruct Hc as (_ & Hb).
  apply negb_true_iff in Hb. rewrite <- blank_sanitize in Hb.
  split; [|split].
  - intros E. rewrite E in Hb. discriminate.
  - exact Hb.
  - intros E. apply trim_nil in E. congruence.
Qed.

(* ===================================================================== *)
(** * Numbers: what the rounding to binary64 keeps *)
(* ===================================================================== *)

Lemma pow2_pos j : 0 < pow2 j.
Proof. apply Qpower_0_lt. reflexivity. Qed.

Lemma pow2_plus a b : pow2 (a + b) == pow2 a * pow2 b.
Proof. apply Qpower_plus. discriminate. Qed.

Lemma pow2_nonneg_Z j : (0 <= j)%Z -> pow2 j == inject_Z (2 ^ j).
Proof. intros H. unfold pow2. symmetry. now apply Zpower_Qpower. Qed.

Lemma pow2_opp j : pow2 (- j) == / pow2 j.
Proof. apply Qpower_opp. Qed.

Lemma pow2_lt_inv a b : pow2 a < pow2 b -> (a < b)%Z.
Proof.
  intros H. destruct (Z_lt_le_dec a b) as [|Hle]; [assumption|].
  exfalso. apply (Qlt_not_le _ _ H).
  apply Qpower_le_compat_l; [exact Hle|]. discriminate.
Qed.

(** Division by a power of two with exponent at most 0 is a product by an
    integer. *)
Lemma div_pow2 q j : (j <= 0)%Z -> q / pow2 j == q * inject_Z (2 ^ (- j)).
Proof.
  intros H. unfold Qdiv. rewrite <- pow2_opp. rewrite pow2_nonneg_Z by lia.
  reflexivity.
Qed.

Lemma mul_pow2 q j : (j <= 0)%Z -> q * pow2 j == q / inject_Z (2 ^ (- j)).
Proof.
  intros H. unfold Qdiv. rewrite <- (pow2_nonneg_Z (j := - j)) by lia.
  rewrite <- pow2_opp. now rewrite Z.opp_involutive.
Qed.

Lemma Zlog2_pow2_le a : (0 < a)%Z -> pow2 (Z.log2 a) <= inject_Z a.
Proof.
  intros H. rewrite pow2_nonneg_Z by apply Z.log2_nonneg.
  rewrite <- Zle_Qle. apply Z.log2_spec. exact H.
Qed.

Lemma Zlog2_pow2_lt a : (0 < a)%Z -> inject_Z a < pow2 (Z.log2 a + 1).
Proof.
  intros H. rewrite pow2_nonneg_Z by (pose proof (Z.log2_nonneg a); lia).
  rewrite <- Zlt_Qlt. apply Z.log2_spec. exact H.
Qed.

Lemma Qabs_num_den q : Qabs q == inject_Z (Z.abs (Qnum q)) / inject_Z (Zpos (Qden q)).
Proof.
  destruct q as [n d]. unfold Qabs. cbn [Qnum Qden].
  unfold Qeq, Qdiv, Qmult, Qinv, inject_Z. simpl. lia.
Qed.

(** The exponent found is not above the one of [q]. *)
Lemma Qlog2_le q : ~ q == 0 -> pow2 (Qlog2 q) <= Qabs q.
Proof.
  intros Hq. unfold Qlog2.
  set (a := Z.abs (Qnum q)). set (b := Zpos (Qden q)).
  destruct (Qle_bool (pow2 (Z.log2 a - Z.log2 b)) (Qabs q)) eqn:E.
  - now apply Qle_bool_iff.
  - assert (Ha : (0 < a)%Z).
    { subst a. destruct q as [n d]. unfold Qeq in Hq. simpl in *. lia. }
    assert (Hb : (0 < b)%Z) by (subst b; lia).
    rewrite Qabs_num_den. fold a b.
    replace (Z.log2 a - Z.log2 b - 1)%Z with (Z.log2 a + - (Z.log2 b + 1))%Z by lia.
    rewrite pow2_plus, pow2_opp.
    pose proof (Zlog2_pow2_le Ha) as La. pose proof (Zlog2_pow2_lt Hb) as Lb.
    pose proof (pow2_pos (Z.log2 a)) as Pa.
    pose proof (pow2_pos (Z.log2 b + 1)) as Pb.
    assert (Qb : 0 < inject_Z b) by (rewrite Zlt_Qlt in Hb; exact Hb).
    unfold Qdiv.
    apply Qle_trans with (inject_Z a * / pow2 (Z.log2 b + 1)).
    + apply Qmult_le_compat_r; [exact La|]. apply Qlt_le_weak, Qinv_lt_0_compat, Pb.
    + apply Qmult_le_l.
      * rewrite Zlt_Qlt in Ha. exact Ha.
      * apply Qlt_le_weak. apply -> Qinv_lt_contravar; assumption.
Qed.

Lemma round_even_near y :
  y - (1 # 2) <= inject_Z (round_even y) /\ inject_Z (round_even y) <= y + (1 # 2).
Proof.
  unfold round_even.
  pose proof (Qfloor_le y) as L. pose proof (Qlt_floor y) as U.
  rewrite inject_Z_plus in U. change (inject_Z 1) with 1 in U.
  destruct (Qcompare_spec (y - inject_Z (Qfloor y)) (1 # 2)) as [E|E|E].
  - destruct (Z.even (Qfloor y)); rewrite ?inject_Z_plus;
      change (inject_Z 1) with 1; split; lra.
  - split; lra.
  - rewrite inject_Z_plus. change (inject_Z 1) with 1. split; lra.
Qed.

Lemma round_even_Z y z : y == inject_Z z -> round_even y = z.
Proof.
  intros E. unfold round_even. rewrite (Qfloor_comp _ _ E), Qfloor_Z.
  destruct (Qcompare_spec (y - inject_Z z) (1 # 2)) as [H|H|H];
    [exfalso; lra|reflexivity|exfalso; lra].
Qed.

Lemma Qred_inject_Z z : Qred (inject_Z z) = inject_Z z.
Proof.
  unfold inject_Z. apply Qcanon.Qred_identity. simpl. apply Z.gcd_1_r.
Qed.

Lemma Qabs_inject_Z z : Qabs (inject_Z z) == inject_Z (Z.abs z).
Proof. unfold Qabs, inject_Z. reflexivity. Qed.

Lemma pow2_53_1024 : pow2 53 <= pow2 1024.
Proof. apply Qpower_le_compat_l; [lia|discriminate]. Qed.

Lemma pow2_unit j : (j <= 0)%Z -> inject_Z (2 ^ (- j)) * pow2 j == 1.
Proof.
  intros H. rewrite <- pow2_nonneg_Z by lia. rewrite <- pow2_plus.
  replace (- j + j)%Z with 0%Z by lia. reflexivity.
Qed.

Lemma inject_Z_minus a b : inject_Z (a - b) == inject_Z a - inject_Z b.
Proof. unfold Z.sub, Qminus. now rewrite inject_Z_plus, inject_Z_opp. Qed.

Lemma Qdiv_cancel b c : 0 < c -> b / c * c == b.
Proof. intros H. field. lra. Qed.

Lemma Qle_div_mult a b c : 0 < c -> a <= b / c -> a * c <= b.
Proof.
  intros H L. rewrite <- (Qdiv_cancel b H). now apply Qmult_le_r.
Qed.

Lemma Qdiv_le_mult a b c : 0 < c -> b / c <= a -> b <= a * c.
Proof.
  intros H L. rewrite <- (Qdiv_cancel b H). now apply Qmult_le_r.
Qed.

Lemma Qdiv_lt_mult a b c : 0 < c -> b / c < a -> b < a * c.
Proof.
  intros H L. rewrite <- (Qdiv_cancel b H). now apply Qmult_lt_r.
Qed.

(** An integer below [2^53] in absolute value is a binary64 value. *)
Lemma binary64_integer q z :
  q == inject_Z z -> (Z.abs z < 2 ^ 53)%Z -> binary64 q = Num (inject_Z z).
Proof.
  intros E B. unfold binary64.
  destruct (Qeq_bool q 0) eqn:Z0.
  { apply Qeq_bool_iff in Z0. rewrite E in Z0.
    assert (z = 0%Z) as -> by (unfold Qeq in Z0; simpl in Z0; lia). reflexivity. }
  apply Qeq_bool_neq in Z0.
  set (j := Z.max (Qlog2 q - 52) (-1074)).
  assert (Hj : (j <= 0)%Z).
  { pose proof (Qlog2_le Z0) as L.
    assert (Qabs q == inject_Z (Z.abs z)) as Aq
      by (rewrite <- Qabs_inject_Z; apply Qabs_wd; exact E).
    rewrite Aq in L.
    assert (pow2 (Qlog2 q) < pow2 53) as P.
    { eapply Qle_lt_trans; [exact L|]. rewrite (pow2_nonneg_Z (j := 53)) by lia.
      rewrite <- Zlt_Qlt. exact B. }
    apply pow2_lt_inv in P. subst j. lia. }
  assert (Y : q / pow2 j == inject_Z (z * 2 ^ (- j))).
  { rewrite div_pow2 by exact Hj. rewrite E, inject_Z_mult. reflexivity. }
  rewrite (round_even_Z Y).
  assert (R : inject_Z (z * 2 ^ (- j)) * pow2 j == inject_Z z).
  { rewrite inject_Z_mult, <- Qmult_assoc, pow2_unit by exact Hj. ring. }
  destruct (Qle_bool (pow2 1024) (Qabs (inject_Z (z * 2 ^ (- j)) * pow2 j))) eqn:O.
  { exfalso. apply Qle_bool_iff in O. rewrite R, Qabs_inject_Z in O.
    apply (Qlt_not_le (inject_Z (Z.abs z)) (pow2 1024)); [|exact O].
    eapply Qlt_le_trans; [|apply pow2_53_1024].
    rewrite (pow2_nonneg_Z (j := 53)) by lia. rewrite <- Zlt_Qlt. exact B. }
  f_equal. rewrite (Qred_complete _ _ R). apply Qred_inject_Z.
Qed.

(** Rounding a quotient of integers to binary64 does not move it across a
    half-integer: [Math.round] of the rounded quotient is [Math.round] of
    the exact one. *)
Lemma binary64_quotient s n :
  (0 < n < 2 ^ 32)%Z -> (Z.abs s < 2 ^ 52)%Z ->
  exists x, binary64 (inject_Z s / inject_Z n) = Num x /\
            Qfloor (x + (1 # 2)) = Qfloor (inject_Z s / inject_Z n + (1 # 2)).
Proof.
  intros Hn Hs. unfold binary64.
  set (q := inject_Z s / inject_Z n).
  assert (Qn : 0 < inject_Z n)
    by (change 0 with (inject_Z 0); rewrite <- Zlt_Qlt; lia).
  destruct (Qeq_bool q 0) eqn:Z0.
  { apply Qeq_bool_iff in Z0. exists 0. split; [reflexivity|].
    apply Qfloor_comp. rewrite Z0. reflexivity. }
  apply Qeq_bool_neq in Z0.
  set (j := Z.max (Qlog2 q - 52) (-1074)).
  (* the quotient in absolute value *)
  assert (Aq : Qabs q == inject_Z (Z.abs s) / inject_Z n).
  { subst q. unfold Qdiv. rewrite Qabs_Qmult, Qabs_inject_Z.
    rewrite (Qabs_pos (/ inject_Z n)); [reflexivity|].
    apply Qlt_le_weak, Qinv_lt_0_compat, Qn. }
  assert (Bq : Qabs q < pow2 52).
  { rewrite Aq. apply Qlt_shift_div_r; [exact Qn|].
    apply Qlt_le_trans with (pow2 52 * 1).
    - rewrite Qmult_1_r, (pow2_nonneg_Z (j := 52)) by lia.
      rewrite <- Zlt_Qlt. exact Hs.
    - apply Qmult_le_l; [apply pow2_pos|].
      change 1 with (inject_Z 1). rewrite <- Zle_Qle. lia. }
  assert (Hj : (j <= -1)%Z).
  { pose proof (Qlog2_le Z0) as L.
    assert (pow2 (Qlog2 q) < pow2 52) as P by (eapply Qle_lt_trans; eauto).
    apply pow2_lt_inv in P. subst j. lia. }
  set (U := (2 ^ (- j - 1))%Z).
  assert (HU : (1 <= U)%Z).
  { pose proof (Z.pow_pos_nonneg 2 (- j - 1)) as P. subst U. lia. }
  assert (HU2 : (2 ^ (- j) = 2 * U)%Z).
  { subst U. replace (- j)%Z with (1 + (- j - 1))%Z at 1 by lia.
    rewrite Z.pow_add_r by lia. reflexivity. }
  (* the unit of the rounding is below 1/n *)
  assert (Hu : (n < 2 * U)%Z).
  { rewrite <- HU2. rewrite Zlt_Qlt, <- pow2_nonneg_Z by lia.
    destruct (Z.max_spec (Qlog2 q - 52) (-1074)) as [[_ Ej]|[_ Ej]]; fold j in Ej.
    - rewrite Ej. apply Qlt_le_trans with (pow2 32).
      + rewrite (pow2_nonneg_Z (j := 32)) by lia. rewrite <- Zlt_Qlt. lia.
      + apply Qpower_le_compat_l; [lia|discriminate].
    - (* 2^j <= |q| 2^-52 < 1/n *)
      pose proof (Qlog2_le Z0) as L. rewrite Aq in L.
      assert (s <> 0%Z) as Hs0.
      { intros ->. apply Z0. subst q. unfold Qdiv. ring. }
      rewrite Ej. replace (- (Qlog2 q - 52))%Z with (52 + - Qlog2 q)%Z by lia.
      rewrite pow2_plus, pow2_opp.
      apply Qlt_shift_div_l; [apply pow2_pos|].
      apply Qle_lt_trans with (inject_Z n * (inject_Z (Z.abs s) / inject_Z n)).
      + apply Qmult_le_l; [exact Qn|exact L].
      + setoid_replace (inject_Z n * (inject_Z (Z.abs s) / inject_Z n))
          with (inject_Z (Z.abs s)) by (field; lra).
        rewrite (pow2_nonneg_Z (j := 52)) by lia. rewrite <- Zlt_Qlt. exact Hs. }
  set (k := Qfloor (q + (1 # 2))).
  set (m := round_even (q / pow2 j)).
  (* the facts, over the integers *)
  assert (Fk : (2 * k * n <= 2 * s + n < 2 * (k + 1) * n)%Z).
  { pose proof (Qfloor_le (q + (1 # 2))) as L.
    pose proof (Qlt_floor (q + (1 # 2))) as V. fold k in L, V.
    assert (E : q + (1 # 2) == inject_Z (2 * s + n) / inject_Z (2 * n)).
    { subst q. rewrite !inject_Z_plus, !inject_Z_mult. field. lra. }
    rewrite E in L, V.
    assert (Q2n : 0 < inject_Z (2 * n))
      by (change 0 with (inject_Z 0); rewrite <- Zlt_Qlt; lia).
    apply Qle_div_mult in L; [|exact Q2n].
    apply Qdiv_lt_mult in V; [|exact Q2n].
    rewrite <- inject_Z_mult in L, V. rewrite <- Zle_Qle in L. rewrite <- Zlt_Qlt in V.
    lia. }
  assert (Fm : (2 * (2 * s * U) - n <= 2 * m * n <= 2 * (2 * s * U) + n)%Z).
  { destruct (round_even_near (q / pow2 j)) as [L V]. fold m in L, V.
    assert (E : q / pow2 j == inject_Z (2 * s * U) / inject_Z n).
    { rewrite div_pow2 by lia. rewrite HU2. subst q.
      rewrite !inject_Z_mult. field. lra. }
    rewrite E in L, V.
    assert (V' : inject_Z m - (1 # 2) <= inject_Z (2 * s * U) / inject_Z n) by lra.
    assert (L2 : inject_Z (2 * s * U) / inject_Z n <= inject_Z m + (1 # 2)) by lra.
    apply Qdiv_le_mult in L2; [|exact Qn].
    apply Qle_div_mult in V'; [|exact Qn].
    assert (L3 : inject_Z (2 * (2 * s * U)) <= inject_Z (2 * m * n + n)).
    { rewrite inject_Z_plus, !inject_Z_mult. change (inject_Z 2) with 2.
      rewrite !inject_Z_mult in L2. change (inject_Z 2) with 2 in L2. lra. }
    assert (V3 : inject_Z (2 * m * n - n) <= inject_Z (2 * (2 * s * U))).
    { rewrite inject_Z_minus, !inject_Z_mult. change (inject_Z 2) with 2.
      rewrite !inject_Z_mult in V'. change (inject_Z 2) with 2 in V'. lra. }
    rewrite <- Zle_Qle in L3, V3. lia. }
  assert (Gm : ((2 * k - 1) * U <= m <= (2 * k + 1) * U - 1)%Z) by nia.
  (* back to the rationals *)
  assert (R : inject_Z m * pow2 j == inject_Z m / inject_Z (2 * U)).
  { rewrite mul_pow2 by lia. now rewrite HU2. }
  assert (QU : 0 < inject_Z (2 * U))
    by (change 0 with (inject_Z 0); rewrite <- Zlt_Qlt; lia).
  assert (Rl : inject_Z k - (1 # 2) <= inject_Z m * pow2 j).
  { rewrite R. apply Qle_shift_div_l; [exact QU|].
    setoid_replace ((inject_Z k - (1 # 2)) * inject_Z (2 * U))
      with (inject_Z ((2 * k - 1) * U)).
    - rewrite <- Zle_Qle. lia.
    - rewrite !inject_Z_mult, inject_Z_minus, inject_Z_mult.
      change (inject_Z 2) with 2. change (inject_Z 1) with 1. ring. }
  assert (Ru : inject_Z m * pow2 j < inject_Z k + (1 # 2)).
  { rewrite R. apply Qlt_shift_div_r; [exact QU|].
    setoid_replace ((inject_Z k + (1 # 2)) * inject_Z (2 * U))
      with (inject_Z ((2 * k + 1) * U)).
    - rewrite <- Zlt_Qlt. lia.
    - rewrite !inject_Z_mult, inject_Z_plus, inject_Z_mult.
      change (inject_Z 2) with 2. change (inject_Z 1) with 1. ring. }
  (* no overflow *)
  assert (Bk : (Z.abs k <= 2 ^ 52)%Z).
  { assert (Z.abs s < 2 ^ 52 * n)%Z by nia. nia. }
  destruct (Qle_bool (pow2 1024) (Qabs (inject_Z m * pow2 j))) eqn:O.
  { exfalso. apply Qle_bool_iff in O.
    apply (Qlt_not_le (Qabs (inject_Z m * pow2 j)) (pow2 1024)); [|exact O].
    eapply Qlt_le_trans; [|apply pow2_53_1024].
    rewrite (pow2_nonneg_Z (j := 53)) by lia.
    assert (Bk' : inject_Z (Z.abs k) <= inject_Z (2 ^ 52)) by (rewrite <- Zle_Qle; exact Bk).
    rewrite <- Qabs_inject_Z in Bk'.
    change (2 ^ 53)%Z with (2 * 2 ^ 52)%Z. rewrite inject_Z_mult.
    assert (1 <= inject_Z (2 ^ 52)) by (change 1 with (inject_Z 1); rewrite <- Zle_Qle; lia).
    apply Qabs_Qlt_condition. apply Qabs_Qle_condition in Bk'.
    change (inject_Z 2) with 2. split; lra. }
  exists (Qred (inject_Z m * pow2 j)). split; [reflexivity|].
  fold k. rewrite (Qfloor_comp _ _ (Qplus_comp _ _ (Qred_correct _) _ _ (Qeq_refl _))).
  assert (inject_Z k <= inject_Z m * pow2 j + (1 # 2)) as A by lra.
  assert (inject_Z m * pow2 j + (1 # 2) < inject_Z (k + 1)) as B
    by (rewrite inject_Z_plus; change (inject_Z 1) with 1; lra).
  pose proof (Qfloor_le (inject_Z m * pow2 j + (1 # 2))) as L.
  pose proof (Qlt_floor (inject_Z m * pow2 j + (1 # 2))) as V.
  assert (inject_Z k < inject_Z (Qfloor (inject_Z m * pow2 j + (1 # 2)) + 1)) as C
    by (eapply Qle_lt_trans; eauto).
  assert (inject_Z (Qfloor (inject_Z m * pow2 j + (1 # 2))) < inject_Z (k + 1)) as D
    by (eapply Qle_lt_trans; eauto).
  rewrite <- Zlt_Qlt in C, D. lia.
Qed.

(* ===================================================================== *)
(** * Aggregator: the averaged metrics *)
(* ===================================================================== *)

Lemma nearest_half_up_unique x r r' :
  nearest_half_up x r -> nearest_half_up x r' -> r = r'.
Proof.
  intros [H1 H2] [H3 H4].
  assert (inject_Z r - (1#2) < inject_Z r' + (1#2))%Q as A
    by (eapply Qle_lt_trans; eauto).
  assert (inject_Z r' - (1#2) < inject_Z r + (1#2))%Q as B
    by (eapply Qle_lt_trans; eauto).
  unfold Qlt, Qminus, Qplus, Qopp, inject_Z in A, B. simpl in A, B. lia.
Qed.

Lemma floor_nearest x : nearest_half_up x (Qfloor (x + (1 # 2))).
Proof.
  pose proof (Qfloor_le (x + (1#2))) as L.
  pose proof (Qlt_floor (x + (1#2))) as U.
  rewrite inject_Z_plus in U. change (inject_Z 1) with 1 in U.
  split; lra.
Qed.

Lemma sum_abs_nonneg field evs :
  (0 <= sum_of (fun q => Z.abs (field q)) evs)%Z.
Proof.
  induction evs as [|q evs IH]; simpl; lia.
Qed.

Lemma sum_abs_bound field evs :
  (Z.abs (sum_of field evs) <= sum_of (fun q => Z.abs (field q)) evs)%Z.
Proof.
  induction evs as [|q evs IH]; simpl; lia.
Qed.

Lemma rounded_exact z : (Z.abs z < 2 ^ 53)%Z -> rounded z = of_Z z.
Proof. intros H. unfold rounded. now apply binary64_integer. Qed.

Lemma add_exact a b :
  (Z.abs (a + b) < 2 ^ 53)%Z -> add (of_Z a) (of_Z b) = of_Z (a + b).
Proof.
  intros H. unfold add, of_Z. apply binary64_integer; [|exact H].
  now rewrite inject_Z_plus.
Qed.

(** While the running total stays within precision the callback adds
    each score to it without loss. *)
Lemma fold_exact (field : QuestionEvaluation -> Z) (proj : Totals -> number) :
  (forall acc q, proj (accumulate acc q) = add (proj acc) (rounded (field q))) ->
  forall evs acc a,
    proj acc = of_Z a ->
    (Z.abs a + sum_of (fun q => Z.abs (field q)) evs < 2 ^ 53)%Z ->
    proj (fold_left accumulate evs acc) = of_Z (a + sum_of field evs).
Proof.
  intros Hstep evs. induction evs as [|q evs IH]; intros acc a Ha Hb.
  - cbn [fold_left sum_of fold_right]. now rewrite Z.add_0_r.
  - pose proof (sum_abs_nonneg field evs) as P.
    unfold sum_of in *. cbn [fold_left fold_right] in *.
    rewrite (IH (accumulate acc q) (a + field q)%Z).
    + f_equal. lia.
    + rewrite Hstep, Ha, rounded_exact by lia. apply add_exact. lia.
    + lia.
Qed.

Lemma totals_exact evs :
  representable evs ->
  total (totals evs) = of_Z (sum_of overallScore evs) /\
  spelling (totals evs) = of_Z (sum_of spellingScore evs) /\
  grammar (totals evs) = of_Z (sum_of grammarScore evs) /\
  clarity (totals evs) = of_Z (sum_of clarityScore evs).
Proof.
  intros (_ & S & G & C & O). unfold totals, within_precision in *.
  repeat split.
  - apply (fold_exact overallScore total) with (a := 0%Z);
      [reflexivity|reflexivity|lia].
  - apply (fold_exact spellingScore spelling) with (a := 0%Z);
      [reflexivity|reflexivity|lia].
  - apply (fold_exact grammarScore grammar) with (a := 0%Z);
      [reflexivity|reflexivity|lia].
  - apply (fold_exact clarityScore clarity) with (a := 0%Z);
      [reflexivity|reflexivity|lia].
Qed.

(** The average of an exact total: the quotient is rounded to binary64
    and then to an integer, with the result of rounding it once. *)
Lemma avg_exact evs s :
  evs <> [] -> (Z.of_nat (length evs) < 2 ^ 32)%Z -> (Z.abs s < 2 ^ 52)%Z ->
  exists r, avg evs (of_Z s) = of_Z r /\ nearest_half_up (mean s (length evs)) r.
Proof.
  intros Hne Hn Hs. unfold avg, mean.
  destruct evs as [|q evs]; [contradiction|].
  set (n := length (q :: evs)) in *.
  assert (Hpos : (0 < Z.of_nat n)%Z) by (subst n; cbn [length]; lia).
  unfold of_nat, of_Z, div.
  assert (Qsign (inject_Z (Z.of_nat n)) = Gt) as ->.
  { unfold Qsign. cbn [Qnum inject_Z]. now apply Z.compare_gt_iff. }
  destruct (@binary64_quotient s (Z.of_nat n)) as (x & E & F); [lia|exact Hs|].
  exists (Qfloor (inject_Z s / inject_Z (Z.of_nat n) + (1 # 2))).
  split; [|apply floor_nearest].
  assert (Hq : binary64 (inject_Z s / inject_Z (Z.of_nat n)) = Num x) by exact E.
  destruct (Qsign (inject_Z s)); rewrite Hq; unfold Math_round, of_Z; now rewrite F.
Qed.

(** Scores from 0 to 100, in a sequence that an array can hold, are within
    precision. *)
Lemma in_range_representable evs :
  Forall in_range evs -> (Z.of_nat (length evs) < 2 ^ 32)%Z -> representable evs.
Proof.
  intros H Hn. unfold representable, within_precision. split; [exact Hn|].
  assert (B : forall field,
             (forall q, in_range q -> (0 <= field q <= 100)%Z) ->
             (sum_of (fun q => Z.abs (field q)) evs
              <= 100 * Z.of_nat (length evs))%Z).
  { intros field Hf. clear Hn. induction H as [|q evs Hq _ IH].
    - simpl. lia.
    - cbn [sum_of fold_right length]. unfold sum_of in IH.
      specialize (Hf q Hq). lia. }
  repeat split.
  all: eapply Z.le_lt_trans; [apply B; unfold in_range; tauto|lia].
Qed.

(** C1. On the empty sequence of evaluations the four averaged scores are
    0 and the Bloom level is the text N/A, but the Higher Order percentage
    is [Math.round((0 / 0) * 100)], which is NaN and not 0: the guard of
    [avg] is missing from that entry. *)
Theorem aggregate_empty :
  let report := aggregate [] in
  totalScore report = of_Z 0 /\
  metric (str "Spelling") (metrics report) = Some (Score (of_Z 0)) /\
  metric (str "Grammar") (metrics report) = Some (Score (of_Z 0)) /\
  metric (str "Clarity") (metrics report) = Some (Score (of_Z 0)) /\
  metric (str "Bloom Level") (metrics report) = Some (Label (str "N/A")) /\
  metric (str "Higher Order") (metrics report) = Some (Score NaN).
Proof. repeat split. Qed.

(** C6, as stated, fails beyond the precision of the numbers: the total
    of 9007199254740992 and 1 is 9007199254740992, and its half is
    reported where the mean, rounded, is one more. *)
Lemma large_scores_lose_precision :
  let evs := [evaluation 9007199254740992 "Apply" true;
              evaluation 1 "Apply" false] in
  totalScore (aggregate evs) = of_Z 4503599627370496 /\
  nearest_half_up (mean (sum_of overallScore evs) (length evs))
    4503599627370497 /\
  ~ averaged overallScore evs (Some (Score (totalScore (aggregate evs)))).
Proof.
  cbn zeta.
  assert (T : totalScore
                (aggregate [evaluation 9007199254740992 "Apply" true;
                            evaluation 1 "Apply" false])
              = of_Z 4503599627370496) by (vm_compute; reflexivity).
  assert (N : nearest_half_up
                (mean (sum_of overallScore
                         [evaluation 9007199254740992 "Apply" true;
                          evaluation 1 "Apply" false]) 2)
                4503599627370497).
  { split; [apply Qle_bool_iff; vm_compute; reflexivity|].
    apply Qlt_alt. vm_compute. reflexivity. }
  split; [exact T|]. split; [exact N|].
  intros (r & E & N'). rewrite T in E. injection E as <-.
  pose proof (nearest_half_up_unique N N') as F. discriminate.
Qed.

(** C6, amended. On a sequence of n > 0 evaluations that an array can
    hold (n below 2^32), with integer scores whose absolute values sum,
    field by field, to less than 2^52, each of Spelling, Grammar, Clarity
    and totalScore is the integer nearest to the sum of its field divided
    by n, a half going up; totalScore is the one of overallScore. Scores
    from 0 to 100 are within these bounds. Two evaluations with
    overallScore 80 and 60, both of level Apply, the first higher-order
    and the second not, give totalScore 70, Bloom Level Apply and Higher
    Order 50. *)
Theorem averages_rounded_half_up :
  (forall evs : list QuestionEvaluation,
     evs <> [] -> representable evs ->
     let report := aggregate evs in
     averaged spellingScore evs (metric (str "Spelling") (metrics report)) /\
     averaged grammarScore evs (metric (str "Grammar") (metrics report)) /\
     averaged clarityScore evs (metric (str "Clarity") (metrics report)) /\
     averaged overallScore evs (Some (Score (totalScore report))))
  /\
  (forall evs : list QuestionEvaluation,
     Forall in_range evs -> (Z.of_nat (length evs) < 2 ^ 32)%Z ->
     representable evs)
  /\
  (forall q1 q2 : QuestionEvaluation,
     overallScore q1 = 80%Z -> overallScore q2 = 60%Z ->
     bloom q1 = Some (str "Apply") -> bloom q2 = Some (str "Apply") ->
     higherOrder q1 = true -> higherOrder q2 = false ->
     let report := aggregate [q1; q2] in
     totalScore report = of_Z 70 /\
     metric (str "Bloom Level") (metrics report) = Some (Label (str "Apply")) /\
     metric (str "Higher Order") (metrics report) = Some (Score (of_Z 50))).
Proof.
  split; [|split].
  - intros evs H R report. subst report. unfold aggregate, metrics_of.
    cbn [metrics totalScore].
    destruct (totals_exact R) as (A & B & C & D). rewrite A, B, C, D.
    destruct R as (Hn & S & G & Cl & O). unfold within_precision in *.
    pose proof (sum_abs_bound spellingScore evs).
    pose proof (sum_abs_bound grammarScore evs).
    pose proof (sum_abs_bound clarityScore evs).
    pose proof (sum_abs_bound overallScore evs).
    repeat split.
    all: match goal with
         | |- averaged ?f _ _ =>
             destruct (@avg_exact evs (sum_of f evs) H Hn) as (r & E & N);
             [lia|]
         end.
    all: exists r; split; [|exact N].
    all: rewrite <- E; reflexivity.
  - exact in_range_representable.
  - intros q1 q2. destruct q1, q2. cbn [overallScore bloom higherOrder].
    intros -> -> -> -> -> ->. repeat split; vm_compute; reflexivity.
Qed.

Lemma averages_rounded_half_up_witness :
  let evs := [evaluation 80 "Apply" true; evaluation 60 "Apply" false] in
  let report := aggregate evs in
  averaged spellingScore evs (metric (str "Spelling") (metrics report)) /\
  averaged grammarScore evs (metric (str "Grammar") (metrics report)) /\
  averaged clarityScore evs (metric (str "Clarity") (metrics report)) /\
  averaged overallScore evs (Some (Score (totalScore report))).
Proof.
  apply (proj1 averages_rounded_half_up
           [evaluation 80 "Apply" true; evaluation 60 "Apply" false]).
  - discriminate.
  - repeat split; vm_compute; reflexivity.
Defined.

(* ===================================================================== *)
(** * Aggregator: the dominant Bloom level *)
(* ===================================================================== *)

Lemma jsstring_eqb_spec a b : reflect (a = b) (jsstring_eqb a b).
Proof.
  revert b. induction a as [|x a IH]; intros [|y b]; simpl;
    try (constructor; congruence).
  destruct (char_eqb_spec x y) as [->|Hne]; simpl.
  - destruct (IH b) as [->|Hne]; constructor; congruence.
  - constructor. congruence.
Qed.

Lemma jsstring_eqb_refl a : jsstring_eqb a a = true.
Proof. destruct (jsstring_eqb_spec a a); congruence. Qed.

Lemma precedes_in A (x y : A) l : precedes x y l -> In x l /\ In y l.
Proof.
  induction 1 as [l H|z l H [IH1 IH2]]; simpl; auto.
Qed.

Lemma precedes_app A (x y : A) l1 l2 :
  precedes x y (l1 ++ l2) ->
  precedes x y l1 \/ (In x l1 /\ In y l2) \/ precedes x y l2.
Proof.
  induction l1 as [|z l1 IH]; simpl; intros H; [auto|].
  inversion H as [l Hy|z' l Hp]; subst.
  - apply in_app_or in Hy. destruct Hy as [Hy|Hy].
    + left. now constructor.
    + right. left. auto.
  - destruct (IH Hp) as [H1|[[H1 H2]|H1]]; auto.
    left. now constructor 2.
Qed.

Lemma precedes_map A B (f : A -> B) x y l :
  precedes x y l -> precedes (f x) (f y) (map f l).
Proof.
  induction 1 as [l H|z l H IH]; simpl.
  - constructor. now apply in_map.
  - now constructor 2.
Qed.

Lemma precedes_filter A (p : A -> bool) x y l :
  precedes x y (filter p l) -> precedes x y l.
Proof.
  induction l as [|z l IH]; simpl; intros H; [inversion H|].
  destruct (p z).
  - inversion H as [l' Hy|z' l' Hp]; subst.
    + constructor. apply filter_In in Hy. tauto.
    + constructor 2. auto.
  - constructor 2. auto.
Qed.

Lemma precedes_sorted A (R : A -> A -> Prop) x y l :
  StronglySorted R l -> precedes x y l -> R x y.
Proof.
  intros HS. induction 1 as [l H|z l H IH].
  - inversion HS as [|? ? _ HF]; subst.
    rewrite Forall_forall in HF. auto.
  - inversion HS; subst. auto.
Qed.

Lemma precedes_split A (x y : A) pre post :
  In y post -> precedes x y (pre ++ x :: post).
Proof.
  intros H. induction pre as [|z pre IH]; simpl.
  - now constructor.
  - now constructor 2.
Qed.

Lemma get_own_in V (o : object V) k :
  (exists v, get_own o k = Some v) <-> In k (map fst o).
Proof.
  induction o as [|[k' v'] o IH]; simpl.
  - split; [intros [v H]; discriminate|tauto].
  - destruct (jsstring_eqb_spec k k') as [->|Hne].
    + split; eauto.
    + rewrite IH. split; [tauto|]. intros [H|H]; [congruence|exact H].
Qed.

Lemma get_own_none V (o : object V) k :
  get_own o k = None <-> ~ In k (map fst o).
Proof.
  rewrite <- get_own_in. destruct (get_own o k) as [w|].
  - split; [discriminate|]. intros H. exfalso. apply H. eauto.
  - split; [|reflexivity]. intros _ [w H]. discriminate.
Qed.

Lemma get_set_own V (o : object V) k v k' :
  get_own (set_own o k v) k' = if jsstring_eqb k' k then Some v else get_own o k'.
Proof.
  induction o as [|[k0 v0] o IH]; simpl.
  - reflexivity.
  - destruct (jsstring_eqb_spec k k0) as [->|Hne]; simpl.
    + destruct (jsstring_eqb_spec k' k0); reflexivity.
    + destruct (jsstring_eqb_spec k' k0) as [->|Hne'].
      * destruct (jsstring_eqb_spec k0 k); [congruence|reflexivity].
      * exact IH.
Qed.

Lemma keys_set_own V (o : object V) k v :
  map fst (set_own o k v) =
  match get_own o k with
  | Some _ => map fst o
  | None => map fst o ++ [k]
  end.
Proof.
  induction o as [|[k0 v0] o IH]; simpl; [reflexivity|].
  destruct (jsstring_eqb_spec k k0) as [->|Hne]; simpl; [reflexivity|].
  rewrite IH. destruct (get_own o k); reflexivity.
Qed.

Lemma get_own_entry V (o : object V) k v :
  NoDup (map fst o) -> In (k, v) o -> get_own o k = Some v.
Proof.
  induction o as [|[k0 v0] o IH]; simpl; intros ND H; [destruct H|].
  inversion ND as [|? ? Hn ND']; subst.
  destruct H as [[= -> ->]|H].
  - now rewrite jsstring_eqb_refl.
  - destruct (jsstring_eqb_spec k k0) as [->|Hne]; [|auto].
    exfalso. apply Hn. apply (in_map fst) in H. exact H.
Qed.

Lemma entry_get_own V (o : object V) k v :
  get_own o k = Some v -> In (k, v) o.
Proof.
  induction o as [|[k0 v0] o IH]; simpl; [discriminate|].
  destruct (jsstring_eqb_spec k k0) as [->|Hne].
  - intros [= ->]. now left.
  - auto.
Qed.

Lemma occurrences_nonneg l ls : (0 <= occurrences l ls)%Z.
Proof.
  induction ls as [|x ls IH]; simpl; [lia|].
  destruct (jsstring_eqb x l); lia.
Qed.

Lemma occurrences_in l ls : In l ls -> (1 <= occurrences l ls)%Z.
Proof.
  induction ls as [|x ls IH]; simpl; [tauto|].
  pose proof (occurrences_nonneg l ls).
  destruct (jsstring_eqb_spec x l) as [->|Hne]; [lia|].
  intros [H'|H']; [congruence|]. specialize (IH H'). lia.
Qed.

Lemma occurrences_not_in l ls : ~ In l ls -> occurrences l ls = 0%Z.
Proof.
  induction ls as [|x ls IH]; simpl; [reflexivity|].
  intros H. destruct (jsstring_eqb_spec x l) as [->|Hne]; [tauto|].
  rewrite IH; tauto.
Qed.

Lemma occurrences_snoc l ls x :
  occurrences l (ls ++ [x]) =
  (occurrences l ls + if jsstring_eqb x l then 1 else 0)%Z.
Proof.
  induction ls as [|y ls IH]; simpl; [lia|]. rewrite IH. lia.
Qed.

Lemma incremented_count n : incremented (Some (Count n)) = Count (n + 1).
Proof. simpl. destruct (n =? 0)%Z eqn:E; [|reflexivity]. apply Z.eqb_eq in E. now subst. Qed.

Lemma tallies_tallied ls : tallied ls (tallies ls).
Proof.
  unfold tallies. induction ls as [|l ls IH] using rev_ind.
  - split; simpl.
    + constructor.
    + tauto.
    + tauto.
    + intros a b H. inversion H.
  - rewrite fold_left_app. cbn [fold_left].
    set (o := fold_left tally_step ls []) in *.
    destruct IH as [ND KE CT OR].
    assert (Keys : map fst (tally_step o l) =
                   if mem_dec l ls then map fst o else map fst o ++ [l]).
    { unfold tally_step. rewrite keys_set_own.
      destruct (mem_dec l ls) as [Hin|Hin].
      - apply KE in Hin. apply get_own_in in Hin. destruct Hin as [v ->]. reflexivity.
      - rewrite <- KE, <- get_own_none in Hin. now rewrite Hin. }
    split.
    + rewrite Keys. destruct (mem_dec l ls) as [Hin|Hin]; [exact ND|].
      apply NoDup_app; [exact ND|repeat constructor; simpl; tauto|].
      intros k Hk [<-|[]]. apply Hin. now apply KE.
    + intros k. rewrite Keys. destruct (mem_dec l ls) as [Hin|Hin].
      * rewrite KE, in_app_iff. simpl. split; [tauto|].
        intros [H|[<-|[]]]; assumption.
      * rewrite !in_app_iff, KE. simpl. tauto.
    + intros k Hk. unfold tally_step. rewrite get_set_own, occurrences_snoc.
      destruct (jsstring_eqb_spec k l) as [->|Hne].
      * rewrite jsstring_eqb_refl.
        destruct (mem_dec l ls) as [Hin|Hin].
        -- rewrite (CT _ Hin), incremented_count. reflexivity.
        -- rewrite (occurrences_not_in _ _ Hin).
           rewrite <- KE, <- get_own_none in Hin. rewrite Hin. reflexivity.
      * destruct (jsstring_eqb_spec l k) as [->|_]; [congruence|].
        rewrite Z.add_0_r. apply CT.
        apply in_app_or in Hk. destruct Hk as [Hk|[Hk|[]]]; [exact Hk|congruence].
    + intros a b H. rewrite Keys in H.
      destruct (mem_dec l ls) as [Hin|Hin].
      * destruct (OR _ _ H) as (pre & post & -> & Hpre).
        exists pre, (post ++ [l]). rewrite <- app_assoc. auto.
      * apply precedes_app in H. destruct H as [H|[[Ha Hb]|H]].
        -- destruct (OR _ _ H) as (pre & post & -> & Hpre).
           exists pre, (post ++ [l]). rewrite <- app_assoc. auto.
        -- destruct Hb as [<-|[]]. apply KE in Ha.
           destruct (in_split _ _ Ha) as (pre & post & ->).
           exists pre, (post ++ [l]). rewrite <- app_assoc. split; [reflexivity|].
           intros Hl. apply Hin. apply in_or_app. now left.
        -- inversion H as [l' Hy|z l' Hp]; subst; [destruct Hy|inversion Hp].
Qed.

Lemma digits_value_snoc k d :
  digits_value (k ++ [d]) = (10 * digits_value k + (d - 48))%N.
Proof. unfold digits_value. now rewrite fold_left_app. Qed.

Lemma fold_digits_ge t acc :
  (acc <= fold_left (fun acc c => 10 * acc + (c - 48)) t acc)%N.
Proof.
  revert acc. induction t as [|c t IH]; intros acc; cbn [fold_left]; [lia|].
  specialize (IH (10 * acc + (c - 48))%N). lia.
Qed.

Lemma is_digit_bounds c : is_digit c = true -> (48 <= c <= 57)%N.
Proof. unfold is_digit. rewrite andb_true_iff, !N.leb_le. tauto. Qed.

Lemma digits_value_pos k :
  forallb is_digit k = true -> no_leading_zero k -> k <> [] ->
  (0 < digits_value k)%N.
Proof.
  destruct k as [|c t]; [congruence|]. simpl. intros D Z _.
  apply andb_true_iff in D. destruct D as [D _]. apply is_digit_bounds in D.
  change (digits_value (c :: t))
    with (fold_left (fun acc c => 10 * acc + (c - 48))%N t (c - 48)%N).
  pose proof (fold_digits_ge t (c - 48)). lia.
Qed.

Lemma no_leading_zero_prefix p d : no_leading_zero (p ++ [d]) -> no_leading_zero p.
Proof. destruct p; simpl; auto. Qed.

Lemma digits_value_inj k1 :
  forall k2,
    forallb is_digit k1 = true -> forallb is_digit k2 = true ->
    no_leading_zero k1 -> no_leading_zero k2 ->
    digits_value k1 = digits_value k2 -> k1 = k2.
Proof.
  induction k1 as [|d1 p1 IH] using rev_ind; intros k2 D1 D2 Z1 Z2 E.
  - destruct k2 as [|c t]; [reflexivity|].
    pose proof (@digits_value_pos (c :: t) D2 Z2). 
    change (digits_value []) with 0%N in E. rewrite <- E in H.
    exfalso. assert (c :: t <> []) by discriminate. specialize (H H0). lia.
  - destruct k2 as [|c t] using rev_ind.
    + pose proof (@digits_value_pos (p1 ++ [d1]) D1 Z1).
      change (digits_value []) with 0%N in E. rewrite E in H.
      exfalso. assert (p1 ++ [d1] <> []) by (destruct p1; discriminate).
      specialize (H H0). lia.
    + clear IHt. rename c into d2, t into p2.
      rewrite !digits_value_snoc in E.
      rewrite forallb_app in D1, D2. simpl in D1, D2.
      rewrite andb_true_r in D1, D2.
      apply andb_true_iff in D1, D2. destruct D1 as [D1 E1], D2 as [D2 E2].
      apply is_digit_bounds in E1, E2.
      assert (d1 = d2) by lia. subst d2.
      assert (digits_value p1 = digits_value p2) as Ev by lia.
      rewrite (IH p2); auto; eapply no_leading_zero_prefix; eauto.
Qed.

Lemma array_index_inj k1 k2 i :
  array_index k1 = Some i -> array_index k2 = Some i -> k1 = k2.
Proof.
  unfold array_index.
  destruct k1 as [|c1 t1]; [discriminate|]. destruct k2 as [|c2 t2]; [discriminate|].
  destruct (forallb is_digit (c1 :: t1)) eqn:D1; [|discriminate].
  destruct (forallb is_digit (c2 :: t2)) eqn:D2; [|discriminate].
  cbn [andb].
  destruct (negb (c1 =? 48)%N || match t1 with [] => true | _ => false end) eqn:Z1;
    [|discriminate].
  destruct (negb (c2 =? 48)%N || match t2 with [] => true | _ => false end) eqn:Z2;
    [|discriminate].
  cbn [andb].
  destruct ((length (c1 :: t1) <=? 10)%nat && (digits_value (c1 :: t1) <? 4294967295)%N);
    [|discriminate].
  destruct ((length (c2 :: t2) <=? 10)%nat && (digits_value (c2 :: t2) <? 4294967295)%N);
    [|discriminate].
  intros [= E1] [= E2]. 
  destruct (N.eqb_spec c1 48) as [->|N1]; destruct (N.eqb_spec c2 48) as [->|N2];
    simpl in Z1, Z2.
  - destruct t1; [|discriminate]. destruct t2; [|discriminate]. reflexivity.
  - destruct t1; [|discriminate].
    pose proof (@digits_value_pos (c2 :: t2) D2 N2).
    assert (c2 :: t2 <> []) by discriminate. specialize (H H0).
    change (digits_value [48%N]) with 0%N in E1. lia.
  - destruct t2; [|discriminate].
    pose proof (@digits_value_pos (c1 :: t1) D1 N1).
    assert (c1 :: t1 <> []) by discriminate. specialize (H H0).
    change (digits_value [48%N]) with 0%N in E2. lia.
  - apply digits_value_inj; auto. congruence.
Qed.

Lemma insert_index_in V i (e : jsstring * V) l x :
  In x (insert_index i e l) <-> x = (i, e) \/ In x l.
Proof.
  induction l as [|[j e'] l IH]; simpl.
  - split; intros [H|H]; auto.
  - destruct (i <? j)%N; simpl.
    + split; intros [H|H]; auto.
    + rewrite IH. split; intros H; tauto.
Qed.

Lemma insert_index_sorted V i (e : jsstring * V) l :
  StronglySorted by_index l -> StronglySorted by_index (insert_index i e l).
Proof.
  induction 1 as [|[j e'] l HS IH HF]; simpl.
  - repeat constructor.
  - destruct (N.ltb_spec i j) as [Hlt|Hge].
    + constructor; [now constructor|].
      constructor; [unfold by_index; simpl; lia|].
      rewrite Forall_forall in *. intros x Hx. specialize (HF x Hx).
      unfold by_index in *. simpl in *. lia.
    + constructor; [exact IH|].
      rewrite Forall_forall in *. intros x Hx.
      apply insert_index_in in Hx. destruct Hx as [->|Hx]; [|auto].
      unfold by_index. simpl. lia.
Qed.

Lemma index_entries_in V (o : object V) i e :
  In (i, e) (index_entries o) <-> In e o /\ array_index (fst e) = Some i.
Proof.
  unfold index_entries. induction o as [|e0 o IH]; simpl.
  - tauto.
  - destruct (array_index (fst e0)) as [i0|] eqn:E0.
    + rewrite insert_index_in, IH. split.
      * intros [[= -> ->]|[H1 H2]]; auto.
      * intros [[->|H1] H2]; [left; congruence|auto].
    + rewrite IH. split; [tauto|]. intros [[->|H1] H2]; [congruence|auto].
Qed.

Lemma index_entries_sorted V (o : object V) :
  StronglySorted by_index (index_entries o).
Proof.
  unfold index_entries. induction o as [|e0 o IH]; simpl; [constructor|].
  destruct (array_index (fst e0)); [now apply insert_index_sorted|exact IH].
Qed.

Lemma Object_entries_in V (o : object V) e :
  In e (Object_entries o) <-> In e o.
Proof.
  unfold Object_entries, named_entries.
  rewrite in_app_iff, in_map_iff, filter_In. split.
  - intros [([i e'] & <- & H)|[H _]]; [|exact H].
    apply index_entries_in in H. tauto.
  - intros H. destruct (array_index (fst e)) as [i|] eqn:E.
    + left. exists (i, e). split; [reflexivity|]. apply index_entries_in. auto.
    + right. auto.
Qed.

Lemma precedes_map_inv A B (f : A -> B) x y l :
  precedes x y (map f l) ->
  exists x' y', f x' = x /\ f y' = y /\ precedes x' y' l.
Proof.
  induction l as [|z l IH]; simpl; intros H; [inversion H|].
  inversion H as [l' Hy|z' l' Hp]; subst.
  - apply in_map_iff in Hy. destruct Hy as (y' & <- & Hy).
    exists z, y'. repeat split. now constructor.
  - destruct (IH Hp) as (x' & y' & <- & <- & Hxy).
    exists x', y'. repeat split. now constructor 2.
Qed.

(** The order of [Object.entries]. *)
Lemma Object_entries_order V (o : object V) x y :
  precedes x y (Object_entries o) ->
  match array_index (fst x), array_index (fst y) with
  | Some i, Some j => (i <= j)%N
  | Some _, None => True
  | None, Some _ => False
  | None, None => precedes (fst x) (fst y) (map fst o)
  end.
Proof.
  unfold Object_entries. intros H. apply precedes_app in H.
  destruct H as [H|[[Hx Hy]|H]].
  - apply precedes_map_inv in H. destruct H as ([i x'] & [j y'] & <- & <- & H).
    pose proof (precedes_sorted (index_entries_sorted o) H) as S.
    apply precedes_in in H. destruct H as [Hx Hy].
    apply index_entries_in in Hx, Hy. cbn [snd] in *.
    destruct Hx as [_ ->], Hy as [_ ->]. exact S.
  - apply in_map_iff in Hx. destruct Hx as ([i x'] & <- & Hx).
    apply index_entries_in in Hx. cbn [snd]. destruct Hx as [_ ->].
    unfold named_entries in Hy. apply filter_In in Hy.
    destruct (array_index (fst y)); [destruct Hy; discriminate|exact I].
  - pose proof (precedes_in H) as [Hx Hy].
    unfold named_entries in Hx, Hy. apply filter_In in Hx, Hy.
    destruct (array_index (fst x)); [destruct Hx; discriminate|].
    destruct (array_index (fst y)); [destruct Hy; discriminate|].
    apply precedes_map. eapply precedes_filter. exact H.
Qed.

Lemma by_count_desc_counted a b :
  counted a -> counted b -> by_count_desc a b = (count_of a <? count_of b)%Z.
Proof.
  intros [x Hx] [y Hy]. unfold by_count_desc, count_of. rewrite Hx, Hy.
  destruct (Z.ltb_spec 0 (y - x)); destruct (Z.ltb_spec x y); auto; lia.
Qed.

Lemma sort_first_max l :
  Forall counted l -> l <> [] ->
  exists e rest pre post,
    sort by_count_desc l = e :: rest /\ l = pre ++ e :: post /\
    (forall x, In x pre -> (count_of x < count_of e)%Z) /\
    (forall x, In x post -> (count_of x <= count_of e)%Z).
Proof.
  induction l as [|x l IH]; intros HF Hne; [congruence|].
  inversion HF as [|? ? Hx HF']; subst.
  destruct l as [|y l'].
  - exists x, [], [], []. simpl. repeat split; intros ? [].
  - destruct (IH HF') as (e & rest & pre & post & Es & El & Hpre & Hpost);
      [discriminate|].
    assert (He : counted e).
    { rewrite Forall_forall in HF'. apply HF'. rewrite El.
      apply in_or_app. right. now left. }
    unfold sort in *. cbn [fold_right]. cbn [fold_right] in Es. rewrite Es.
    cbn [sort_insert]. rewrite (by_count_desc_counted Hx He).
    destruct (Z.ltb_spec (count_of x) (count_of e)) as [Hlt|Hge].
    + exists e, (sort_insert by_count_desc x rest), (x :: pre), post.
      rewrite El. repeat split; auto.
      intros z [<-|Hz]; auto.
    + exists x, (e :: rest), [], (y :: l'). repeat split; [intros ? []|].
      intros z Hz. rewrite El in Hz. apply in_app_or in Hz.
      destruct Hz as [Hz|[<-|Hz]].
      * specialize (Hpre z Hz). lia.
      * lia.
      * specialize (Hpost z Hz). lia.
Qed.

Lemma not_inherited_proto l :
  inherited l = false -> jsstring_eqb l (str "__proto__") = false.
Proof.
  intros H. destruct (jsstring_eqb_spec l (str "__proto__")) as [->|]; [|reflexivity].
  vm_compute in H. discriminate.
Qed.

Lemma count_step o l :
  inherited l = false ->
  write_count o l (incremented (read_count o l)) = tally_step o l.
Proof.
  intros H. unfold write_count, read_count, tally_step.
  rewrite (not_inherited_proto _ H), H. destruct (get_own o l); reflexivity.
Qed.

Lemma bloomCounts_fold evs :
  forall acc,
    (forall l, In l (labels evs) -> inherited l = false) ->
    bloomCounts (fold_left accumulate evs acc)
    = fold_left tally_step (labels evs) (bloomCounts acc).
Proof.
  induction evs as [|q evs IH]; intros acc H; [reflexivity|].
  cbn [fold_left]. unfold labels in *. cbn [flat_map] in *.
  rewrite fold_left_app, IH.
  - f_equal. unfold accumulate, label_of in *. cbn [bloomCounts].
    destruct (bloom q) as [[|c k]|]; try reflexivity.
    cbn [fold_left]. apply count_step. apply H. now left.
  - intros l Hl. apply H. apply in_or_app. now right.
Qed.

Lemma bloomCounts_tallies evs :
  (forall l, In l (labels evs) -> inherited l = false) ->
  bloomCounts (totals evs) = tallies (labels evs).
Proof. intros H. unfold totals. now rewrite bloomCounts_fold. Qed.

Lemma labels_nonempty evs l : In l (labels evs) -> l <> [].
Proof.
  unfold labels. rewrite in_flat_map. intros (q & _ & H).
  unfold label_of in H. destruct (bloom q) as [[|c k]|]; try destruct H.
  - subst. discriminate.
  - destruct H.
Qed.

(** C5, as stated, fails on the tie: of the labels 2 and 1, met in this
    order and once each, the one reported is 1. *)
Lemma index_label_wins_tie :
  let evs := [evaluation 80 "2" true; evaluation 60 "1" false] in
  first_seen_before (str "2") (str "1") (labels evs) /\
  occurrences (str "2") (labels evs) = occurrences (str "1") (labels evs) /\
  mostCommonBloom evs = str "1".
Proof.
  repeat split. exists [], [str "1"]. split; [reflexivity|]. intros [].
Qed.

(** A label that names a member of [Object.prototype] reads the inherited
    member instead of a count: counted once, it is reported ahead of a
    label counted twice. The statement below leaves such labels out. *)
Lemma inherited_label_not_counted :
  mostCommonBloom [evaluation 80 "constructor" true;
                   evaluation 70 "Apply" false; evaluation 60 "Apply" false]
  = str "constructor".
Proof. reflexivity. Qed.

(** C5, amended. For every sequence of evaluations whose Bloom labels name
    no member of [Object.prototype]: an evaluation without label or with
    an empty one is not counted; when no label is counted the level
    reported is N/A; otherwise the level reported is a label with the
    highest count, and among the labels with that count it is the first in
    the order in which the counts are listed: the labels that are array
    indices by increasing value, then the other labels as first met. *)
Theorem mostCommonBloom_spec :
  forall evs : list QuestionEvaluation,
  (forall l, In l (labels evs) -> inherited l = false) ->
  (labels evs = [] -> mostCommonBloom evs = str "N/A") /\
  (labels evs <> [] ->
   In (mostCommonBloom evs) (labels evs) /\
   (forall l, (occurrences l (labels evs)
               <= occurrences (mostCommonBloom evs) (labels evs))%Z) /\
   (forall l, In l (labels evs) -> l <> mostCommonBloom evs ->
              occurrences l (labels evs)
              = occurrences (mostCommonBloom evs) (labels evs) ->
              listed_before (labels evs) (mostCommonBloom evs) l)).
Proof.
  intros evs Hinh. unfold mostCommonBloom. rewrite (bloomCounts_tallies _ Hinh).
  split.
  - intros ->. reflexivity.
  - intros Hne. set (ls := labels evs) in *.
    destruct (tallies_tallied ls) as [ND KE CT OR].
    set (o := tallies ls) in *.
    assert (Hval : forall e, In e (Object_entries o) ->
                   In (fst e) ls /\ snd e = Count (occurrences (fst e) ls)).
    { intros [k v] He. apply (proj1 (Object_entries_in _ _)) in He. cbn [fst snd].
      assert (In k ls) as Hk.
      { apply KE. apply (in_map fst) in He. exact He. }
      split; [exact Hk|].
      pose proof (get_own_entry _ _ _ ND He) as G. rewrite (CT _ Hk) in G.
      congruence. }
    assert (Hent : forall l, In l ls -> In (l, Count (occurrences l ls)) (Object_entries o)).
    { intros l Hl. apply Object_entries_in. apply entry_get_own. now apply CT. }
    destruct (@sort_first_max (Object_entries o))
      as (e & rest & pre & post & Es & El & Hpre & Hpost).
    { rewrite Forall_forall. intros e He. destruct (Hval e He) as [_ Hv].
      eexists. exact Hv. }
    { destruct ls as [|l ls']; [congruence|].
      intros E. specialize (Hent l (or_introl eq_refl)). rewrite E in Hent.
      destruct Hent. }
    rewrite Es. destruct e as [m v].
    assert (In (m, v) (Object_entries o)) as Hm.
    { rewrite El. apply in_or_app. right. now left. }
    destruct (Hval _ Hm) as [Hml Hv]. cbn [fst snd] in Hml, Hv. subst v.
    assert (m <> []) as Hmne by (apply (labels_nonempty evs); exact Hml).
    replace (match m with [] => str "N/A" | _ :: _ => m end) with m
      by (destruct m; congruence).
    assert (Hcount : forall l, In l ls ->
              count_of (l, Count (occurrences l ls)) = occurrences l ls)
      by reflexivity.
    split; [exact Hml|]. split.
    + intros l. destruct (mem_dec l ls) as [Hl|Hl].
      * specialize (Hent l Hl). rewrite El in Hent.
        apply in_app_or in Hent. destruct Hent as [H|[H|H]].
        -- specialize (Hpre _ H). unfold count_of in Hpre. cbn [snd] in Hpre. lia.
        -- injection H as -> _. lia.
        -- specialize (Hpost _ H). unfold count_of in Hpost. cbn [snd] in Hpost. lia.
      * rewrite (occurrences_not_in _ _ Hl). apply occurrences_nonneg.
    + intros l Hl Hlm Hocc.
      pose proof (Hent l Hl) as H. rewrite El in H.
      apply in_app_or in H. destruct H as [H|[H|H]].
      * specialize (Hpre _ H). unfold count_of in Hpre. cbn [snd] in Hpre. lia.
      * injection H as H _. congruence.
      * pose proof (@precedes_split _ (m, Count (occurrences m ls)) _ pre _ H) as P.
        rewrite <- El in P. apply Object_entries_order in P. cbn [fst] in P.
        unfold listed_before.
        destruct (array_index m) as [i|] eqn:Ei;
          destruct (array_index l) as [j|] eqn:Ej; auto.
        destruct (N.eq_dec i j) as [->|Hij]; [|lia].
        exfalso. apply Hlm. symmetry. eapply array_index_inj; eauto.
Qed.

Lemma mostCommonBloom_spec_witness :
  let evs := [evaluation 80 "Apply" true; evaluation 60 "Recall" false;
              evaluation 70 "Recall" true; evaluation 90 "Apply" true] in
  In (mostCommonBloom evs) (labels evs) /\
  (forall l, (occurrences l (labels evs)
              <= occurrences (mostCommonBloom evs) (labels evs))%Z) /\
  (forall l, In l (labels evs) -> l <> mostCommonBloom evs ->
             occurrences l (labels evs)
             = occurrences (mostCommonBloom evs) (labels evs) ->
             listed_before (labels evs) (mostCommonBloom evs) l).
Proof.
  refine (proj2 (@mostCommonBloom_spec
                   [evaluation 80 "Apply" true; evaluation 60 "Recall" false;
                    evaluation 70 "Recall" true; evaluation 90 "Apply" true] _) _).
  - intros l [<-|[<-|[<-|[<-|[]]]]]; reflexivity.
  - discriminate.
Defined.

(* ===================================================================== *)
(** * [JSON.parse]: what a successful parse has read *)
(* ===================================================================== *)

Lemma suffix_refl s : suffix s s.
Proof. now exists []. Qed.

Lemma consumed_cons c t : consumed (c :: t) t.
Proof. exists [c]. split; [discriminate|reflexivity]. Qed.

Lemma consumed_suffix s r : consumed s r -> suffix s r.
Proof. intros (a & _ & E). now exists a. Qed.

Lemma suffix_trans s1 s2 s3 : suffix s1 s2 -> suffix s2 s3 -> suffix s1 s3.
Proof. intros (a & ->) (b & ->). exists (a ++ b). now rewrite app_assoc. Qed.

Lemma consumed_suffix_trans s1 s2 s3 : consumed s1 s2 -> suffix s2 s3 -> consumed s1 s3.
Proof.
  intros (a & Ha & ->) (b & ->). exists (a ++ b). split.
  - destruct a; [congruence|discriminate].
  - now rewrite app_assoc.
Qed.

Lemma suffix_consumed_trans s1 s2 s3 : suffix s1 s2 -> consumed s2 s3 -> consumed s1 s3.
Proof.
  intros (a & ->) (b & Hb & ->). exists (a ++ b). split.
  - destruct b; [congruence|]. destruct a; discriminate.
  - now rewrite app_assoc.
Qed.

Lemma consumed_length s r : consumed s r -> (length r < length s)%nat.
Proof.
  intros (a & Ha & ->). rewrite length_app. destruct a; [congruence|]. simpl. lia.
Qed.

Lemma suffix_length s r : suffix s r -> (length r <= length s)%nat.
Proof. intros (a & ->). rewrite length_app. lia. Qed.

Lemma skip_ws_suffix s : suffix s (skip_ws s).
Proof.
  induction s as [|c t IH]; simpl; [apply suffix_refl|].
  destruct (is_ws c); [|apply suffix_refl].
  eapply suffix_trans; [|exact IH]. now exists [c].
Qed.

Lemma starts_with_app p s rest : starts_with p s = Some rest -> s = p ++ rest.
Proof.
  revert s. induction p as [|a p IH]; intros [|b s]; simpl; try congruence.
  destruct (char_eqb_spec a b) as [->|]; [|discriminate].
  intros H. now rewrite (IH _ H).
Qed.

Lemma digits_split s : s = take_digits s ++ drop_digits s.
Proof.
  induction s as [|c t IH]; simpl; [reflexivity|].
  destruct (is_digit c); simpl; [now f_equal|reflexivity].
Qed.

Lemma drop_digits_suffix s : suffix s (drop_digits s).
Proof. exists (take_digits s). apply digits_split. Qed.

Lemma drop_digits_consumed s : take_digits s <> [] -> consumed s (drop_digits s).
Proof. intros H. exists (take_digits s). split; [exact H|apply digits_split]. Qed.

Lemma parse_number_consumed s q rest :
  parse_number s = Some (q, rest) -> consumed s rest.
Proof.
  unfold parse_number.
  set (neg := match s with
              | c :: t => if (c =? MINUS)%N then (true, t) else (false, s)
              | [] => (false, s) end).
  assert (Hs1 : suffix s (snd neg)).
  { subst neg. destruct s as [|c t]; [apply suffix_refl|].
    destruct (c =? MINUS)%N; [now exists [c]|apply suffix_refl]. }
  destruct neg as [negative s1]. cbn [snd] in Hs1.
  set (ip := match s1 with
             | c :: t => if (c =? 48)%N then ([c], t) else (take_digits s1, drop_digits s1)
             | [] => ([], []) end).
  assert (Hs2 : fst ip <> [] -> consumed s1 (snd ip)).
  { subst ip. destruct s1 as [|c t]; [simpl; congruence|].
    destruct (c =? 48)%N; cbn [fst snd]; intros H.
    - apply consumed_cons.
    - now apply drop_digits_consumed. }
  destruct ip as [int_part s2]. cbn [fst snd] in Hs2.
  destruct int_part as [|d ds]; [discriminate|].
  assert (H2 : consumed s s2).
  { eapply suffix_consumed_trans; [exact Hs1|]. apply Hs2. discriminate. }
  clear Hs1 Hs2.
  set (frac := match s2 with
               | c :: t =>
                   if (c =? 46)%N then
                     match take_digits t with
                     | [] => None
                     | ds => Some (ds, drop_digits t)
                     end
                   else Some ([], s2)
               | [] => Some ([], s2) end).
  assert (H3 : forall fp s3, frac = Some (fp, s3) -> suffix s2 s3).
  { subst frac. intros fp s3. destruct s2 as [|c t].
    - intros [= <- <-]. apply suffix_refl.
    - destruct (c =? 46)%N.
      + destruct (take_digits t); [discriminate|]. intros [= <- <-].
        eapply suffix_trans; [|apply drop_digits_suffix]. now exists [c].
      + intros [= <- <-]. apply suffix_refl. }
  destruct frac as [[fp s3]|]; [|discriminate].
  specialize (H3 _ _ eq_refl).
  assert (H4 : consumed s s3) by (eapply consumed_suffix_trans; eauto).
  clear H2 H3.
  destruct s3 as [|c t]; [intros [= <- <-]; exact H4|].
  destruct ((c =? 101) || (c =? 69))%N; [|intros [= <- <-]; exact H4].
  set (sg := match t with
             | sg :: t'' =>
                 if (sg =? MINUS)%N then (true, t'')
                 else if (sg =? 43)%N then (false, t'') else (false, t)
             | [] => (false, t) end).
  assert (H5 : suffix t (snd sg)).
  { subst sg. destruct t as [|x t'']; [apply suffix_refl|].
    destruct (x =? MINUS)%N; [now exists [x]|].
    destruct (x =? 43)%N; [now exists [x]|apply suffix_refl]. }
  destruct sg as [en t']. cbn [snd] in H5.
  destruct (take_digits t') eqn:Td; [discriminate|]. intros [= <- <-].
  eapply consumed_suffix_trans; [exact H4|].
  eapply suffix_trans; [now exists [c]|].
  eapply suffix_trans; [exact H5|apply drop_digits_suffix].
Qed.

Lemma push_some c r body rest :
  push c r = Some (body, rest) -> exists b, r = Some (b, rest).
Proof.
  destruct r as [[b r']|]; simpl; [|discriminate]. intros [= <- <-]. eauto.
Qed.

Lemma parse_chars_consumed n :
  forall s body rest, (length s <= n)%nat ->
    parse_chars s = Some (body, rest) -> consumed s rest.
Proof.
  induction n as [|n IH]; intros s body rest Hlen.
  - destruct s; [discriminate|simpl in Hlen; lia].
  - destruct s as [|c t]; [discriminate|]. simpl in Hlen. cbn [parse_chars].
    destruct (c =? QUOTE)%N.
    + intros [= <- <-]. apply consumed_cons.
    + destruct (c =? BACKSLASH)%N.
      * destruct t as [|e t']; [discriminate|].
        destruct (e =? 117)%N.
        -- destruct t' as [|h1 [|h2 [|h3 [|h4 t'']]]]; try discriminate.
           destruct (hex4 h1 h2 h3 h4); [|discriminate].
           intros H. apply push_some in H. destruct H as (b & H).
           apply IH in H; [|simpl in Hlen; lia].
           eapply suffix_consumed_trans; [|exact H].
           now exists [c; e; h1; h2; h3; h4].
        -- destruct (escape e); [|discriminate].
           intros H. apply push_some in H. destruct H as (b & H).
           apply IH in H; [|simpl in Hlen; lia].
           eapply suffix_consumed_trans; [|exact H]. now exists [c; e].
      * destruct (c <? 32)%N; [discriminate|].
        intros H. apply push_some in H. destruct H as (b & H).
        apply IH in H; [|lia].
        eapply suffix_consumed_trans; [|exact H]. now exists [c].
Qed.

Lemma parse_literal_consumed s v rest :
  parse_literal s = Some (v, rest) -> consumed s rest /\ is_array v = false.
Proof.
  unfold parse_literal.
  destruct (starts_with (str "true") s) eqn:E1.
  { intros [= <- <-]. apply starts_with_app in E1. split; [|reflexivity].
    eexists. split; [|exact E1]. discriminate. }
  destruct (starts_with (str "false") s) eqn:E2.
  { intros [= <- <-]. apply starts_with_app in E2. split; [|reflexivity].
    eexists. split; [|exact E2]. discriminate. }
  destruct (starts_with (str "null") s) eqn:E3.
  { intros [= <- <-]. apply starts_with_app in E3. split; [|reflexivity].
    eexists. split; [|exact E3]. discriminate. }
  destruct (parse_number s) as [[q r]|] eqn:E4; [|discriminate].
  intros [= <- <-]. split; [|reflexivity]. eapply parse_number_consumed; eauto.
Qed.

Lemma parse_value_S fuel s :
  parse_value (S fuel) s =
  match skip_ws s with
  | [] => Fail
  | c :: t =>
      if (c =? LBRACKET)%N then
        match skip_ws t with
        | [] => Fail
        | c' :: t' =>
            if (c' =? RBRACKET)%N then Ok (JArr []) t'
            else match parse_elements fuel [] t with
                 | Ok items rest => Ok (JArr items) rest
                 | Fail => Fail
                 | OutOfFuel => OutOfFuel
                 end
        end
      else if (c =? LBRACE)%N then
        match skip_ws t with
        | [] => Fail
        | c' :: t' =>
            if (c' =? RBRACE)%N then Ok (JObj []) t'
            else match parse_members fuel [] t with
                 | Ok members rest => Ok (JObj members) rest
                 | Fail => Fail
                 | OutOfFuel => OutOfFuel
                 end
        end
      else if (c =? QUOTE)%N then
        match parse_chars t with
        | Some (body, rest) => Ok (JStr body) rest
        | None => Fail
        end
      else
        match parse_literal (c :: t) with
        | Some (v, rest) => Ok v rest
        | None => Fail
        end
  end.
Proof. reflexivity. Qed.

Lemma parse_elements_S fuel acc s :
  parse_elements (S fuel) acc s =
  match parse_value fuel s with
  | Ok v rest =>
      match skip_ws rest with
      | [] => Fail
      | c :: t =>
          if (c =? COMMA)%N then parse_elements fuel (v :: acc) t
          else if (c =? RBRACKET)%N then Ok (rev (v :: acc)) t
          else Fail
      end
  | Fail => Fail
  | OutOfFuel => OutOfFuel
  end.
Proof. reflexivity. Qed.

Lemma parse_members_S fuel acc s :
  parse_members (S fuel) acc s =
  match skip_ws s with
  | [] => Fail
  | c :: t =>
      if (c =? QUOTE)%N then
        match parse_chars t with
        | None => Fail
        | Some (name, rest) =>
            match skip_ws rest with
            | [] => Fail
            | c2 :: t2 =>
                if (c2 =? COLON)%N then
                  match parse_value fuel t2 with
                  | Ok v rest2 =>
                      match skip_ws rest2 with
                      | [] => Fail
                      | c3 :: t3 =>
                          if (c3 =? COMMA)%N
                          then parse_members fuel (set_own acc name v) t3
                          else if (c3 =? RBRACE)%N
                          then Ok (set_own acc name v) t3
                          else Fail
                      end
                  | Fail => Fail
                  | OutOfFuel => OutOfFuel
                  end
                else Fail
            end
        end
      else Fail
  end.
Proof. reflexivity. Qed.

Lemma skip_ws_cons s c t : skip_ws s = c :: t -> exists a, s = a ++ c :: t.
Proof. intros E. destruct (skip_ws_suffix s) as (a & H). rewrite E in H. eauto. Qed.

Lemma parse_consumed fuel :
  (forall s v rest, parse_value fuel s = Ok v rest ->
     consumed s rest /\
     (is_array v = true -> exists a b, s = a ++ LBRACKET :: b ++ RBRACKET :: rest))
  /\
  (forall acc s items rest, parse_elements fuel acc s = Ok items rest ->
     exists b, s = b ++ RBRACKET :: rest)
  /\
  (forall acc s ms rest, parse_members fuel acc s = Ok ms rest ->
     exists b, s = b ++ RBRACE :: rest).
Proof.
  induction fuel as [|fuel (IHv & IHe & IHm)].
  { repeat split; intros; discriminate. }
  split; [|split].
  - intros s v rest. rewrite parse_value_S.
    destruct (skip_ws s) as [|c t] eqn:Es; [discriminate|].
    apply skip_ws_cons in Es. destruct Es as (a & ->).
    destruct (N.eqb_spec c LBRACKET) as [->|_].
    { destruct (skip_ws t) as [|c' t'] eqn:Et; [discriminate|].
      apply skip_ws_cons in Et. destruct Et as (b & Et).
      destruct (N.eqb_spec c' RBRACKET) as [->|_].
      - intros [= <- <-]. subst t. split.
        + exists (a ++ LBRACKET :: b ++ [RBRACKET]). split.
          * destruct a; discriminate.
          * list_eq.
        + intros _. exists a, b. reflexivity.
      - destruct (parse_elements fuel [] t) as [items r| |] eqn:Ep; try discriminate.
        intros [= <- <-]. apply IHe in Ep. destruct Ep as (b' & ->). split.
        + exists (a ++ LBRACKET :: b' ++ [RBRACKET]). split.
          * destruct a; discriminate.
          * list_eq.
        + intros _. exists a, b'. reflexivity. }
    destruct (N.eqb_spec c LBRACE) as [->|_].
    { destruct (skip_ws t) as [|c' t'] eqn:Et; [discriminate|].
      apply skip_ws_cons in Et. destruct Et as (b & Et).
      destruct (N.eqb_spec c' RBRACE) as [->|_].
      - intros [= <- <-]. subst t. split; [|discriminate].
        exists (a ++ LBRACE :: b ++ [RBRACE]). split.
        + destruct a; discriminate.
        + list_eq.
      - destruct (parse_members fuel [] t) as [ms r| |] eqn:Ep; try discriminate.
        intros [= <- <-]. apply IHm in Ep. destruct Ep as (b' & ->).
        split; [|discriminate].
        exists (a ++ LBRACE :: b' ++ [RBRACE]). split.
        + destruct a; discriminate.
        + list_eq. }
    destruct (c =? QUOTE)%N.
    { destruct (parse_chars t) as [[body r]|] eqn:Ep; [|discriminate].
      intros [= <- <-]. split; [|discriminate].
      apply (@parse_chars_consumed (length t)) in Ep; [|lia].
      eapply suffix_consumed_trans; [|exact Ep]. exists (a ++ [c]). list_eq. }
    destruct (parse_literal (c :: t)) as [[v' r]|] eqn:Ep; [|discriminate].
    intros [= <- <-]. apply parse_literal_consumed in Ep. destruct Ep as [Ep Ea].
    split; [|congruence].
    eapply suffix_consumed_trans; [|exact Ep]. now exists a.
  - intros acc s items rest. rewrite parse_elements_S.
    destruct (parse_value fuel s) as [v r| |] eqn:Ev; try discriminate.
    apply IHv in Ev. destruct Ev as [(a & _ & ->) _].
    destruct (skip_ws r) as [|c t] eqn:Er; [discriminate|].
    apply skip_ws_cons in Er. destruct Er as (a' & ->).
    destruct (N.eqb_spec c COMMA) as [->|_].
    + intros H. apply IHe in H. destruct H as (b & ->).
      exists (a ++ a' ++ COMMA :: b). list_eq.
    + destruct (N.eqb_spec c RBRACKET) as [->|_]; [|discriminate].
      intros [= <- <-]. exists (a ++ a'). list_eq.
  - intros acc s ms rest. rewrite parse_members_S.
    destruct (skip_ws s) as [|c t] eqn:Es; [discriminate|].
    apply skip_ws_cons in Es. destruct Es as (a & ->).
    destruct (c =? QUOTE)%N; [|discriminate].
    destruct (parse_chars t) as [[name r]|] eqn:Ep; [|discriminate].
    apply (@parse_chars_consumed (length t)) in Ep; [|lia].
    destruct Ep as (a1 & _ & ->).
    destruct (skip_ws r) as [|c2 t2] eqn:Er; [discriminate|].
    apply skip_ws_cons in Er. destruct Er as (a2 & ->).
    destruct (c2 =? COLON)%N; [|discriminate].
    destruct (parse_value fuel t2) as [v r2| |] eqn:Ev; try discriminate.
    apply IHv in Ev. destruct Ev as [(a3 & _ & ->) _].
    destruct (skip_ws r2) as [|c3 t3] eqn:Er2; [discriminate|].
    apply skip_ws_cons in Er2. destruct Er2 as (a4 & ->).
    destruct (N.eqb_spec c3 COMMA) as [->|_].
    + intros H. apply IHm in H. destruct H as (b & ->).
      exists (a ++ c :: a1 ++ a2 ++ c2 :: a3 ++ a4 ++ COMMA :: b).
      list_eq.
    + destruct (N.eqb_spec c3 RBRACE) as [->|_]; [|discriminate].
      intros [= <- <-].
      exists (a ++ c :: a1 ++ a2 ++ c2 :: a3 ++ a4).
      list_eq.
Qed.

Lemma skip_ws_length s : (length (skip_ws s) <= length s)%nat.
Proof. apply suffix_length, skip_ws_suffix. Qed.

Lemma parse_fuel fuel :
  (forall s, (2 * length s + 1 <= fuel)%nat -> parse_value fuel s <> OutOfFuel)
  /\
  (forall acc s, (2 * length s + 2 <= fuel)%nat ->
     parse_elements fuel acc s <> OutOfFuel)
  /\
  (forall acc s, (2 * length s + 2 <= fuel)%nat ->
     parse_members fuel acc s <> OutOfFuel).
Proof.
  induction fuel as [|fuel (IHv & IHe & IHm)].
  { repeat split; intros; lia. }
  split; [|split].
  - intros s Hf. rewrite parse_value_S.
    pose proof (skip_ws_length s) as Ls.
    destruct (skip_ws s) as [|c t]; [discriminate|]. simpl in Ls.
    destruct (c =? LBRACKET)%N.
    { destruct (skip_ws t) as [|c' t']; [discriminate|].
      destruct (c' =? RBRACKET)%N; [discriminate|].
      specialize (IHe [] t). destruct (parse_elements fuel [] t); try discriminate.
      intros _. apply IHe; [lia|reflexivity]. }
    destruct (c =? LBRACE)%N.
    { destruct (skip_ws t) as [|c' t']; [discriminate|].
      destruct (c' =? RBRACE)%N; [discriminate|].
      specialize (IHm [] t). destruct (parse_members fuel [] t); try discriminate.
      intros _. apply IHm; [lia|reflexivity]. }
    destruct (c =? QUOTE)%N.
    { destruct (parse_chars t) as [[? ?]|]; discriminate. }
    destruct (parse_literal (c :: t)) as [[? ?]|]; discriminate.
  - intros acc s Hf. rewrite parse_elements_S.
    pose proof (IHv s) as Hv.
    destruct (parse_value fuel s) as [v r| |] eqn:Ev;
      [|discriminate|intros _; apply Hv; [lia|reflexivity]].
    apply (proj1 (parse_consumed fuel)) in Ev. destruct Ev as [Ev _].
    apply consumed_length in Ev.
    pose proof (skip_ws_length r) as Lr.
    destruct (skip_ws r) as [|c t]; [discriminate|]. simpl in Lr.
    destruct (c =? COMMA)%N; [apply IHe; lia|].
    destruct (c =? RBRACKET)%N; discriminate.
  - intros acc s Hf. rewrite parse_members_S.
    pose proof (skip_ws_length s) as Ls.
    destruct (skip_ws s) as [|c t]; [discriminate|]. simpl in Ls.
    destruct (c =? QUOTE)%N; [|discriminate].
    destruct (parse_chars t) as [[name r]|] eqn:Ep; [|discriminate].
    apply (@parse_chars_consumed (length t)) in Ep; [|lia].
    apply consumed_length in Ep.
    pose proof (skip_ws_length r) as Lr.
    destruct (skip_ws r) as [|c2 t2]; [discriminate|]. simpl in Lr.
    destruct (c2 =? COLON)%N; [|discriminate].
    pose proof (IHv t2) as Hv.
    destruct (parse_value fuel t2) as [v r2| |] eqn:Ev;
      [|discriminate|intros _; apply Hv; [lia|reflexivity]].
    apply (proj1 (parse_consumed fuel)) in Ev. destruct Ev as [Ev _].
    apply consumed_length in Ev.
    pose proof (skip_ws_length r2) as Lr2.
    destruct (skip_ws r2) as [|c3 t3]; [discriminate|]. simpl in Lr2.
    destruct (c3 =? COMMA)%N; [apply IHm; lia|].
    destruct (c3 =? RBRACE)%N; discriminate.
Qed.

(** The fuel given by [JSON.parse] is never used up: a text is rejected
    only for its syntax. *)
Lemma parse_fuel_suffices text :
  parse_value (2 * length text + 1) text <> OutOfFuel.
Proof. apply (proj1 (parse_fuel _)). lia. Qed.

(** More fuel does not change a result. *)
Lemma parse_fuel_monotone fuel :
  (forall s, parse_value fuel s <> OutOfFuel ->
             parse_value (S fuel) s = parse_value fuel s) /\
  (forall acc s, parse_elements fuel acc s <> OutOfFuel ->
                 parse_elements (S fuel) acc s = parse_elements fuel acc s) /\
  (forall acc s, parse_members fuel acc s <> OutOfFuel ->
                 parse_members (S fuel) acc s = parse_members fuel acc s).
Proof.
  induction fuel as [|fuel (IHv & IHe & IHm)].
  { repeat split; intros; simpl in *; congruence. }
  split; [|split].
  - intros s. rewrite (parse_value_S (S fuel)), (parse_value_S fuel).
    destruct (skip_ws s) as [|c t]; [reflexivity|].
    destruct (c =? LBRACKET)%N.
    { destruct (skip_ws t) as [|c' t']; [reflexivity|].
      destruct (c' =? RBRACKET)%N; [reflexivity|].
      intros H. rewrite IHe; [reflexivity|].
      intros E. rewrite E in H. congruence. }
    destruct (c =? LBRACE)%N.
    { destruct (skip_ws t) as [|c' t']; [reflexivity|].
      destruct (c' =? RBRACE)%N; [reflexivity|].
      intros H. rewrite IHm; [reflexivity|].
      intros E. rewrite E in H. congruence. }
    reflexivity.
  - intros acc s. rewrite (parse_elements_S (S fuel)), (parse_elements_S fuel).
    intros H. rewrite IHv; [|intros E; rewrite E in H; congruence].
    destruct (parse_value fuel s) as [v r| |]; try reflexivity.
    destruct (skip_ws r) as [|c t]; [reflexivity|].
    destruct (c =? COMMA)%N; [|reflexivity]. now apply IHe.
  - intros acc s. rewrite (parse_members_S (S fuel)), (parse_members_S fuel).
    destruct (skip_ws s) as [|c t]; [reflexivity|].
    destruct (c =? QUOTE)%N; [|reflexivity].
    destruct (parse_chars t) as [[name r]|]; [|reflexivity].
    destruct (skip_ws r) as [|c2 t2]; [reflexivity|].
    destruct (c2 =? COLON)%N; [|reflexivity].
    intros H. rewrite IHv; [|intros E; rewrite E in H; congruence].
    destruct (parse_value fuel t2) as [v r2| |]; try reflexivity.
    destruct (skip_ws r2) as [|c3 t3]; [reflexivity|].
    destruct (c3 =? COMMA)%N; [|reflexivity]. now apply IHm.
Qed.

Lemma parse_fuel_irrelevant text extra :
  parse_value (extra + (2 * length text + 1)) text
  = parse_value (2 * length text + 1) text.
Proof.
  induction extra as [|extra IH]; [reflexivity|].
  cbn [Nat.add]. rewrite (proj1 (parse_fuel_monotone _)); [exact IH|].
  rewrite IH. apply parse_fuel_suffices.
Qed.

(** A text that parses to an array holds its two brackets. *)
Lemma parse_array_bracketed text v :
  JSON.parse text = Some v -> is_array v = true -> contains_bracketed text.
Proof.
  unfold JSON.parse.
  destruct (parse_value (2 * length text + 1) text) as [v' rest| |] eqn:E;
    try discriminate.
  destruct (skip_ws rest); [|discriminate]. intros [= <-] Ha.
  apply (proj1 (parse_consumed _)) in E. destruct E as [_ E].
  destruct (E Ha) as (a & b & ->). exists a, b, rest. reflexivity.
Qed.
(* ===================================================================== *)
(** * Handler: validation, the Evaluator's answer, parse failures *)
(* ===================================================================== *)

(** The handler on a body that is an object. *)
Lemma POST_object openai req members :
  JSON.parse (text req) = Some (JObj members) ->
  run (POST openai req) =
  run (try_catch
         match as_string (get_own members (str "outcomes")),
               as_string (get_own members (str "syllabus")),
               as_string (get_own members (str "set1")) with
         | Some _, Some _, Some set1 => evaluate openai set1
         | _, _, _ => ret (error_response "Invalid input data." 400)
         end
         (fun _ => ret (error_response "Evaluation failed." 500))).
Proof.
  intros Hp. unfold POST, run, try_catch, bind, req_json. rewrite Hp. reflexivity.
Qed.

Lemma POST_valid openai req o s set1 :
  request_fields req = Some (o, s, set1) ->
  run (POST openai req) =
  run (try_catch (evaluate openai set1)
         (fun _ => ret (error_response "Evaluation failed." 500))).
Proof.
  unfold request_fields.
  destruct (JSON.parse (text req)) as [body|] eqn:Hp; [|discriminate].
  destruct body; try discriminate.
  rewrite (POST_object openai _ Hp). cbn [get].
  destruct (as_string (get_own members (str "outcomes"))); [|discriminate].
  destruct (as_string (get_own members (str "syllabus"))); [|discriminate].
  destruct (as_string (get_own members (str "set1"))); [|discriminate].
  intros [= -> -> ->]. reflexivity.
Qed.

Lemma POST_answered openai req o s set1 m :
  request_fields req = Some (o, s, set1) ->
  answers openai set1 (Some m) ->
  run (POST openai req) =
  try_catch (report_from m)
    (fun _ => ret (error_response "Evaluation failed." 500))
    [create_params (questions set1)].
Proof.
  intros Hreq (others & Hans).
  erewrite POST_valid by eassumption.
  unfold run, try_catch, evaluate, bind, create. rewrite Hans. reflexivity.
Qed.

(** Whatever is thrown inside the handler is caught at its boundary. *)
Lemma POST_never_throws openai req e : fst (run (POST openai req)) <> Thrown e.
Proof.
  unfold POST, run, try_catch.
  match goal with
  | |- context [match ?b [] with _ => _ end] =>
      destruct (b []) as [[r|e'|] calls]
  end; cbn; discriminate.
Qed.

Lemma POST_invalid openai req :
  request_fields req = None -> snd (run (POST openai req)) = [].
Proof.
  unfold request_fields.
  destruct (JSON.parse (text req)) as [body|] eqn:Hp.
  - destruct body;
      try (intros _; unfold POST, run, try_catch, bind, req_json;
           rewrite Hp; reflexivity).
    rewrite (POST_object openai _ Hp). cbn [get].
    destruct (as_string (get_own members (str "outcomes")));
    destruct (as_string (get_own members (str "syllabus")));
    destruct (as_string (get_own members (str "set1")));
      try discriminate; reflexivity.
  - intros _. unfold POST, run, try_catch, bind, req_json. rewrite Hp.
    reflexivity.
Qed.

Lemma POST_invalid_body openai req body :
  JSON.parse (text req) = Some body -> body <> JNull ->
  request_fields req = None ->
  fst (run (POST openai req)) = Value (error_response "Invalid input data." 400).
Proof.
  intros Hp Hn. unfold request_fields. rewrite Hp.
  destruct body; try congruence;
    try (intros _; unfold POST, run, try_catch, bind, req_json;
         rewrite Hp; reflexivity).
  rewrite (POST_object openai _ Hp). cbn [get].
  destruct (as_string (get_own members (str "outcomes")));
  destruct (as_string (get_own members (str "syllabus")));
  destruct (as_string (get_own members (str "set1")));
    try discriminate; reflexivity.
Qed.

(** C9, as stated, fails on a body that is the JSON value null: its fields
    are missing, reading them throws, and the answer is the generic failure
    of the outer boundary (status 500), not the input-validation error. *)
Lemma null_body_generic_failure :
  request_fields null_request = None /\
  run (POST (stub (Some {| content := Some (str "[]") |})) null_request)
  = (Value (error_response "Evaluation failed." 500), []).
Proof. split; reflexivity. Qed.

(** C9, amended. For every request that does not pass validation (a field
    among [outcomes], [syllabus], [set1] missing or not a string, or a body
    without fields to read) no call to the Evaluator is made; when the body
    is a JSON value other than null the answer is the input-validation
    error (status 400). *)
Theorem invalid_input_rejected :
  forall (openai : Evaluator) (req : Request),
    request_fields req = None ->
    snd (run (POST openai req)) = [] /\
    (forall body, JSON.parse (text req) = Some body -> body <> JNull ->
       fst (run (POST openai req))
       = Value (error_response "Invalid input data." 400)).
Proof.
  intros openai req H. split; [now apply POST_invalid|].
  intros body Hp Hn. now apply (POST_invalid_body openai _ Hp).
Qed.

Lemma invalid_input_rejected_witness :
  snd (run (POST (stub (Some {| content := Some (str "[]") |}))
              request_without_outcomes)) = [] /\
  fst (run (POST (stub (Some {| content := Some (str "[]") |}))
              request_without_outcomes))
  = Value (error_response "Invalid input data." 400).
Proof.
  destruct (@invalid_input_rejected
              (stub (Some {| content := Some (str "[]") |}))
              request_without_outcomes) as [A B].
  - vm_compute. reflexivity.
  - split; [exact A|].
    apply (B (JObj [ (str "syllabus", JStr (str "Unit 1"));
                     (str "set1", JStr (str "What is 2+2?")) ])).
    + vm_compute. reflexivity.
    + discriminate.
Defined.

(** C2, as stated, fails: a message whose content is missing takes the
    fallback ["[]"] and is answered with a report (status 200). *)
Lemma missing_content_yields_report :
  answers (stub (Some {| content := None |}))
    (str "What is 2+2?" ++ [LF; LF] ++ str "Explain photosynthesis.")
    (Some {| content := None |}) /\
  fst (run (POST (stub (Some {| content := None |})) sample_request))
  = Value (json_response (ReportBody (aggregate [])) 200).
Proof.
  split.
  - exists []. reflexivity.
  - vm_compute. reflexivity.
Qed.

(** C2, amended. When the Evaluator resolves to no completion, to a
    completion without choices, or to a first choice without message, the
    handler reports the service failure (status 500, No response from AI).
    When the message is there and its content is missing or empty, the
    handler goes on with the text of the empty array and answers with the
    report over zero evaluations (status 200). *)
Theorem missing_message_or_content :
  forall (openai : Evaluator) (req : Request) (o s set1 : jsstring),
    request_fields req = Some (o, s, set1) ->
    ((openai (create_params (questions set1)) = Resolved None \/
      openai (create_params (questions set1))
      = Resolved (Some {| choices := None |}) \/
      answers openai set1 None) ->
     fst (run (POST openai req))
     = Value (error_response "No response from AI." 500))
    /\
    (forall m : Message,
       answers openai set1 (Some m) ->
       content m = None \/ content m = Some [] ->
       fst (run (POST openai req))
       = Value (json_response (ReportBody (aggregate [])) 200)).
Proof.
  intros openai req o s set1 Hreq. split.
  - intros H. erewrite POST_valid by eassumption.
    unfold run, try_catch, evaluate, bind, create.
    destruct H as [H|[H|(others & H)]]; rewrite H; reflexivity.
  - intros m Hans Hc. erewrite POST_answered by eassumption.
    unfold report_from. destruct Hc as [-> | ->]; reflexivity.
Qed.

Lemma missing_message_or_content_witness :
  fst (run (POST (stub None) sample_request))
  = Value (error_response "No response from AI." 500).
Proof.
  refine (proj1 (@missing_message_or_content (stub None) sample_request
                   (str "CO1") (str "Unit 1")
                   (str "What is 2+2?" ++ [LF; LF]
                    ++ str "Explain photosynthesis.") _) _).
  - vm_compute. reflexivity.
  - right. right. exists []. reflexivity.
Defined.

Lemma POST_parse_error openai req o s set1 raw :
  request_fields req = Some (o, s, set1) ->
  answers openai set1 (Some {| content := Some raw |}) ->
  raw <> [] ->
  JSON.parse (extract raw) = None ->
  fst (run (POST openai req))
  = Value (error_response "AI response could not be parsed." 500).
Proof.
  intros Hreq Hans Hne. erewrite POST_answered by eassumption.
  unfold report_from. cbn [content]. destruct raw as [|c t]; [contradiction|].
  intros ->. reflexivity.
Qed.

Lemma POST_not_array openai req o s set1 raw v :
  request_fields req = Some (o, s, set1) ->
  answers openai set1 (Some {| content := Some raw |}) ->
  raw <> [] ->
  JSON.parse (extract raw) = Some v -> is_array v = false ->
  fst (run (POST openai req)) = Value (error_response "Evaluation failed." 500).
Proof.
  intros Hreq Hans Hne. erewrite POST_answered by eassumption.
  unfold report_from. cbn [content]. destruct raw as [|c t]; [contradiction|].
  intros -> Hv. destruct v; try discriminate; reflexivity.
Qed.

(** C3, as stated, fails: the candidate [{}] is valid JSON but no array,
    and the answer is the generic failure of the outer boundary, not the
    parse error. *)
Lemma non_array_not_parse_error :
  JSON.parse (extract (str "{}")) = Some (JObj []) /\
  fst (run (POST (stub (Some {| content := Some (str "{}") |})) sample_request))
  = Value (error_response "Evaluation failed." 500) /\
  fst (run (POST (stub (Some {| content := Some (str "{}") |})) sample_request))
  <> Value (error_response "AI response could not be parsed." 500).
Proof.
  split; [|split].
  - vm_compute. reflexivity.
  - vm_compute. reflexivity.
  - vm_compute. discriminate.
Qed.

(** C3, amended. When [JSON.parse] rejects the extracted candidate the
    handler answers with the parse error (status 500, AI response could not
    be parsed). When the candidate parses to a value that is no array, the
    fault of iterating it is caught at the outer boundary and the answer is
    the generic failure (status 500, Evaluation failed). In neither case,
    nor in any other, does a thrown fault leave the handler. *)
Theorem parse_failure_responses :
  forall (openai : Evaluator) (req : Request) (o s set1 raw : jsstring),
    request_fields req = Some (o, s, set1) ->
    answers openai set1 (Some {| content := Some raw |}) ->
    raw <> [] ->
    (JSON.parse (extract raw) = None ->
     fst (run (POST openai req))
     = Value (error_response "AI response could not be parsed." 500))
    /\
    (forall v, JSON.parse (extract raw) = Some v -> is_array v = false ->
     fst (run (POST openai req))
     = Value (error_response "Evaluation failed." 500))
    /\
    (forall e, fst (run (POST openai req)) <> Thrown e).
Proof.
  intros openai req o s set1 raw Hreq Hans Hne.
  split; [|split]; [| |intros e; apply POST_never_throws].
  - now apply POST_parse_error with (o := o) (s := s) (set1 := set1).
  - intros v. now apply POST_not_array with (o := o) (s := s) (set1 := set1).
Qed.

Lemma parse_failure_responses_witness :
  fst (run (POST (stub (Some {| content := Some (str "[{bad json") |}))
              sample_request))
  = Value (error_response "AI response could not be parsed." 500).
Proof.
  refine (proj1 (@parse_failure_responses
                   (stub (Some {| content := Some (str "[{bad json") |}))
                   sample_request (str "CO1") (str "Unit 1")
                   (str "What is 2+2?" ++ [LF; LF]
                    ++ str "Explain photosynthesis.")
                   (str "[{bad json") _ _ _) _).
  - vm_compute. reflexivity.
  - exists []. reflexivity.
  - discriminate.
  - vm_compute. reflexivity.
Defined.

(** C8, as stated, fails downstream of the extractor. The text [42] holds
    no bracketed part and is returned as it is, yet the answer is not the
    parse error: [JSON.parse] accepts it, iterating the number throws, and
    the generic failure is sent. The empty text holds no bracketed part
    either, and the handler puts the text of the empty array in its place
    before the extractor runs: the answer is a report over zero
    evaluations, with status 200. *)
Lemma unbracketed_not_parse_failure :
  (~ contains_bracketed (strip_fences (str "42")) /\
   extract (str "42") = str "42" /\
   fst (run (POST (stub (Some {| content := Some (str "42") |})) sample_request))
   = Value (error_response "Evaluation failed." 500) /\
   fst (run (POST (stub (Some {| content := Some (str "42") |})) sample_request))
   <> Value (error_response "AI response could not be parsed." 500)) /\
  (~ contains_bracketed (strip_fences []) /\
   fst (run (POST (stub (Some {| content := Some [] |})) sample_request))
   = Value (json_response (ReportBody (aggregate [])) 200)).
Proof.
  split; [split; [|split; [|split]]|split].
  - apply not_bracketed. reflexivity.
  - reflexivity.
  - vm_compute. reflexivity.
  - vm_compute. discriminate.
  - apply not_bracketed. reflexivity.
  - vm_compute. reflexivity.
Qed.

(** C8, amended. When the text left after the removal of the fence markers
    and the trim holds no bracketed part, the extractor returns that text as
    it is and does not put the empty array in its place. Downstream, when
    the content of the message is not empty, such a text never yields a
    report: either [JSON.parse] rejects it and the answer is the parse
    error, or it is a JSON value, which is then no array, and the answer is
    the generic failure. When the content is empty, the handler has put the
    text of the empty array in its place before the extractor runs, and the
    answer is the report over zero evaluations (status 200). *)
Theorem extract_unbracketed :
  forall raw : jsstring,
    ~ contains_bracketed (strip_fences raw) ->
    extract raw = strip_fences raw /\
    extract raw <> str "[]" /\
    (forall (openai : Evaluator) (req : Request) (o s set1 : jsstring),
       request_fields req = Some (o, s, set1) ->
       answers openai set1 (Some {| content := Some raw |}) ->
       (raw <> [] ->
        (JSON.parse (extract raw) = None ->
         fst (run (POST openai req))
         = Value (error_response "AI response could not be parsed." 500)) /\
        (forall v, JSON.parse (extract raw) = Some v ->
           is_array v = false /\
           fst (run (POST openai req))
           = Value (error_response "Evaluation failed." 500)) /\
        (forall report,
           fst (run (POST openai req))
           <> Value (json_response (ReportBody report) 200))) /\
       (raw = [] ->
        fst (run (POST openai req))
        = Value (json_response (ReportBody (aggregate [])) 200))).
Proof.
  intros raw H.
  assert (E : extract raw = strip_fences raw).
  { unfold extract. now rewrite (match_array_none H). }
  split; [exact E|]. split.
  - rewrite E. intros E'. apply H. rewrite E'. exists [], [], []. reflexivity.
  - intros openai req o s set1 Hreq Hans. split.
    + intros Hne.
      assert (A : forall v, JSON.parse (extract raw) = Some v ->
                            is_array v = false).
      { intros v Hp. destruct (is_array v) eqn:Ha; [|reflexivity].
        exfalso. apply H. rewrite <- E. exact (parse_array_bracketed _ Hp Ha). }
      assert (P : JSON.parse (extract raw) = None ->
                  fst (run (POST openai req))
                  = Value (error_response
                             "AI response could not be parsed." 500)).
      { intros Hp.
        now apply POST_parse_error
          with (o := o) (s := s) (set1 := set1) (raw := raw). }
      assert (F : forall v, JSON.parse (extract raw) = Some v ->
                  fst (run (POST openai req))
                  = Value (error_response "Evaluation failed." 500)).
      { intros v Hp.
        apply POST_not_array
          with (o := o) (s := s) (set1 := set1) (raw := raw) (v := v);
          auto. }
      split; [exact P|].
      split; [intros v Hp; split; [exact (A v Hp)|exact (F v Hp)]|].
      intros report.
      destruct (JSON.parse (extract raw)) as [v|] eqn:Hp.
      * rewrite (F v eq_refl). discriminate.
      * rewrite (P eq_refl). discriminate.
    + intros ->. erewrite POST_answered by eassumption. reflexivity.
Qed.

Lemma extract_unbracketed_witness :
  extract (fence_json ++ str "I cannot answer that." ++ fence)
  = str "I cannot answer that." /\
  extract (fence_json ++ str "I cannot answer that." ++ fence) <> str "[]" /\
  fst (run (POST (stub (Some {| content :=
                                  Some (fence_json
                                        ++ str "I cannot answer that."
                                        ++ fence) |}))
              sample_request))
  = Value (error_response "AI response could not be parsed." 500).
Proof.
  destruct (@extract_unbracketed
              (fence_json ++ str "I cannot answer that." ++ fence))
    as (A & B & C).
  - apply not_bracketed. reflexivity.
  - split; [exact A|]. split; [exact B|].
    refine (proj1 (proj1 (C (stub (Some {| content :=
                                             Some (fence_json
                                                   ++ str "I cannot answer that."
                                                   ++ fence) |}))
                            sample_request (str "CO1") (str "Unit 1")
                            (str "What is 2+2?" ++ [LF; LF]
                             ++ str "Explain photosynthesis.") _ _) _) _).
    + vm_compute. reflexivity.
    + exists []. reflexivity.
    + discriminate.
    + vm_compute. reflexivity.
Defined.

(* ===================================================================== *)
(** * Segmenter and sanitizer: blank texts, single questions, glyphs *)
(* ===================================================================== *)

Lemma questions_chunks text :
  questions text
  = map sanitize (filter (fun c => negb (blank c))
                    (split_from re_blank_lines [] text)).
Proof. unfold questions. rewrite split_blank_lines. apply filter_sanitized. Qed.

Lemma split_from_chunks text :
  exists seps,
    length (split_from re_blank_lines [] text) = S (length seps) /\
    interleave (split_from re_blank_lines [] text) seps = text /\
    Forall blank_line_run seps.
Proof.
  destruct (@split_from_spec (length text) text []) as (A & _).
  - lia.
  - intros a b Ea. destruct a; destruct b; try discriminate. congruence.
  - exact A.
Qed.

Lemma blank_line_run_blank sep : blank_line_run sep -> blank sep = true.
Proof.
  intros (ws & -> & B). cbn [blank forallb].
  change (forallb is_space (ws ++ [LF])) with (blank (ws ++ [LF])).
  rewrite blank_app, B. reflexivity.
Qed.

Lemma blank_interleave chunks :
  forall seps,
    length chunks = S (length seps) -> Forall blank_line_run seps ->
    blank (interleave chunks seps) = forallb blank chunks.
Proof.
  induction chunks as [|c cs IH]; intros seps L F; [discriminate|].
  destruct seps as [|s ss].
  - destruct cs; [|discriminate]. cbn [interleave forallb].
    now rewrite andb_true_r.
  - inversion F as [|? ? Fs Fss]; subst.
    rewrite interleave_cons, !blank_app, (blank_line_run_blank Fs).
    cbn [forallb andb]. rewrite IH; [reflexivity| |assumption].
    simpl in L. lia.
Qed.

Lemma filter_nil_forallb A (p : A -> bool) l :
  filter (fun x => negb (p x)) l = [] <-> forallb p l = true.
Proof.
  induction l as [|x l IH]; [easy|]. cbn [filter forallb].
  destruct (p x); cbn [negb andb]; [exact IH|]. split; discriminate.
Qed.

Lemma questions_blank text : questions text = [] <-> blank text = true.
Proof.
  rewrite questions_chunks.
  destruct (split_from_chunks text) as (seps & L & I & F).
  rewrite <- I at 2. rewrite (blank_interleave _ L F).
  rewrite <- filter_nil_forallb. split.
  - intros H. now apply map_eq_nil in H.
  - intros ->. reflexivity.
Qed.

(** X1. The segmenter returns no question exactly when the text is
    empty or white space only; any other text yields at least one. *)
Theorem questions_nil_iff_blank :
  forall text : jsstring, questions text = [] <-> blank text = true.
Proof. exact questions_blank. Qed.

(** X2. A text in which the separator [/\n\s*\n/] matches nowhere, and
    which is not white space only, is one question: the sanitized text
    itself, with its single line feeds and its surrounding white space. *)
Theorem questions_single :
  forall text : jsstring,
    match_ re_blank_lines text = None -> blank text = false ->
    questions text = [sanitize text].
Proof.
  intros text Hm Hb. rewrite questions_chunks, (@split_from_unmatched _ _ [] Hm).
  cbn [rev app filter]. rewrite Hb. reflexivity.
Qed.

Lemma questions_single_witness :
  questions (str " (a) Define osmosis." ++ [LF] ++ str "(b) Give an example.")
  = [str " (a) Define osmosis." ++ [LF] ++ str "(b) Give an example."].
Proof.
  apply (@questions_single
           (str " (a) Define osmosis." ++ [LF] ++ str "(b) Give an example.")).
  - vm_compute. reflexivity.
  - vm_compute. reflexivity.
Defined.

(** ** Sanitizing and splitting commute *)

Lemma straighten_LF c : char_eqb (straighten c) LF = char_eqb c LF.
Proof.
  unfold straighten.
  destruct (N.eqb_spec c BULLET) as [->|]; [reflexivity|].
  destruct (N.eqb_spec c LSQUO) as [->|]; [reflexivity|].
  destruct (N.eqb_spec c RSQUO) as [->|]; [reflexivity|].
  destruct (N.eqb_spec c LDQUO) as [->|]; [reflexivity|].
  destruct (N.eqb_spec c RDQUO) as [->|]; [reflexivity|].
  reflexivity.
Qed.

Lemma take_spaces_straighten s :
  take_spaces (map straighten s) = map straighten (take_spaces s).
Proof.
  induction s as [|c t IH]; [reflexivity|]. cbn [map take_spaces].
  rewrite is_space_straighten. destruct (is_space c); [|reflexivity].
  cbn [map]. now rewrite IH.
Qed.

Lemma last_index_straighten s :
  last_index LF (map straighten s) = last_index LF s.
Proof.
  induction s as [|c t IH]; [reflexivity|]. cbn [map last_index].
  rewrite IH, straighten_LF. reflexivity.
Qed.

Lemma re_blank_lines_straighten s :
  re_blank_lines (map straighten s) = re_blank_lines s.
Proof.
  destruct s as [|c t]; [reflexivity|]. cbn [map re_blank_lines].
  rewrite straighten_LF, take_spaces_straighten, last_index_straighten.
  reflexivity.
Qed.

Lemma split_from_straighten n :
  forall s cur, (length s <= n)%nat ->
    split_from re_blank_lines (map straighten cur) (map straighten s)
    = map (map straighten) (split_from re_blank_lines cur s).
Proof.
  induction n as [|n IH]; intros s cur Hlen.
  - destruct s; [|simpl in Hlen; lia]. cbn [map].
    rewrite !split_from_nil. cbn [map]. now rewrite map_rev.
  - destruct s as [|c t].
    { cbn [map]. rewrite !split_from_nil. cbn [map]. now rewrite map_rev. }
    cbn [map]. rewrite !split_from_cons.
    change (straighten c :: map straighten t) with (map straighten (c :: t)).
    rewrite re_blank_lines_straighten.
    destruct (re_blank_lines (c :: t)) as [[|k]|] eqn:E.
    + destruct (re_blank_lines_some _ E) as (? & ? & _ & _ & ? & _).
      discriminate.
    + cbn [map]. rewrite skipn_map, map_rev. f_equal.
      apply (IH (skipn k t) []).
      pose proof (length_skipn k t). simpl in Hlen. lia.
    + apply (IH t (c :: cur)). simpl in Hlen. lia.
Qed.

Lemma split_sanitize text :
  split re_blank_lines (sanitize text)
  = map sanitize (split re_blank_lines text).
Proof.
  rewrite !split_blank_lines, sanitize_map.
  change (@nil char) with (map straighten []) at 1.
  rewrite (@split_from_straighten (length text) text [] (le_n _)).
  apply map_ext. intros c. now rewrite sanitize_map.
Qed.

Lemma sanitize_twice x : sanitize (sanitize x) = sanitize x.
Proof.
  rewrite !sanitize_map, map_map. apply map_ext, straighten_idempotent.
Qed.

(** X3. Sanitizing and splitting commute: the chunks of the sanitized
    text are the sanitized chunks of the text, since no replaced glyph and
    no replacement is white space. Hence a text sanitized beforehand gives
    the same questions. *)
Theorem sanitize_commutes_with_split :
  forall text : jsstring,
    split re_blank_lines (sanitize text)
    = map sanitize (split re_blank_lines text) /\
    questions (sanitize text) = questions text.
Proof.
  intros text. split; [apply split_sanitize|].
  unfold questions. rewrite split_sanitize, map_map. f_equal.
  apply map_ext, sanitize_twice.
Qed.

(** ** What the sanitizer leaves *)

Lemma straighten_not_glyph c : ~ In (straighten c) glyphs.
Proof.
  unfold straighten, glyphs.
  destruct (N.eqb_spec c BULLET) as [->|].
  { cbn. intros [H|[H|[H|[H|[H|[]]]]]]; discriminate. }
  destruct (N.eqb_spec c LSQUO) as [->|].
  { cbn. intros [H|[H|[H|[H|[H|[]]]]]]; discriminate. }
  destruct (N.eqb_spec c RSQUO) as [->|].
  { cbn. intros [H|[H|[H|[H|[H|[]]]]]]; discriminate. }
  destruct (N.eqb_spec c LDQUO) as [->|].
  { cbn. intros [H|[H|[H|[H|[H|[]]]]]]; discriminate. }
  destruct (N.eqb_spec c RDQUO) as [->|].
  { cbn. intros [H|[H|[H|[H|[H|[]]]]]]; discriminate. }
  cbn. intros [H|[H|[H|[H|[H|[]]]]]]; congruence.
Qed.

Lemma straighten_fixed c : ~ In c glyphs -> straighten c = c.
Proof.
  unfold straighten, glyphs. intros H.
  destruct (N.eqb_spec c BULLET) as [->|]; [exfalso; apply H; cbn; auto|].
  destruct (N.eqb_spec c LSQUO) as [->|]; [exfalso; apply H; cbn; auto|].
  destruct (N.eqb_spec c RSQUO) as [->|]; [exfalso; apply H; cbn; auto|].
  destruct (N.eqb_spec c LDQUO) as [->|]; [exfalso; apply H; cbn; auto|].
  destruct (N.eqb_spec c RDQUO) as [->|]; [exfalso; apply H; cbn; auto 6|].
  reflexivity.
Qed.

(** X4. The sanitizer keeps the length of the text, leaves none of the
    five glyphs (bullet, curly single and double quotes) in its result, and
    changes nothing in a text without them. No question returned by the
    segmenter holds such a glyph. *)
Theorem sanitize_leaves_no_glyph :
  (forall txt : jsstring,
     length (sanitize txt) = length txt /\
     (forall c, In c (sanitize txt) -> ~ In c glyphs) /\
     ((forall c, In c txt -> ~ In c glyphs) -> sanitize txt = txt))
  /\
  (forall (set1 q : jsstring) (c : char),
     In q (questions set1) -> In c q -> ~ In c glyphs).
Proof.
  split.
  - intros txt. rewrite sanitize_map. split; [apply length_map|]. split.
    + intros c Hc. apply in_map_iff in Hc. destruct Hc as (x & <- & _).
      apply straighten_not_glyph.
    + intros H. rewrite <- (map_id txt) at 2. apply map_ext_in.
      intros c Hc. apply straighten_fixed, H, Hc.
  - intros set1 q c Hq Hc. unfold questions in Hq.
    apply filter_In in Hq. destruct Hq as (Hq & _).
    apply in_map_iff in Hq. destruct Hq as (x & <- & _).
    rewrite sanitize_map in Hc. apply in_map_iff in Hc.
    destruct Hc as (y & <- & _). apply straighten_not_glyph.
Qed.

Lemma sanitize_leaves_no_glyph_witness :
  sanitize (str "Define osmosis.") = str "Define osmosis.".
Proof.
  apply (proj1 sanitize_leaves_no_glyph (str "Define osmosis.")).
  intros c Hc Hg. cbn in Hc, Hg.
  repeat (destruct Hg as [Hg|Hg]; [subst c; intuition discriminate|]).
  exact Hg.
Defined.

(* ===================================================================== *)
(** * Prompt: the numbering of the questions *)
(* ===================================================================== *)

Lemma join_snoc sep l x :
  join sep (l ++ [x]) = match l with
                        | [] => x
                        | _ :: _ => join sep l ++ sep ++ x
                        end.
Proof.
  induction l as [|a l IH]; [reflexivity|].
  destruct l as [|b l]; [reflexivity|].
  change (join sep ((a :: b :: l) ++ [x]))
    with (a ++ sep ++ join sep ((b :: l) ++ [x])).
  rewrite IH. change (join sep (a :: b :: l)) with (a ++ sep ++ join sep (b :: l)).
  rewrite <- !app_assoc. reflexivity.
Qed.

Lemma numbered_snoc qs :
  forall i q,
    numbered i (qs ++ [q])
    = numbered i qs ++ [decimal_of_nat (i + length qs + 1) ++ str ". " ++ q].
Proof.
  induction qs as [|a qs IH]; intros i q; cbn [app numbered length].
  - now rewrite Nat.add_0_r.
  - rewrite IH.
    replace (S i + length qs + 1)%nat with (i + S (length qs) + 1)%nat by lia.
    reflexivity.
Qed.

Lemma numbered_nil i qs : numbered i qs = [] -> qs = [].
Proof. destruct qs; [reflexivity|discriminate]. Qed.

Lemma join_nil sep l : (forall x, In x l -> x <> []) -> join sep l = [] -> l = [].
Proof.
  destruct l as [|a l]; [reflexivity|]. intros H E. exfalso.
  apply (H a (or_introl eq_refl)).
  destruct l; [exact E|]. cbn [join] in E. now apply app_eq_nil in E.
Qed.

Lemma numbered_items i qs x : In x (numbered i qs) -> x <> [].
Proof.
  revert i. induction qs as [|q qs IH]; intros i; [intros []|].
  cbn [numbered]. intros [<-|H]; [|exact (IH _ H)].
  intros E. apply app_eq_nil in E. destruct E as [_ E]. discriminate.
Qed.

Lemma userPrompt_nil qs : userPrompt qs = [] <-> qs = [].
Proof.
  split; [|intros ->; reflexivity]. unfold userPrompt. intros E.
  apply join_nil in E; [now apply numbered_nil in E|].
  intros x. apply numbered_items.
Qed.

Lemma join_occurs sep l x : In x l -> occurs x (join sep l).
Proof.
  induction l as [|a l IH]; [intros []|]. intros [->|H].
  - destruct l as [|b l].
    + exists [], []. cbn [join app]. now rewrite app_nil_r.
    + exists [], (sep ++ join sep (b :: l)). reflexivity.
  - destruct l as [|b l]; [destruct H|].
    destruct (IH H) as (u & v & E). exists (a ++ sep ++ u), v.
    change (join sep (a :: b :: l)) with (a ++ sep ++ join sep (b :: l)).
    rewrite E, <- !app_assoc. reflexivity.
Qed.

Lemma numbered_occurs qs :
  forall i q, In q qs -> exists item, In item (numbered i qs) /\ occurs q item.
Proof.
  induction qs as [|a qs IH]; intros i q; [intros []|]. intros [->|H].
  - exists (decimal_of_nat (i + 1) ++ str ". " ++ q). split; [now left|].
    exists (decimal_of_nat (i + 1) ++ str ". "), [].
    rewrite app_nil_r, <- app_assoc. reflexivity.
  - destruct (IH (S i) q H) as (item & Hi & Ho). exists item.
    split; [now right|exact Ho].
Qed.

(** X5. The user prompt numbers the questions from 1 and puts one line
    feed between the items: it is empty exactly when there is no question,
    the item of a single question [q] is [1. q], and one more question
    adds a line feed, the next number, a full stop, a space and the
    question to the prompt of the others. Every question occurs in the
    prompt as it is. *)
Theorem userPrompt_numbering :
  (forall qs : list jsstring, userPrompt qs = [] <-> qs = []) /\
  (forall q : jsstring, userPrompt [q] = str "1. " ++ q) /\
  (forall (qs : list jsstring) (q : jsstring),
     qs <> [] ->
     userPrompt (qs ++ [q])
     = userPrompt qs ++ [LF] ++ decimal_of_nat (length qs + 1) ++ str ". " ++ q)
  /\
  (forall (qs : list jsstring) (q : jsstring),
     In q qs -> occurs q (userPrompt qs)).
Proof.
  split; [exact userPrompt_nil|]. split; [reflexivity|]. split.
  - intros qs q Hne. unfold userPrompt. rewrite numbered_snoc, join_snoc.
    destruct qs as [|a qs]; [contradiction|]. reflexivity.
  - intros qs q H. unfold userPrompt.
    destruct (numbered_occurs qs 0 q H) as (item & Hi & (u & v & ->)).
    destruct (join_occurs [LF] _ _ Hi) as (u' & v' & ->).
    exists (u' ++ u), (v ++ v'). rewrite <- !app_assoc. reflexivity.
Qed.

Lemma userPrompt_numbering_witness :
  userPrompt ([str "What is 2+2?"] ++ [str "Explain photosynthesis."])
  = userPrompt [str "What is 2+2?"] ++ [LF] ++ decimal_of_nat (1 + 1)
    ++ str ". " ++ str "Explain photosynthesis.".
Proof.
  apply (proj1 (proj2 (proj2 userPrompt_numbering))
           [str "What is 2+2?"] (str "Explain photosynthesis.")).
  discriminate.
Defined.

(* ===================================================================== *)
(** * Extractor: what the candidate looks like *)
(* ===================================================================== *)

(** ** Matching a literal *)

Lemma literal_at_exact p s :
  literal_at false p s = true <-> exists b, s = p ++ b.
Proof.
  revert s. induction p as [|a p IH]; intros s.
  - split; [exists s; reflexivity|reflexivity].
  - destruct s as [|c s]; cbn [literal_at].
    + split; [discriminate|intros (b & H); discriminate].
    + rewrite andb_true_iff, IH. split.
      * intros (E & b & ->). destruct (char_eqb_spec a c) as [->|]; [|discriminate].
        exists b. reflexivity.
      * intros (b & [= -> ->]). split; [|exists b; reflexivity].
        destruct (char_eqb_spec a a); congruence.
Qed.

Lemma match_none_suffix (re : matcher) a s :
  match_ re (a ++ s) = None -> match_ re s = None.
Proof.
  induction a as [|c a IH]; [easy|]. cbn [app match_].
  destruct (re (c :: a ++ s)); [discriminate|]. exact IH.
Qed.

Lemma match_none_head (re : matcher) s : match_ re s = None -> re s = None.
Proof. destruct s; cbn [match_]; destruct (re _); congruence. Qed.

Lemma match_literal_none p s :
  p <> [] -> (match_ (literal false p) s = None <-> ~ occurs p s).
Proof.
  intros Hp. split.
  - intros H (a & b & ->). apply match_none_suffix, match_none_head in H.
    unfold literal in H.
    destruct (literal_at false p (p ++ b)) eqn:E; [discriminate|].
    assert (literal_at false p (p ++ b) = true) as E'
      by (apply literal_at_exact; exists b; reflexivity).
    congruence.
  - induction s as [|c t IH]; intros H.
    + cbn [match_]. unfold literal. destruct p; [congruence|reflexivity].
    + cbn [match_]. unfold literal at 1.
      destruct (literal_at false p (c :: t)) eqn:E.
      * exfalso. apply H. apply literal_at_exact in E. destruct E as (b & E).
        exists [], b. exact E.
      * apply IH. intros (a & b & ->). apply H. exists (c :: a), b. reflexivity.
Qed.

Lemma replace_all_unmatched (re : matcher) by_ s :
  match_ re s = None -> replace_all re by_ s = s.
Proof.
  induction s as [|c t IH]; intros H.
  - rewrite replace_all_nil. cbn [match_] in H. destruct (re []); congruence.
  - rewrite replace_all_cons. cbn [match_] in H.
    destruct (re (c :: t)); [discriminate|]. now rewrite IH.
Qed.

Lemma occurs_within p u s v : occurs p s -> occurs p (u ++ s ++ v).
Proof.
  intros (a & b & ->). exists (u ++ a), (b ++ v).
  rewrite <- !app_assoc. reflexivity.
Qed.

(** ** Fence markers *)

Lemma fence_at s : literal_at false fence s = (3 <=? ticks s)%nat.
Proof.
  unfold fence.
  destruct s as [|a [|b [|c s]]]; cbn [literal_at ticks]; unfold char_eqb;
    try rewrite !(N.eqb_sym BACKTICK); try reflexivity.
  - destruct (a =? BACKTICK)%N; reflexivity.
  - destruct (a =? BACKTICK)%N; [|reflexivity].
    destruct (b =? BACKTICK)%N; reflexivity.
  - destruct (a =? BACKTICK)%N; [|reflexivity].
    destruct (b =? BACKTICK)%N; [|reflexivity].
    destruct (c =? BACKTICK)%N; reflexivity.
Qed.

Lemma ticks_skipn s : (3 <= ticks s)%nat -> ticks (skipn 3 s) = (ticks s - 3)%nat.
Proof.
  destruct s as [|a [|b [|c s]]]; cbn [ticks skipn]; try lia.
  - destruct (char_eqb a BACKTICK); lia.
  - destruct (char_eqb a BACKTICK); [|lia]. destruct (char_eqb b BACKTICK); lia.
  - destruct (char_eqb a BACKTICK); [|lia].
    destruct (char_eqb b BACKTICK); [|lia].
    destruct (char_eqb c BACKTICK); lia.
Qed.

(** Once the fence markers are removed none can be found: of a run of
    grave accents fewer than three are left, and what stood between two
    runs is kept. *)
Lemma replace_fence_ticks n :
  forall s, (length s <= n)%nat ->
    (ticks (replace_all (literal false fence) [] s) <= ticks s)%nat /\
    match_ (literal false fence) (replace_all (literal false fence) [] s) = None.
Proof.
  induction n as [|n IH]; intros s Hlen.
  - destruct s; [|simpl in Hlen; lia]. rewrite replace_all_nil. split; reflexivity.
  - destruct s as [|c t]; [rewrite replace_all_nil; split; reflexivity|].
    rewrite replace_all_cons.
    assert (M : literal false fence (c :: t)
                = if (3 <=? ticks (c :: t))%nat then Some 3%nat else None)
      by (unfold literal; rewrite fence_at; reflexivity).
    rewrite M. clear M.
    destruct (3 <=? ticks (c :: t))%nat eqn:E.
    + apply Nat.leb_le in E. cbn [length fence app].
      change (skipn 2 t) with (skipn 3 (c :: t)).
      destruct (IH (skipn 3 (c :: t))) as [A B].
      { pose proof (length_skipn 3 (c :: t)). simpl in Hlen. simpl length in *. lia. }
      split; [|exact B]. rewrite (ticks_skipn _ E) in A. lia.
    + apply Nat.leb_gt in E. destruct (IH t) as [A B]; [simpl in Hlen; lia|].
      split.
      * cbn [ticks] in *. destruct (char_eqb c BACKTICK); lia.
      * cbn [match_]. unfold literal at 1. rewrite fence_at.
        replace (3 <=? _)%nat with false; [exact B|].
        symmetry. apply Nat.leb_gt. cbn [ticks] in *.
        destruct (char_eqb c BACKTICK); lia.
Qed.

Lemma replace_fence_free s :
  ~ occurs fence (replace_all (literal false fence) [] s).
Proof.
  apply match_literal_none; [discriminate|].
  apply (@replace_fence_ticks (length s) s (le_n _)).
Qed.

(** A marker with its language tag holds a bare marker. *)
Lemma fence_json_fence s :
  match_ (literal false fence) s = None ->
  match_ (literal true fence_json) s = None.
Proof.
  induction s as [|c t IH]; [intros _; reflexivity|]. cbn [match_].
  unfold literal at 1 3.
  destruct (literal_at false fence (c :: t)) eqn:E; [discriminate|].
  intros H. rewrite (IH H).
  replace (literal_at true fence_json (c :: t)) with false; [reflexivity|].
  symmetry. destruct (literal_at true fence_json (c :: t)) eqn:E'; [|reflexivity].
  rewrite <- E. clear -E'.
  assert (U : forall x, char_eqb (to_upper BACKTICK) (to_upper x) = true ->
                        char_eqb BACKTICK x = true).
  { intros x. unfold to_upper, char_eqb.
    change ((97 <=? BACKTICK) && (BACKTICK <=? 122))%N with false. cbv iota.
    destruct ((97 <=? x) && (x <=? 122))%N eqn:R; [|easy].
    apply andb_true_iff in R. destruct R as [R1 R2].
    apply N.leb_le in R1. apply N.leb_le in R2.
    intros H. apply N.eqb_eq in H. unfold BACKTICK in *. lia. }
  unfold fence_json, fence in *. cbn [app literal_at] in *.
  destruct t as [|b [|d t]]; try (rewrite ?andb_false_r in E'; discriminate).
  apply andb_true_iff in E'. destruct E' as [A E'].
  apply andb_true_iff in E'. destruct E' as [B E'].
  apply andb_true_iff in E'. destruct E' as [C _].
  now rewrite (U _ A), (U _ B), (U _ C).
Qed.

(** ** Trimming *)

Lemma trimStart_suffix s : exists a, s = a ++ trimStart s.
Proof.
  induction s as [|c t (a & IH)]; [exists []; reflexivity|]. cbn [trimStart].
  destruct (is_space c); [|exists []; reflexivity].
  exists (c :: a). cbn [app]. now rewrite <- IH.
Qed.

Lemma trim_within s : exists a b, s = a ++ trim s ++ b.
Proof.
  destruct (trimStart_suffix s) as (a & Ea).
  destruct (trimStart_suffix (rev (trimStart s))) as (b & Eb).
  exists a, (rev b). unfold trim, trimEnd. rewrite <- rev_app_distr, <- Eb.
  now rewrite rev_involutive.
Qed.

Lemma trimStart_idempotent s : trimStart (trimStart s) = trimStart s.
Proof.
  induction s as [|c t IH]; [reflexivity|]. cbn [trimStart].
  destruct (is_space c) eqn:E; [exact IH|]. cbn [trimStart]. now rewrite E.
Qed.

Lemma trimStart_snoc a c :
  is_space c = false -> trimStart (a ++ [c]) = trimStart a ++ [c].
Proof.
  intros Hc. induction a as [|x a IH]; cbn [app trimStart].
  - now rewrite Hc.
  - destruct (is_space x); [exact IH|reflexivity].
Qed.

Lemma trimEnd_cons c t :
  is_space c = false -> trimEnd (c :: t) = c :: trimEnd t.
Proof.
  intros Hc. unfold trimEnd. cbn [rev]. rewrite (@trimStart_snoc _ _ Hc).
  rewrite rev_app_distr. reflexivity.
Qed.

Lemma trimStart_fixed c t : is_space c = false -> trimStart (c :: t) = c :: t.
Proof. intros Hc. cbn [trimStart]. now rewrite Hc. Qed.

Lemma trimEnd_idempotent s : trimEnd (trimEnd s) = trimEnd s.
Proof.
  unfold trimEnd. now rewrite rev_involutive, trimStart_idempotent.
Qed.

Lemma trim_idempotent s : trim (trim s) = trim s.
Proof.
  unfold trim at 2 3.
  destruct (trimStart s) as [|c t] eqn:E; [reflexivity|].
  assert (Hc : is_space c = false).
  { destruct (is_space c) eqn:Hc; [|reflexivity]. exfalso.
    pose proof (trimStart_idempotent s) as I. rewrite E in I.
    cbn [trimStart] in I. rewrite Hc in I.
    destruct (trimStart_suffix t) as (a & Ea). rewrite I in Ea.
    apply (f_equal (@length _)) in Ea. rewrite length_app in Ea.
    simpl in Ea. lia. }
  rewrite (@trimEnd_cons _ _ Hc). unfold trim.
  rewrite (@trimStart_fixed _ _ Hc), <- (@trimEnd_cons _ _ Hc).
  apply trimEnd_idempotent.
Qed.

(** A text that starts and ends with a unit that is no white space is
    left as it is. *)
Lemma trim_fixed c mid d :
  is_space c = false -> is_space d = false ->
  trim (c :: mid ++ [d]) = c :: mid ++ [d].
Proof.
  intros Hc Hd. unfold trim. rewrite (@trimStart_fixed _ _ Hc).
  unfold trimEnd. change (c :: mid ++ [d]) with ((c :: mid) ++ [d]).
  rewrite rev_app_distr. cbn [rev app]. rewrite (@trimStart_fixed _ _ Hd).
  cbn [rev]. rewrite rev_app_distr, rev_involutive. reflexivity.
Qed.

(** ** The candidate *)

Lemma match_within (re : matcher) s m :
  match_ re s = Some m -> exists a b, s = a ++ m ++ b.
Proof.
  induction s as [|c t IH]; cbn [match_].
  - destruct (re []) as [n|]; [|discriminate]. intros [= <-].
    exists [], []. destruct n; reflexivity.
  - destruct (re (c :: t)) as [n|].
    + intros [= <-]. exists [], (skipn n (c :: t)).
      cbn [app]. now rewrite firstn_skipn.
    + intros H. destruct (IH H) as (a & b & ->). exists (c :: a), b. reflexivity.
Qed.

Lemma match_array_shape s m :
  match_ re_array s = Some m -> exists mid, m = LBRACKET :: mid ++ [RBRACKET].
Proof.
  induction s as [|c t IH]; cbn [match_].
  - discriminate.
  - pose proof (re_array_spec (c :: t)) as H.
    destruct (re_array (c :: t)) as [n|].
    + intros [= <-]. destruct H as (mid & post & _ & _ & E). now exists mid.
    + exact IH.
Qed.

Lemma last_index_snoc c (mid : jsstring) :
  last_index c (mid ++ [c]) = Some (length mid).
Proof.
  induction mid as [|x mid IH]; cbn [app last_index length].
  - destruct (char_eqb_spec c c); congruence.
  - now rewrite IH.
Qed.

Lemma match_array_whole mid :
  match_ re_array (LBRACKET :: mid ++ [RBRACKET])
  = Some (LBRACKET :: mid ++ [RBRACKET]).
Proof.
  cbn [match_ re_array]. destruct (char_eqb_spec LBRACKET LBRACKET); [|congruence].
  rewrite last_index_snoc. f_equal. rewrite firstn_cons. f_equal.
  replace (S (length mid)) with (length (mid ++ [RBRACKET]))
    by (rewrite length_app; simpl; lia).
  apply firstn_all.
Qed.

Lemma strip_fences_free raw :
  ~ occurs fence raw -> strip_fences raw = trim raw.
Proof.
  intros H. apply match_literal_none in H; [|discriminate].
  unfold strip_fences.
  rewrite (@replace_all_unmatched _ _ _ (@fence_json_fence _ H)).
  now rewrite (@replace_all_unmatched _ _ _ H).
Qed.

Lemma strip_fences_clean raw : ~ occurs fence (strip_fences raw).
Proof.
  unfold strip_fences. intros H.
  destruct (trim_within
              (replace_all (literal false fence) []
                 (replace_all (literal true fence_json) [] raw)))
    as (a & b & E).
  apply (@replace_fence_free (replace_all (literal true fence_json) [] raw)).
  rewrite E. now apply occurs_within.
Qed.

Lemma extract_free raw : ~ occurs fence (extract raw).
Proof.
  unfold extract.
  destruct (match_ re_array (strip_fences raw)) as [m|] eqn:E.
  - intros H. destruct (@match_within _ _ _ E) as (a & b & E').
    apply (@strip_fences_clean raw). rewrite E'. now apply occurs_within.
  - apply strip_fences_clean.
Qed.

Lemma extract_trimmed raw : trim (extract raw) = extract raw.
Proof.
  unfold extract.
  destruct (match_ re_array (strip_fences raw)) as [m|] eqn:E.
  - destruct (@match_array_shape _ _ E) as (mid & ->). now apply trim_fixed.
  - unfold strip_fences. apply trim_idempotent.
Qed.

Lemma extract_twice raw : extract (extract raw) = extract raw.
Proof.
  unfold extract at 1.
  rewrite (@strip_fences_free _ (@extract_free raw)), extract_trimmed.
  unfold extract.
  destruct (match_ re_array (strip_fences raw)) as [m|] eqn:E.
  - destruct (@match_array_shape _ _ E) as (mid & ->).
    now rewrite match_array_whole.
  - now rewrite E.
Qed.

(** X6. Whatever the raw answer, the candidate handed to [JSON.parse]
    holds no fence marker (three grave accents in a row), also where
    removing one marker brings grave accents together, and it has no white
    space at either end. *)
Theorem extract_clean :
  forall raw : jsstring,
    ~ occurs fence (extract raw) /\ trim (extract raw) = extract raw.
Proof. intros raw. split; [apply extract_free|apply extract_trimmed]. Qed.

(** X7. The extractor is idempotent: a candidate put through the clean-up
    and the bracket search again comes back unchanged. *)
Theorem extract_idempotent :
  forall raw : jsstring, extract (extract raw) = extract raw.
Proof. exact extract_twice. Qed.

(** X8. An answer without a fence marker is only trimmed by the clean-up,
    so that the candidate is the bracketed part of the trimmed answer, or
    the trimmed answer when there is none. *)
Theorem strip_fences_unfenced :
  forall raw : jsstring,
    ~ occurs fence raw ->
    strip_fences raw = trim raw /\
    extract raw = match match_ re_array (trim raw) with
                  | Some m => m
                  | None => trim raw
                  end.
Proof.
  intros raw H. unfold extract. rewrite (@strip_fences_free _ H). split; reflexivity.
Qed.

Lemma strip_fences_unfenced_witness :
  strip_fences (str "Here: [1, 2] ") = str "Here: [1, 2]" /\
  extract (str "Here: [1, 2] ") = str "[1, 2]".
Proof.
  apply (@strip_fences_unfenced (str "Here: [1, 2] ")).
  apply match_literal_none; [discriminate|]. vm_compute. reflexivity.
Defined.

Lemma literal_at_app (ignore_case : bool) p q s :
  literal_at ignore_case p s = true ->
  literal_at ignore_case q (skipn (length p) s) = true ->
  literal_at ignore_case (p ++ q) s = true.
Proof.
  revert s. induction p as [|a p IH]; intros s; [intros _ H; exact H|].
  destruct s as [|b s]; [discriminate|]. cbn [literal_at app length skipn].
  intros H K. apply andb_true_iff in H. destruct H as [H1 H2].
  rewrite H1. cbn [andb]. now apply IH.
Qed.

Lemma literal_at_upper p :
  forall tag s, map to_upper tag = map to_upper p ->
                literal_at true p (tag ++ s) = true.
Proof.
  induction p as [|a p IH]; intros tag s E; [reflexivity|].
  destruct tag as [|b tag]; [discriminate|]. injection E as E1 E2.
  cbn [app literal_at]. rewrite E1, (IH tag s E2).
  destruct (char_eqb_spec (to_upper a) (to_upper a)); [reflexivity|congruence].
Qed.

(** X9. The language tag of an opening marker is matched whatever the
    case of its letters: a marker followed by a tag that spells json in
    upper or lower case letters is removed together with the tag. *)
Theorem fence_tag_any_case :
  forall tag s : jsstring,
    map to_upper tag = str "JSON" ->
    strip_fences (fence ++ tag ++ s) = strip_fences s.
Proof.
  intros tag s E. unfold strip_fences. do 2 f_equal.
  assert (L : length tag = 4%nat)
    by (apply (f_equal (@length _)) in E; rewrite length_map in E; exact E).
  assert (M : literal true fence_json (fence ++ tag ++ s) = Some 7%nat).
  { unfold literal.
    replace (literal_at true fence_json (fence ++ tag ++ s)) with true;
      [reflexivity|].
    symmetry. unfold fence_json. apply literal_at_app.
    - reflexivity.
    - cbn [fence length skipn app]. now apply literal_at_upper. }
  change (fence ++ tag ++ s)
    with (BACKTICK :: [BACKTICK; BACKTICK] ++ tag ++ s) in *.
  rewrite replace_all_cons, M. cbn [app]. f_equal.
  destruct tag as [|a [|b [|c [|d [|e tag]]]]]; try discriminate. reflexivity.
Qed.

Lemma fence_tag_any_case_witness :
  strip_fences (fence ++ str "Json" ++ str " [] ") = strip_fences (str " [] ").
Proof.
  apply (@fence_tag_any_case (str "Json") (str " [] ")). reflexivity.
Defined.

(* ===================================================================== *)
(** * Aggregator: labels, bounds, order, the higher-order percentage *)
(* ===================================================================== *)

(** ** The Bloom level is a label of the answer *)

Lemma keys_write_count o k v x :
  In x (map fst (write_count o k v)) -> In x (map fst o) \/ x = k.
Proof.
  unfold write_count. destruct (jsstring_eqb k (str "__proto__")); [auto|].
  rewrite keys_set_own. destruct (get_own o k); [auto|].
  intros H. apply in_app_or in H. destruct H as [H|[<-|[]]]; auto.
Qed.

Lemma bloomCounts_keys evs :
  forall acc x,
    In x (map fst (bloomCounts (fold_left accumulate evs acc))) ->
    In x (map fst (bloomCounts acc)) \/ In x (labels evs).
Proof.
  induction evs as [|q evs IH]; intros acc x; [auto|].
  cbn [fold_left]. intros H. apply IH in H.
  unfold labels. cbn [flat_map]. rewrite in_app_iff.
  destruct H as [H|H]; [|auto].
  unfold accumulate, label_of in *. cbn [bloomCounts] in H.
  destruct (bloom q) as [[|c k]|]; auto.
  apply keys_write_count in H. destruct H as [H| ->]; auto.
  right. left. now left.
Qed.

Lemma sort_insert_in A (after : A -> A -> bool) x l y :
  In y (sort_insert after x l) <-> y = x \/ In y l.
Proof.
  induction l as [|z l IH]; cbn [sort_insert].
  - simpl. intuition.
  - destruct (after x z); simpl in *; rewrite ?IH; intuition.
Qed.

Lemma sort_in A (after : A -> A -> bool) l y : In y (sort after l) <-> In y l.
Proof.
  unfold sort. induction l as [|x l IH]; [reflexivity|]. cbn [fold_right].
  rewrite sort_insert_in, IH. simpl. intuition.
Qed.

(** X10. Whatever the evaluations, the Bloom level reported is the text
    N/A or one of the non-empty bloom labels of the evaluations; no other
    text is ever reported. *)
Theorem mostCommonBloom_among_labels :
  forall evs : list QuestionEvaluation,
    mostCommonBloom evs = str "N/A" \/
    (In (mostCommonBloom evs) (labels evs) /\ mostCommonBloom evs <> []).
Proof.
  intros evs. unfold mostCommonBloom.
  destruct (sort by_count_desc (Object_entries (bloomCounts (totals evs))))
    as [|[k v] rest] eqn:E; [now left|].
  destruct k as [|c k]; [now left|]. right. split; [|discriminate].
  assert (H : In (c :: k, v) (sort by_count_desc
                                (Object_entries (bloomCounts (totals evs)))))
    by (rewrite E; now left).
  apply sort_in in H. apply (proj1 (Object_entries_in _ _)) in H.
  apply (in_map fst) in H. cbn [fst] in H.
  unfold totals in H. apply bloomCounts_keys in H.
  destruct H as [[]|H]. exact H.
Qed.

(** ** The averages stay between the scores *)

Lemma sum_between (field : QuestionEvaluation -> Z) lo hi evs :
  Forall (fun q => (lo <= field q <= hi)%Z) evs ->
  (lo * Z.of_nat (length evs) <= sum_of field evs <= hi * Z.of_nat (length evs))%Z.
Proof.
  induction 1 as [|q evs Hq _ IH]; [simpl; lia|].
  unfold sum_of in *. cbn [fold_right length]. lia.
Qed.

Lemma nearest_between s n lo hi r :
  (0 < n)%Z -> (lo * n <= s <= hi * n)%Z ->
  nearest_half_up (inject_Z s / inject_Z n) r -> (lo <= r <= hi)%Z.
Proof.
  intros Hn [Hlo Hhi] [A B].
  assert (Pn : 0 < inject_Z n) by (change 0 with (inject_Z 0); rewrite <- Zlt_Qlt; lia).
  apply Qle_div_mult in A; [|exact Pn].
  apply Qdiv_lt_mult in B; [|exact Pn].
  assert (A' : inject_Z ((2 * r - 1) * n) <= inject_Z (2 * s)).
  { rewrite !inject_Z_mult, inject_Z_minus, inject_Z_mult.
    change (inject_Z 2) with 2. change (inject_Z 1) with 1. lra. }
  assert (B' : inject_Z (2 * s) < inject_Z ((2 * r + 1) * n)).
  { rewrite !inject_Z_mult, inject_Z_plus, inject_Z_mult.
    change (inject_Z 2) with 2. change (inject_Z 1) with 1. lra. }
  rewrite <- Zle_Qle in A'. rewrite <- Zlt_Qlt in B'. nia.
Qed.

Lemma avg_between evs s lo hi :
  evs <> [] -> (Z.of_nat (length evs) < 2 ^ 32)%Z -> (Z.abs s < 2 ^ 52)%Z ->
  (lo * Z.of_nat (length evs) <= s <= hi * Z.of_nat (length evs))%Z ->
  exists r, avg evs (of_Z s) = of_Z r /\ (lo <= r <= hi)%Z.
Proof.
  intros Hne Hn Hs Hb. destruct (@avg_exact evs s Hne Hn Hs) as (r & E & N).
  exists r. split; [exact E|]. unfold mean in N.
  apply (@nearest_between s (Z.of_nat (length evs)) lo hi r); try assumption.
  destruct evs; [contradiction|]. cbn [length]. lia.
Qed.

(** X11. On a non-empty sequence of evaluations within the precision of
    the numbers, whose scores all lie between [lo] and [hi], the three
    averaged metrics and totalScore are integers between [lo] and [hi]:
    the rounding does not leave the range of the scores. *)
Theorem averages_within_scores :
  forall (evs : list QuestionEvaluation) (lo hi : Z),
    evs <> [] -> representable evs -> Forall (scores_between lo hi) evs ->
    let report := aggregate evs in
    exists sp gr cl ov : Z,
      metric (str "Spelling") (metrics report) = Some (Score (of_Z sp)) /\
      metric (str "Grammar") (metrics report) = Some (Score (of_Z gr)) /\
      metric (str "Clarity") (metrics report) = Some (Score (of_Z cl)) /\
      totalScore report = of_Z ov /\
      (lo <= sp <= hi)%Z /\ (lo <= gr <= hi)%Z /\
      (lo <= cl <= hi)%Z /\ (lo <= ov <= hi)%Z.
Proof.
  intros evs lo hi Hne R F report. subst report.
  unfold aggregate, metrics_of. cbn [metrics totalScore].
  destruct (totals_exact R) as (A & B & C & D). rewrite A, B, C, D.
  destruct R as (Hn & S & G & Cl & O). unfold within_precision in *.
  assert (bound : forall field,
            (sum_of (fun q => Z.abs (field q)) evs < 2 ^ 52)%Z ->
            Forall (fun q => (lo <= field q <= hi)%Z) evs ->
            exists r, avg evs (of_Z (sum_of field evs)) = of_Z r /\
                      (lo <= r <= hi)%Z).
  { intros field P Fb. apply avg_between; try assumption.
    - pose proof (sum_abs_bound field evs). lia.
    - now apply sum_between. }
  destruct (bound spellingScore S) as (sp & Esp & Bsp).
  { eapply Forall_impl; [|exact F]. unfold scores_between. tauto. }
  destruct (bound grammarScore G) as (gr & Egr & Bgr).
  { eapply Forall_impl; [|exact F]. unfold scores_between. tauto. }
  destruct (bound clarityScore Cl) as (cl & Ecl & Bcl).
  { eapply Forall_impl; [|exact F]. unfold scores_between. tauto. }
  destruct (bound overallScore O) as (ov & Eov & Bov).
  { eapply Forall_impl; [|exact F]. unfold scores_between. tauto. }
  exists sp, gr, cl, ov. cbn [metric label score].
  rewrite Esp, Egr, Ecl, Eov. repeat split; try tauto; lia.
Qed.

Lemma averages_within_scores_witness :
  let report := aggregate [evaluation 80 "Apply" true;
                           evaluation 60 "Apply" false] in
  exists sp gr cl ov : Z,
    metric (str "Spelling") (metrics report) = Some (Score (of_Z sp)) /\
    metric (str "Grammar") (metrics report) = Some (Score (of_Z gr)) /\
    metric (str "Clarity") (metrics report) = Some (Score (of_Z cl)) /\
    totalScore report = of_Z ov /\
    (60 <= sp <= 100)%Z /\ (60 <= gr <= 100)%Z /\
    (60 <= cl <= 100)%Z /\ (60 <= ov <= 100)%Z.
Proof.
  apply (@averages_within_scores
           [evaluation 80 "Apply" true; evaluation 60 "Apply" false] 60 100).
  - discriminate.
  - repeat split; vm_compute; reflexivity.
  - repeat constructor; cbn; lia.
Defined.

(** ** The order of the evaluations *)

Lemma higherOrderCount_fold evs :
  forall acc,
    higherOrderCount (fold_left accumulate evs acc)
    = (higherOrderCount acc + Z.of_nat (higher evs))%Z.
Proof.
  unfold higher. induction evs as [|q evs IH]; intros acc; [simpl; lia|].
  cbn [fold_left filter]. rewrite IH. unfold accumulate.
  cbn [higherOrderCount]. destruct (higherOrder q); cbn [length]; lia.
Qed.

Lemma higherOrderCount_totals evs :
  higherOrderCount (totals evs) = Z.of_nat (higher evs).
Proof. unfold totals. rewrite higherOrderCount_fold. reflexivity. Qed.

Lemma higher_le evs : (higher evs <= length evs)%nat.
Proof. apply filter_length_le. Qed.

Lemma sum_of_permutation field evs evs' :
  Permutation evs evs' -> sum_of field evs = sum_of field evs'.
Proof.
  unfold sum_of. induction 1; cbn [fold_right]; lia.
Qed.

Lemma higher_permutation evs evs' :
  Permutation evs evs' -> higher evs = higher evs'.
Proof.
  unfold higher. induction 1 as [|q ? ? _ IH|q q' ?|]; cbn [filter].
  - reflexivity.
  - destruct (higherOrder q); cbn [length]; now rewrite IH.
  - destruct (higherOrder q), (higherOrder q'); reflexivity.
  - congruence.
Qed.

Lemma representable_permutation evs evs' :
  Permutation evs evs' -> representable evs -> representable evs'.
Proof.
  intros P (L & S & G & C & O). unfold representable, within_precision in *.
  rewrite <- (Permutation_length P).
  rewrite <- !(sum_of_permutation _ P). auto.
Qed.

Lemma avg_length evs evs' x :
  length evs = length evs' -> avg evs x = avg evs' x.
Proof. unfold avg. now intros ->. Qed.

(** X12. Within the precision of the numbers, totalScore and every
    metric other than the Bloom level are the same for two sequences that
    hold the same evaluations in another order. The Bloom level does depend
    on the order: of two labels met once each, the one met first is
    reported. *)
Theorem scores_order_independent :
  (forall evs evs' : list QuestionEvaluation,
     Permutation evs evs' -> representable evs ->
     totalScore (aggregate evs) = totalScore (aggregate evs') /\
     (forall name,
        name <> str "Bloom Level" ->
        metric name (metrics (aggregate evs))
        = metric name (metrics (aggregate evs'))))
  /\
  (exists evs evs' : list QuestionEvaluation,
     Permutation evs evs' /\ representable evs /\
     metric (str "Bloom Level") (metrics (aggregate evs))
     <> metric (str "Bloom Level") (metrics (aggregate evs'))).
Proof.
  split.
  - intros evs evs' P R.
    pose proof (representable_permutation P R) as R'.
    destruct (totals_exact R) as (A & B & C & D).
    destruct (totals_exact R') as (A' & B' & C' & D').
    pose proof (Permutation_length P) as L.
    unfold aggregate, metrics_of. cbn [metrics totalScore].
    rewrite A, B, C, D, A', B', C', D', !higherOrderCount_totals.
    rewrite <- !(sum_of_permutation _ P), <- (higher_permutation P), <- L.
    rewrite !(@avg_length evs' evs) by (symmetry; exact L).
    split; [reflexivity|]. intros name Hname. cbn [metric label score].
    destruct (jsstring_eqb (str "Spelling") name); [reflexivity|].
    destruct (jsstring_eqb (str "Grammar") name); [reflexivity|].
    destruct (jsstring_eqb (str "Clarity") name); [reflexivity|].
    destruct (jsstring_eqb_spec (str "Bloom Level") name) as [E|_];
      [now elim Hname|].
    reflexivity.
  - exists [evaluation 80 "Apply" true; evaluation 60 "Recall" false],
           [evaluation 60 "Recall" false; evaluation 80 "Apply" true].
    split; [apply perm_swap|]. split.
    + repeat split; vm_compute; reflexivity.
    + vm_compute. discriminate.
Qed.

Lemma scores_order_independent_witness :
  totalScore (aggregate [evaluation 80 "Apply" true;
                         evaluation 60 "Recall" false])
  = totalScore (aggregate [evaluation 60 "Recall" false;
                           evaluation 80 "Apply" true]).
Proof.
  apply (proj1 scores_order_independent
           [evaluation 80 "Apply" true; evaluation 60 "Recall" false]
           [evaluation 60 "Recall" false; evaluation 80 "Apply" true]).
  - apply perm_swap.
  - repeat split; vm_compute; reflexivity.
Defined.

(** ** The higher-order percentage *)

Lemma pow2_max a b : pow2 (Z.max a b) <= pow2 a + pow2 b.
Proof.
  pose proof (pow2_pos a). pose proof (pow2_pos b).
  destruct (Z.max_spec a b) as [[_ ->]|[_ ->]]; lra.
Qed.

Lemma pow2_split a : pow2 (a - 52) == pow2 a * pow2 (-52).
Proof. replace (a - 52)%Z with (a + -52)%Z by lia. apply pow2_plus. Qed.

(** A number from 0 to 128 is rounded to a binary64 value that is off by
    at most [2^-53] of it, or [2^-1075]. *)
Lemma binary64_near q :
  0 <= q -> q <= 128 ->
  exists r, binary64 q = Num r /\ 0 <= r /\
            q - (q * pow2 (-53) + pow2 (-1075)) <= r /\
            r <= q + (q * pow2 (-53) + pow2 (-1075)).
Proof.
  intros H0 H1. unfold binary64.
  pose proof (pow2_pos (-1075)) as Pv.
  destruct (Qeq_bool q 0) eqn:Z0.
  { apply Qeq_bool_iff in Z0. exists 0. split; [reflexivity|].
    pose proof (pow2_pos (-53)). rewrite Z0. split; [|split]; lra. }
  apply Qeq_bool_neq in Z0.
  set (j := Z.max (Qlog2 q - 52) (-1074)).
  set (m := round_even (q / pow2 j)).
  pose proof (pow2_pos j) as Pj.
  destruct (round_even_near (q / pow2 j)) as [L V]. fold m in L, V.
  assert (L' : q / pow2 j <= inject_Z m + (1 # 2)) by lra.
  assert (V' : inject_Z m - (1 # 2) <= q / pow2 j) by lra.
  apply Qdiv_le_mult in L'; [|exact Pj].
  apply Qle_div_mult in V'; [|exact Pj].
  (* the unit *)
  assert (Hu : pow2 j <= q * (2 * pow2 (-53)) + 2 * pow2 (-1075)).
  { eapply Qle_trans; [apply pow2_max|].
    pose proof (Qlog2_le Z0) as Lq. rewrite (Qabs_pos q H0) in Lq.
    rewrite pow2_split.
    assert (E1 : pow2 (-52) == 2 * pow2 (-53)) by reflexivity.
    assert (E2 : pow2 (-1074) == 2 * pow2 (-1075)) by reflexivity.
    rewrite E1, E2.
    pose proof (pow2_pos (-53)) as P53.
    assert (pow2 (Qlog2 q) * (2 * pow2 (-53)) <= q * (2 * pow2 (-53))).
    { apply Qmult_le_compat_r; [exact Lq|lra]. }
    lra. }
  set (r := inject_Z m * pow2 j) in *.
  assert (Rl : q - (q * pow2 (-53) + pow2 (-1075)) <= r).
  { setoid_replace ((inject_Z m + (1 # 2)) * pow2 j)
      with (r + (1 # 2) * pow2 j) in L' by (subst r; ring).
    lra. }
  assert (Ru : r <= q + (q * pow2 (-53) + pow2 (-1075))).
  { setoid_replace ((inject_Z m - (1 # 2)) * pow2 j)
      with (r - (1 # 2) * pow2 j) in V' by (subst r; ring).
    lra. }
  assert (Rp : 0 <= r).
  { subst r. apply Qmult_le_0_compat; [|lra].
    assert (Q0 : 0 <= q / pow2 j).
    { apply Qle_shift_div_l; [exact Pj|]. lra. }
    assert (M : inject_Z (-1) < inject_Z m).
    { change (inject_Z (-1)) with (-1). lra. }
    rewrite <- Zlt_Qlt in M. change 0 with (inject_Z 0). rewrite <- Zle_Qle. lia. }
  assert (P53 : pow2 (-53) <= 1) by (vm_compute; discriminate).
  assert (P1075 : pow2 (-1075) <= 1) by (vm_compute; discriminate).
  destruct (Qle_bool (pow2 1024) (Qabs r)) eqn:O.
  { exfalso. apply Qle_bool_iff in O. rewrite (Qabs_pos r Rp) in O.
    assert (B : 1024 <= pow2 1024) by (vm_compute; discriminate).
    assert (q * pow2 (-53) <= 128 * 1).
    { apply Qmult_le_compat_nonneg; split; try lra. apply Qlt_le_weak, pow2_pos. }
    lra. }
  exists (Qred r). split; [reflexivity|]. rewrite (Qred_correct r).
  auto.
Qed.

(** [Math.round((c / n) * 100)] on counts: the two roundings move the
    product by less than the distance from a multiple of [1 / n] to the
    next half-integer. *)
Lemma percentage_rounded c n :
  (0 <= c <= n)%Z -> (0 < n < 2 ^ 32)%Z ->
  exists p, Math_round (mul (div (of_Z c) (of_Z n)) (of_Z 100)) = of_Z p /\
            ((2 * p - 1) * n <= 200 * c <= (2 * p + 1) * n)%Z.
Proof.
  intros Hc Hn. unfold of_Z.
  assert (D : div (Num (inject_Z c)) (Num (inject_Z n))
              = binary64 (inject_Z c / inject_Z n)).
  { unfold div.
    assert (Qsign (inject_Z n) = Gt) as ->.
    { unfold Qsign. cbn [Qnum inject_Z]. apply Z.compare_gt_iff. lia. }
    destruct (Qsign (inject_Z c)); reflexivity. }
  rewrite D. clear D.
  assert (Qn : 0 < inject_Z n)
    by (change 0 with (inject_Z 0); rewrite <- Zlt_Qlt; lia).
  assert (Qc : 0 <= inject_Z c)
    by (change 0 with (inject_Z 0); rewrite <- Zle_Qle; lia).
  assert (Qcn : inject_Z c <= inject_Z n) by (rewrite <- Zle_Qle; lia).
  assert (Qn32 : inject_Z n <= 4294967296)
    by (change 4294967296 with (inject_Z (2 ^ 32)); rewrite <- Zle_Qle; lia).
  set (x := inject_Z c / inject_Z n).
  assert (X0 : 0 <= x) by (apply Qle_shift_div_l; [exact Qn|lra]).
  assert (X1 : x <= 1) by (apply Qle_shift_div_r; [exact Qn|lra]).
  assert (Xn : x * inject_Z n == inject_Z c) by (apply Qdiv_cancel, Qn).
  assert (U : pow2 (-53) <= 1 # 9007199254740992) by (vm_compute; discriminate).
  assert (V : pow2 (-1075) <= 1 # 9007199254740992) by (vm_compute; discriminate).
  pose proof (pow2_pos (-53)) as U0. pose proof (pow2_pos (-1075)) as V0.
  destruct (@binary64_near x X0) as (r1 & E1 & P1 & L1 & U1); [lra|].
  assert (Xu : x * pow2 (-53) <= 1 * pow2 (-53))
    by (apply Qmult_le_compat_r; lra).
  rewrite E1. cbn [mul].
  set (y := r1 * inject_Z 100).
  assert (Y0 : 0 <= y) by (subst y; apply Qmult_le_0_compat; [exact P1|discriminate]).
  assert (Y1 : y <= 128).
  { subst y. change (inject_Z 100) with 100. lra. }
  destruct (@binary64_near y Y0 Y1) as (r2 & E2 & P2 & L2 & U2).
  rewrite E2. unfold Math_round, of_Z.
  set (p := Qfloor (r2 + (1 # 2))).
  exists p. split; [reflexivity|].
  pose proof (Qfloor_le (r2 + (1 # 2))) as Fl.
  pose proof (Qlt_floor (r2 + (1 # 2))) as Fu. fold p in Fl, Fu.
  rewrite inject_Z_plus in Fu. change (inject_Z 1) with 1 in Fu.
  assert (Yu : y * pow2 (-53) <= 128 * pow2 (-53))
    by (apply Qmult_le_compat_r; lra).
  assert (Ey : y == 100 * r1) by (subst y; change (inject_Z 100) with 100; ring).
  (* the rounded product against the exact one *)
  assert (A : inject_Z p - (1 # 2) - (329 # 9007199254740992) <= 100 * x) by lra.
  assert (B : 100 * x <= inject_Z p + (1 # 2) + (329 # 9007199254740992)) by lra.
  apply (Qmult_le_compat_r _ _ (inject_Z n)) in A; [|lra].
  apply (Qmult_le_compat_r _ _ (inject_Z n)) in B; [|lra].
  assert (Ex : 100 * x * inject_Z n == 100 * inject_Z c)
    by (rewrite <- Xn; ring).
  rewrite Ex in A, B.
  split.
  - destruct (Z_le_gt_dec ((2 * p - 1) * n) (200 * c)) as [G|G]; [exact G|].
    exfalso.
    assert (G' : inject_Z (200 * c + 1) <= inject_Z ((2 * p - 1) * n))
      by (rewrite <- Zle_Qle; lia).
    rewrite inject_Z_plus, !inject_Z_mult, inject_Z_minus, inject_Z_mult in G'.
    change (inject_Z 200) with 200 in G'. change (inject_Z 2) with 2 in G'.
    change (inject_Z 1) with 1 in G'. lra.
  - destruct (Z_le_gt_dec (200 * c) ((2 * p + 1) * n)) as [G|G]; [exact G|].
    exfalso.
    assert (G' : inject_Z ((2 * p + 1) * n + 1) <= inject_Z (200 * c))
      by (rewrite <- Zle_Qle; lia).
    rewrite !inject_Z_plus, !inject_Z_mult, inject_Z_plus, inject_Z_mult in G'.
    change (inject_Z 200) with 200 in G'. change (inject_Z 2) with 2 in G'.
    change (inject_Z 1) with 1 in G'. lra.
Qed.

Lemma nearest_bounds c n p :
  (0 < n)%Z -> ((2 * p - 1) * n <= 200 * c <= (2 * p + 1) * n)%Z ->
  inject_Z p - (1 # 2) <= inject_Z (100 * c) / inject_Z n /\
  inject_Z (100 * c) / inject_Z n <= inject_Z p + (1 # 2).
Proof.
  intros Hn [A B].
  assert (Qn : 0 < inject_Z n)
    by (change 0 with (inject_Z 0); rewrite <- Zlt_Qlt; lia).
  rewrite Zle_Qle in A, B.
  rewrite !inject_Z_mult, inject_Z_minus, inject_Z_mult in A.
  rewrite !inject_Z_mult, inject_Z_plus, inject_Z_mult in B.
  change (inject_Z 200) with 200 in A, B. change (inject_Z 2) with 2 in A, B.
  change (inject_Z 1) with 1 in A, B.
  rewrite inject_Z_mult. change (inject_Z 100) with 100. split.
  - apply Qle_shift_div_l; [exact Qn|]. lra.
  - apply Qle_shift_div_r; [exact Qn|]. lra.
Qed.

(** X13. On a non-empty sequence of fewer than 2^32 evaluations the Higher
    Order metric is an integer nearest to the percentage of the evaluations
    marked higher-order, and so lies between 0 and 100; it is 0 when none
    is marked and 100 when all are. At equal distance from two integers
    either may come out: for 29 marked out of 200 the percentage is 14.5
    and the metric is 14. *)
Theorem higher_order_percentage :
  (forall evs : list QuestionEvaluation,
     evs <> [] -> (Z.of_nat (length evs) < 2 ^ 32)%Z ->
     exists p : Z,
       metric (str "Higher Order") (metrics (aggregate evs))
       = Some (Score (of_Z p)) /\
       nearest (percentage (higher evs) (length evs)) p /\
       (0 <= p <= 100)%Z /\
       (higher evs = 0%nat -> p = 0%Z) /\
       (higher evs = length evs -> p = 100%Z))
  /\
  (percentage (higher tie_sample) (length tie_sample) == 29 # 2 /\
   metric (str "Higher Order") (metrics (aggregate tie_sample))
   = Some (Score (of_Z 14))).
Proof.
  split.
  - intros evs Hne Hn.
    assert (Hpos : (0 < Z.of_nat (length evs))%Z)
      by (destruct evs; [contradiction|cbn [length]; lia]).
    pose proof (higher_le evs) as Hle.
    destruct (@percentage_rounded (Z.of_nat (higher evs))
                (Z.of_nat (length evs))) as (p & E & B); [lia|lia|].
    exists p. split; [|split; [|split; [|split]]].
    + unfold aggregate, metrics_of. cbn [metrics metric label score].
      rewrite higherOrderCount_totals. unfold of_nat. now rewrite E.
    + unfold nearest, percentage. now apply nearest_bounds.
    + nia.
    + intros H0. rewrite H0 in B. nia.
    + intros H1. rewrite H1 in B. nia.
  - split; vm_compute; reflexivity.
Qed.

Lemma higher_order_percentage_witness :
  let evs := [evaluation 80 "Apply" true; evaluation 60 "Apply" false;
              evaluation 70 "Apply" false] in
  exists p : Z,
    metric (str "Higher Order") (metrics (aggregate evs))
    = Some (Score (of_Z p)) /\
    nearest (percentage (higher evs) (length evs)) p /\
    (0 <= p <= 100)%Z /\
    (higher evs = 0%nat -> p = 0%Z) /\
    (higher evs = length evs -> p = 100%Z).
Proof.
  apply (proj1 higher_order_percentage
           [evaluation 80 "Apply" true; evaluation 60 "Apply" false;
            evaluation 70 "Apply" false]).
  - discriminate.
  - vm_compute. reflexivity.
Defined.

(* ===================================================================== *)
(** * Handler: faults, the one call, the answers it can give *)
(* ===================================================================== *)

Lemma POST_malformed openai req :
  JSON.parse (text req) = None ->
  run (POST openai req) = (Value (error_response "Evaluation failed." 500), []).
Proof.
  intros Hp. unfold POST, run, try_catch, bind, req_json. rewrite Hp. reflexivity.
Qed.

Lemma as_evaluations_no_null items qs :
  as_evaluations items = Some qs -> existsb is_null items = false.
Proof.
  revert qs. induction items as [|item items IH]; intros qs; [reflexivity|].
  cbn [as_evaluations existsb].
  destruct (as_evaluation item) eqn:E; [|discriminate].
  destruct (as_evaluations items); [|discriminate].
  intros _. rewrite (IH l eq_refl).
  destruct item; try reflexivity. discriminate.
Qed.

Lemma existsb_is_null items : In JNull items -> existsb is_null items = true.
Proof.
  intros H. apply existsb_exists. exists JNull. split; [exact H|reflexivity].
Qed.

(** The handler on a request that passes validation, by what the Evaluator
    does with the one call. *)
Lemma POST_evaluated openai req o s set1 :
  request_fields req = Some (o, s, set1) ->
  run (POST openai req) =
  (match openai (create_params (questions set1)) with
   | Rejected => Value (error_response "Evaluation failed." 500)
   | Resolved None => Value (error_response "No response from AI." 500)
   | Resolved (Some c) =>
       match choices c with
       | None => Value (error_response "No response from AI." 500)
       | Some [] => Value (error_response "Evaluation failed." 500)
       | Some (choice :: _) =>
           match message choice with
           | None => Value (error_response "No response from AI." 500)
           | Some m =>
               fst (try_catch (report_from m)
                      (fun _ => ret (error_response "Evaluation failed." 500))
                      [create_params (questions set1)])
           end
       end
   end, [create_params (questions set1)]).
Proof.
  intros Hreq. erewrite POST_valid by eassumption.
  unfold run, try_catch, evaluate, bind, create.
  destruct (openai (create_params (questions set1))) as [[c|]|]; try reflexivity.
  unfold first_message. destruct (choices c) as [[|choice others]|]; try reflexivity.
  unfold ret. destruct (message choice) as [m|]; [|reflexivity].
  unfold report_from.
  destruct (JSON.parse _) as [v|]; [|reflexivity].
  unfold typed, bind.
  destruct v; try reflexivity.
  destruct (existsb is_null items); [reflexivity|].
  destruct (as_evaluations items); reflexivity.
Qed.

Lemma report_from_cases m calls :
  let raw := match content m with
             | Some (c :: t) => c :: t
             | Some [] | None => str "[]"
             end in
  try_catch (report_from m)
    (fun _ => ret (error_response "Evaluation failed." 500)) calls =
  (match JSON.parse (extract raw) with
   | None => Value (error_response "AI response could not be parsed." 500)
   | Some (JArr items) =>
       if existsb is_null items
       then Value (error_response "Evaluation failed." 500)
       else match as_evaluations items with
            | Some qs => Value (json_response (ReportBody (aggregate qs)) 200)
            | None => Unmodelled
            end
   | Some _ => Value (error_response "Evaluation failed." 500)
   end, calls).
Proof.
  cbn zeta. unfold report_from, try_catch.
  destruct (JSON.parse _) as [v|]; [|reflexivity].
  unfold typed, bind.
  destruct v; try reflexivity.
  destruct (existsb is_null items); [reflexivity|].
  destruct (as_evaluations items); reflexivity.
Qed.

(** X14. A request whose body is not JSON makes [req.json()] reject; the
    fault is caught at the outer boundary, the answer is the generic
    failure (status 500, Evaluation failed) and the Evaluator is not
    called. *)
Theorem malformed_body_generic_failure :
  forall (openai : Evaluator) (req : Request),
    JSON.parse (text req) = None ->
    run (POST openai req)
    = (Value (error_response "Evaluation failed." 500), []).
Proof. intros openai req. apply POST_malformed. Qed.

Lemma malformed_body_generic_failure_witness :
  run (POST (stub None) truncated_request)
  = (Value (error_response "Evaluation failed." 500), []).
Proof.
  apply (@malformed_body_generic_failure (stub None) truncated_request).
  vm_compute. reflexivity.
Defined.

(** X15. When the call to the Evaluator rejects, on a request that passes
    validation, the answer is the generic failure (status 500, Evaluation
    failed); the one call has been made and no other follows. *)
Theorem evaluator_rejection_generic_failure :
  forall (openai : Evaluator) (req : Request) (o s set1 : jsstring),
    request_fields req = Some (o, s, set1) ->
    openai (create_params (questions set1)) = Rejected ->
    run (POST openai req)
    = (Value (error_response "Evaluation failed." 500),
       [create_params (questions set1)]).
Proof.
  intros openai req o s set1 Hreq H.
  rewrite (POST_evaluated openai _ Hreq), H. reflexivity.
Qed.

Lemma evaluator_rejection_generic_failure_witness :
  run (POST failing sample_request)
  = (Value (error_response "Evaluation failed." 500),
     [create_params [str "What is 2+2?"; str "Explain photosynthesis."]]).
Proof.
  apply (@evaluator_rejection_generic_failure failing sample_request
           (str "CO1") (str "Unit 1")
           (str "What is 2+2?" ++ [LF; LF] ++ str "Explain photosynthesis.")).
  - vm_compute. reflexivity.
  - reflexivity.
Defined.

(** X16. A completion whose array of choices is empty passes the guard on
    [completion.choices], reading [message] of its first element throws,
    and the answer is the generic failure (status 500, Evaluation failed),
    not the one for a missing answer. *)
Theorem empty_choices_generic_failure :
  forall (openai : Evaluator) (req : Request) (o s set1 : jsstring),
    request_fields req = Some (o, s, set1) ->
    openai (create_params (questions set1))
    = Resolved (Some {| choices := Some [] |}) ->
    run (POST openai req)
    = (Value (error_response "Evaluation failed." 500),
       [create_params (questions set1)]).
Proof.
  intros openai req o s set1 Hreq H.
  rewrite (POST_evaluated openai _ Hreq), H. reflexivity.
Qed.

Lemma empty_choices_generic_failure_witness :
  run (POST choiceless sample_request)
  = (Value (error_response "Evaluation failed." 500),
     [create_params [str "What is 2+2?"; str "Explain photosynthesis."]]).
Proof.
  apply (@empty_choices_generic_failure choiceless sample_request
           (str "CO1") (str "Unit 1")
           (str "What is 2+2?" ++ [LF; LF] ++ str "Explain photosynthesis.")).
  - vm_compute. reflexivity.
  - reflexivity.
Defined.

(** X17. Past validation the handler reads [set1] only: two requests that
    pass validation with the same [set1] make the same call and, with the
    same Evaluator, get the same answer, whatever their [outcomes] and
    [syllabus]. *)
Theorem response_depends_on_set1_only :
  forall (openai : Evaluator) (req1 req2 : Request)
         (o1 s1 o2 s2 set1 : jsstring),
    request_fields req1 = Some (o1, s1, set1) ->
    request_fields req2 = Some (o2, s2, set1) ->
    run (POST openai req1) = run (POST openai req2).
Proof.
  intros openai req1 req2 o1 s1 o2 s2 set1 H1 H2.
  rewrite (POST_valid openai _ H1), (POST_valid openai _ H2). reflexivity.
Qed.

Lemma response_depends_on_set1_only_witness :
  run (POST (stub (Some {| content := Some (str "[]") |})) sample_request)
  = run (POST (stub (Some {| content := Some (str "[]") |})) other_request).
Proof.
  apply (@response_depends_on_set1_only
           (stub (Some {| content := Some (str "[]") |}))
           sample_request other_request
           (str "CO1") (str "Unit 1") (str "CO7") (str "Unit 9")
           (str "What is 2+2?" ++ [LF; LF] ++ str "Explain photosynthesis.")).
  - vm_compute. reflexivity.
  - vm_compute. reflexivity.
Defined.

(** X18. A request that passes validation makes exactly one call to the
    Evaluator, whatever comes back: for the model
    mistralai/mistral-7b-instruct, with at most 2000 tokens, the system
    prompt as first message and the numbered questions of [set1] as
    second. *)
Theorem one_call_per_valid_request :
  forall (openai : Evaluator) (req : Request) (o s set1 : jsstring),
    request_fields req = Some (o, s, set1) ->
    snd (run (POST openai req))
    = [ {| model := str "mistralai/mistral-7b-instruct";
           messages := [ (system, systemPrompt);
                         (user, userPrompt (questions set1)) ];
           max_tokens := 2000 |} ].
Proof.
  intros openai req o s set1 Hreq.
  rewrite (POST_evaluated openai _ Hreq). reflexivity.
Qed.

Lemma one_call_per_valid_request_witness :
  snd (run (POST failing sample_request))
  = [ {| model := str "mistralai/mistral-7b-instruct";
         messages := [ (system, systemPrompt);
                       (user, str "1. What is 2+2?" ++ [LF]
                              ++ str "2. Explain photosynthesis.") ];
         max_tokens := 2000 |} ].
Proof.
  apply (@one_call_per_valid_request failing sample_request
           (str "CO1") (str "Unit 1")
           (str "What is 2+2?" ++ [LF; LF] ++ str "Explain photosynthesis.")).
  vm_compute. reflexivity.
Defined.

(** X19. A [set1] that is empty or white space only passes validation: the
    Evaluator is still called, once, with an empty user message. *)
Theorem blank_set1_still_evaluated :
  forall (openai : Evaluator) (req : Request) (o s set1 : jsstring),
    request_fields req = Some (o, s, set1) ->
    blank set1 = true ->
    snd (run (POST openai req))
    = [ {| model := str "mistralai/mistral-7b-instruct";
           messages := [ (system, systemPrompt); (user, []) ];
           max_tokens := 2000 |} ].
Proof.
  intros openai req o s set1 Hreq Hb.
  rewrite (POST_evaluated openai _ Hreq). cbn [snd].
  apply questions_blank in Hb. rewrite Hb. reflexivity.
Qed.

Lemma blank_set1_still_evaluated_witness :
  snd (run (POST (stub None) blank_request))
  = [ {| model := str "mistralai/mistral-7b-instruct";
         messages := [ (system, systemPrompt); (user, []) ];
         max_tokens := 2000 |} ].
Proof.
  apply (@blank_set1_still_evaluated (stub None) blank_request
           (str "CO1") (str "Unit 1") [32%N; LF; LF; 9%N]).
  - vm_compute. reflexivity.
  - reflexivity.
Defined.

Lemma existsb_is_null_false items :
  existsb is_null items = false <-> ~ In JNull items.
Proof.
  split.
  - intros E H. apply existsb_is_null in H. congruence.
  - intros H. destruct (existsb is_null items) eqn:E; [exfalso|reflexivity].
    apply existsb_exists in E. destruct E as (x & Hx & Nx).
    destruct x; try discriminate. exact (H Hx).
Qed.

Lemma POST_unmodelled openai req :
  fst (run (POST openai req)) = Unmodelled <-> outside_model openai req.
Proof.
  split.
  - destruct (request_fields req) as [[[o s] set1]|] eqn:Hreq.
    + rewrite (POST_evaluated openai _ Hreq). cbn [fst].
      destruct (openai (create_params (questions set1))) as [[c|]|] eqn:Ho;
        try discriminate.
      destruct c as [ch]. cbn [choices].
      destruct ch as [[|choice others]|]; try discriminate.
      destruct choice as [msg]. cbn [message].
      destruct msg as [m|]; [|discriminate].
      rewrite report_from_cases. cbn [fst].
      destruct (JSON.parse _) as [v|] eqn:Hp; [|discriminate].
      destruct v; try discriminate.
      destruct (existsb is_null items) eqn:Hn; [discriminate|].
      destruct (as_evaluations items) as [qs|] eqn:Hq; [discriminate|].
      intros _. exists o, s, set1, m, items.
      split; [exact Hreq|]. split; [exists others; exact Ho|].
      split; [exact Hp|]. split; [now apply existsb_is_null_false|exact Hq].
    + destruct (JSON.parse (text req)) as [body|] eqn:Hp.
      * destruct (is_null body) eqn:Hn.
        -- destruct body; try discriminate.
           unfold POST, run, try_catch, bind, req_json. rewrite Hp.
           discriminate.
        -- assert (body <> JNull) as Hb by (intros ->; discriminate).
           rewrite (POST_invalid_body openai _ Hp Hb Hreq). discriminate.
      * rewrite (POST_malformed openai _ Hp). discriminate.
  - intros (o & s & set1 & m & items & Hreq & Hans & Hp & Hn & Hq).
    erewrite POST_answered by eassumption.
    rewrite report_from_cases. cbn [fst]. unfold candidate in Hp.
    rewrite Hp, (proj2 (existsb_is_null_false items) Hn), Hq. reflexivity.
Qed.

(** X20. Whatever the request and whatever the Evaluator does, no fault
    leaves the handler and at most one call is made, for the questions of
    the request. One case is left open by the model, and nothing is stated
    about the answer in it: the request passes validation and the answer of
    the Evaluator parses to an array without null that holds an item
    outside the data model (an item that is not an object with a string
    question, a string, null or missing bloom, a boolean higherOrder, the
    four scores integers and suggestions an array of strings; a score such
    as 91.67 is outside). In every other case the handler answers, and its
    answer is a report with status 200, after the call; or the
    input-validation error with status 400, without any call; or, with
    status 500, one of the three failures: no response and parse error
    after the call, the generic failure with or without it. *)
Theorem handler_answers :
  forall (openai : Evaluator) (req : Request),
    (forall e, fst (run (POST openai req)) <> Thrown e) /\
    (snd (run (POST openai req)) = [] \/
     exists o s set1,
       request_fields req = Some (o, s, set1) /\
       snd (run (POST openai req)) = [create_params (questions set1)]) /\
    (fst (run (POST openai req)) = Unmodelled <-> outside_model openai req) /\
    (~ outside_model openai req ->
     exists r, fst (run (POST openai req)) = Value r) /\
    (forall r, fst (run (POST openai req)) = Value r ->
       (is_report r /\ snd (run (POST openai req)) <> []) \/
       (r = error_response "Invalid input data." 400 /\
        snd (run (POST openai req)) = []) \/
       (r = error_response "No response from AI." 500 /\
        snd (run (POST openai req)) <> []) \/
       (r = error_response "AI response could not be parsed." 500 /\
        snd (run (POST openai req)) <> []) \/
       r = error_response "Evaluation failed." 500).
Proof.
  intros openai req. split; [intros e; apply POST_never_throws|].
  assert (U := POST_unmodelled openai req).
  assert (V : ~ outside_model openai req ->
              exists r, fst (run (POST openai req)) = Value r).
  { intros N. pose proof (POST_never_throws openai req) as T.
    destruct (fst (run (POST openai req))) as [r|e|].
    - now exists r.
    - now elim (T e).
    - elim N. now apply U. }
  cut ((snd (run (POST openai req)) = [] \/
        exists o s set1,
          request_fields req = Some (o, s, set1) /\
          snd (run (POST openai req)) = [create_params (questions set1)]) /\
       (forall r, fst (run (POST openai req)) = Value r ->
          (is_report r /\ snd (run (POST openai req)) <> []) \/
          (r = error_response "Invalid input data." 400 /\
           snd (run (POST openai req)) = []) \/
          (r = error_response "No response from AI." 500 /\
           snd (run (POST openai req)) <> []) \/
          (r = error_response "AI response could not be parsed." 500 /\
           snd (run (POST openai req)) <> []) \/
          r = error_response "Evaluation failed." 500)).
  { intros [A B]. auto. }
  clear U V.
  destruct (request_fields req) as [[[o s] set1]|] eqn:Hreq.
  - rewrite (POST_evaluated openai _ Hreq). cbn [fst snd]. split.
    { right. exists o, s, set1. split; reflexivity. }
    intros r.
    assert (N : [create_params (questions set1)] <> []) by discriminate.
    destruct (openai (create_params (questions set1))) as [[c|]|];
      [|intros [= <-]; auto 10..].
    destruct (choices c) as [[|choice others]|]; [intros [= <-]; auto 10| |].
    2: intros [= <-]; auto 10.
    destruct (message choice) as [m|]; [|intros [= <-]; auto 10].
    rewrite report_from_cases. cbn [fst].
    destruct (JSON.parse _) as [v|]; [|intros [= <-]; auto 10].
    destruct v; try (intros [= <-]; auto 10).
    destruct (existsb is_null items); [intros [= <-]; auto 10|].
    destruct (as_evaluations items) as [qs|]; [|discriminate].
    intros [= <-]. left. split; [|exact N].
    exists (aggregate qs). reflexivity.
  - pose proof (POST_invalid openai _ Hreq) as Hc. rewrite Hc.
    split; [left; reflexivity|]. intros r Hr.
    destruct (JSON.parse (text req)) as [body|] eqn:Hp.
    + destruct (is_null body) eqn:Hn.
      * destruct body; try discriminate.
        revert Hr. unfold POST, run, try_catch, bind, req_json. rewrite Hp.
        intros [= <-]. auto 10.
      * assert (body <> JNull) as Hb by (intros ->; discriminate).
        rewrite (POST_invalid_body openai _ Hp Hb Hreq) in Hr.
        injection Hr as <-. auto 10.
    + rewrite (POST_malformed openai _ Hp) in Hr. injection Hr as <-. auto 10.
Qed.

Lemma handler_answers_witness :
  let r := json_response (ReportBody (aggregate [sample_evaluation])) 200 in
  let sent := run (POST (stub (Some {| content := Some sample_answer |}))
                     sample_request) in
  (is_report r /\ snd sent <> []) \/
  (r = error_response "Invalid input data." 400 /\ snd sent = []) \/
  (r = error_response "No response from AI." 500 /\ snd sent <> []) \/
  (r = error_response "AI response could not be parsed." 500 /\
   snd sent <> []) \/
  r = error_response "Evaluation failed." 500.
Proof.
  apply (proj2 (proj2 (proj2 (proj2
                  (handler_answers
                     (stub (Some {| content := Some sample_answer |}))
                     sample_request))))
           (json_response (ReportBody (aggregate [sample_evaluation])) 200)).
  vm_compute. reflexivity.
Defined.

(** A score that is not an integer is outside the data model: the case
    that is left open. *)
Lemma fractional_score_outside_model :
  outside_model
    (stub (Some {| content :=
                     Some (str "[{" ++ quoted "overallScore" ++ str ":91.67}]") |}))
    sample_request.
Proof.
  exists (str "CO1"), (str "Unit 1"),
    (str "What is 2+2?" ++ [LF; LF] ++ str "Explain photosynthesis."),
    {| content := Some (str "[{" ++ quoted "overallScore" ++ str ":91.67}]") |},
    [JObj [(str "overallScore", JNum (binary64 (9167 # 100)))]].
  split; [vm_compute; reflexivity|]. split; [exists []; reflexivity|].
  split; [vm_compute; reflexivity|].
  split; [intros [H|[]]; discriminate|reflexivity].
Qed.

(** X21. When the parsed array holds the value null, reading a score of
    that item throws inside [forEach]; the answer is the generic failure
    (status 500, Evaluation failed) and no report is sent, whatever the
    other items are. *)
Theorem null_item_generic_failure :
  forall (openai : Evaluator) (req : Request) (o s set1 raw : jsstring)
         (items : list json),
    request_fields req = Some (o, s, set1) ->
    answers openai set1 (Some {| content := Some raw |}) ->
    raw <> [] ->
    JSON.parse (extract raw) = Some (JArr items) ->
    In JNull items ->
    run (POST openai req)
    = (Value (error_response "Evaluation failed." 500),
       [create_params (questions set1)]).
Proof.
  intros openai req o s set1 raw items Hreq Hans Hne Hp Hin.
  erewrite POST_answered by eassumption.
  rewrite report_from_cases. cbn [content].
  destruct raw as [|c t]; [contradiction|].
  rewrite Hp, (existsb_is_null _ Hin). reflexivity.
Qed.

Lemma null_item_generic_failure_witness :
  run (POST (stub (Some {| content := Some (str "[null]") |})) sample_request)
  = (Value (error_response "Evaluation failed." 500),
     [create_params [str "What is 2+2?"; str "Explain photosynthesis."]]).
Proof.
  apply (@null_item_generic_failure
           (stub (Some {| content := Some (str "[null]") |})) sample_request
           (str "CO1") (str "Unit 1")
           (str "What is 2+2?" ++ [LF; LF] ++ str "Explain photosynthesis.")
           (str "[null]") [JNull]).
  - vm_compute. reflexivity.
  - exists []. reflexivity.
  - discriminate.
  - vm_compute. reflexivity.
  - left. reflexivity.
Defined.

(** X22. When the candidate parses to an array of evaluations of the data
    model (objects with a string question, a string, null or missing bloom,
    a boolean higherOrder, the four scores integers, and suggestions an
    array of strings) whose Bloom labels name no member of
    [Object.prototype] (the counts can then be compared, and the order of
    the sort is the same in every engine), the answer has status 200 and carries the report
    aggregated from them: the evaluations in the order of the array, the
    seven metrics in their fixed order, and the constants that do not
    depend on the request or on the answer: CO Match 70, Syllabus Match 75,
    unit coverage 3 / 5, difficulty Medium. *)
Theorem evaluations_reported :
  forall (openai : Evaluator) (req : Request) (o s set1 raw : jsstring)
         (items : list json) (qs : list QuestionEvaluation),
    request_fields req = Some (o, s, set1) ->
    answers openai set1 (Some {| content := Some raw |}) ->
    raw <> [] ->
    JSON.parse (extract raw) = Some (JArr items) ->
    as_evaluations items = Some qs ->
    (forall l, In l (labels qs) -> inherited l = false) ->
    exists report,
      run (POST openai req)
      = (Value (json_response (ReportBody report) 200),
         [create_params (questions set1)]) /\
      report = aggregate qs /\
      evaluations report = qs /\
      unitCoverage report = str "3 / 5" /\
      difficulty report = str "Medium" /\
      map label (metrics report)
      = [str "Spelling"; str "Grammar"; str "Clarity"; str "Bloom Level";
         str "Higher Order"; str "CO Match"; str "Syllabus Match"] /\
      metric (str "CO Match") (metrics report) = Some (Score (of_Z 70)) /\
      metric (str "Syllabus Match") (metrics report) = Some (Score (of_Z 75)).
Proof.
  intros openai req o s set1 raw items qs Hreq Hans Hne Hp Hq _.
  exists (aggregate qs). split; [|repeat split].
  erewrite POST_answered by eassumption.
  rewrite report_from_cases. cbn [content].
  destruct raw as [|c t]; [contradiction|].
  rewrite Hp, (as_evaluations_no_null _ Hq), Hq. reflexivity.
Qed.

Lemma evaluations_reported_witness :
  exists report,
    run (POST (stub (Some {| content := Some sample_answer |})) sample_request)
    = (Value (json_response (ReportBody report) 200),
       [create_params [str "What is 2+2?"; str "Explain photosynthesis."]]) /\
    report = aggregate [sample_evaluation] /\
    evaluations report = [sample_evaluation] /\
    unitCoverage report = str "3 / 5" /\
    difficulty report = str "Medium" /\
    map label (metrics report)
    = [str "Spelling"; str "Grammar"; str "Clarity"; str "Bloom Level";
       str "Higher Order"; str "CO Match"; str "Syllabus Match"] /\
    metric (str "CO Match") (metrics report) = Some (Score (of_Z 70)) /\
    metric (str "Syllabus Match") (metrics report) = Some (Score (of_Z 75)).
Proof.
  apply (@evaluations_reported
           (stub (Some {| content := Some sample_answer |})) sample_request
           (str "CO1") (str "Unit 1")
           (str "What is 2+2?" ++ [LF; LF] ++ str "Explain photosynthesis.")
           sample_answer
           [JObj [ (str "question", JStr (str "What is 2+2?"));
                   (str "bloom", JStr (str "Remember"));
                   (str "higherOrder", JBool false);
                   (str "clarityScore", JNum (of_Z 90));
                   (str "grammarScore", JNum (of_Z 85));
                   (str "spellingScore", JNum (of_Z 100));
                   (str "overallScore", JNum (of_Z 92));
                   (str "suggestions",
                    JArr [JStr (str "Name the operation.")]) ]]
           [sample_evaluation]).
  - vm_compute. reflexivity.
  - exists []. reflexivity.
  - discriminate.
  - vm_compute. reflexivity.
  - vm_compute. reflexivity.
  - intros l [<-|[]]. reflexivity.
Defined.

(** X23. The answer of the handler is built from what the Evaluator
    returns and from nothing else: two requests that pass validation, with
    whatever questions, get the same answer when the Evaluator returns the
    same to both calls. The evaluations are not matched against the
    questions that were asked. *)
Theorem answer_determines_response :
  forall (openai : Evaluator) (req1 req2 : Request)
         (o1 s1 set1 o2 s2 set2 : jsstring),
    request_fields req1 = Some (o1, s1, set1) ->
    request_fields req2 = Some (o2, s2, set2) ->
    openai (create_params (questions set1))
    = openai (create_params (questions set2)) ->
    fst (run (POST openai req1)) = fst (run (POST openai req2)).
Proof.
  intros openai req1 req2 o1 s1 set1 o2 s2 set2 H1 H2 E.
  rewrite (POST_evaluated openai _ H1), (POST_evaluated openai _ H2), E.
  cbn [fst].
  destruct (openai (create_params (questions set2))) as [[c|]|]; try reflexivity.
  destruct (choices c) as [[|choice others]|]; try reflexivity.
  destruct (message choice) as [m|]; [|reflexivity].
  now rewrite !report_from_cases.
Qed.

Lemma answer_determines_response_witness :
  fst (run (POST (stub (Some {| content := Some sample_answer |}))
              sample_request))
  = fst (run (POST (stub (Some {| content := Some sample_answer |}))
              blank_request)).
Proof.
  apply (@answer_determines_response
           (stub (Some {| content := Some sample_answer |}))
           sample_request blank_request
           (str "CO1") (str "Unit 1")
           (str "What is 2+2?" ++ [LF; LF] ++ str "Explain photosynthesis.")
           (str "CO1") (str "Unit 1") [32%N; LF; LF; 9%N]).
  - vm_compute. reflexivity.
  - vm_compute. reflexivity.
  - reflexivity.
Defined.

(* ===================================================================== *)
(** * From the answer to the array: what the parser reads *)
(* ===================================================================== *)

Lemma parse_number_parts s :
  parse_number s =
  match fst (number_int (snd (number_sign s))) with
  | [] => None
  | _ :: _ =>
      match number_frac (snd (number_int (snd (number_sign s)))) with
      | None => None
      | Some (fp, s3) =>
          number_exp (fst (number_sign s))
            (digits_value (fst (number_int (snd (number_sign s))) ++ fp))
            (- Z.of_nat (length fp)) s3
      end
  end.
Proof.
  unfold parse_number, number_sign.
  destruct s as [|c t]; [reflexivity|].
  destruct (c =? MINUS)%N; cbn [fst snd].
  - unfold number_int. destruct t as [|c1 t1]; [reflexivity|].
    destruct (c1 =? 48)%N; reflexivity.
  - unfold number_int. destruct (c =? 48)%N; reflexivity.
Qed.

(** ** What a scanner does not look at

    A scanner that stops before the last [tail] units of its input has
    not looked at them: with another tail in their place it does the
    same. *)

Lemma skip_ws_local x tail :
  (length tail < length (skip_ws (x ++ tail)))%nat ->
  exists m, m <> [] /\ skip_ws (x ++ tail) = m ++ tail /\
            forall tail', skip_ws (x ++ tail') = m ++ tail'.
Proof.
  induction x as [|c x IH]; cbn [app]; intros H.
  - pose proof (skip_ws_length tail). lia.
  - cbn [skip_ws] in *. destruct (is_ws c).
    + exact (IH H).
    + exists (c :: x). split; [discriminate|]. split; reflexivity.
Qed.

Lemma drop_digits_length s : (length (drop_digits s) <= length s)%nat.
Proof. apply suffix_length, drop_digits_suffix. Qed.

Lemma digits_local x tail :
  (length tail < length (drop_digits (x ++ tail)))%nat ->
  exists m, m <> [] /\ drop_digits (x ++ tail) = m ++ tail /\
            forall tail', drop_digits (x ++ tail') = m ++ tail' /\
                          take_digits (x ++ tail') = take_digits (x ++ tail).
Proof.
  induction x as [|c x IH]; cbn [app]; intros H.
  - pose proof (drop_digits_length tail). lia.
  - cbn [drop_digits take_digits] in *. destruct (is_digit c).
    + destruct (IH H) as (m & Hm & E & S). exists m. split; [exact Hm|].
      split; [exact E|]. intros tail'. destruct (S tail') as [S1 S2].
      split; [exact S1|]. now rewrite S2.
    + exists (c :: x). split; [discriminate|]. split; [reflexivity|].
      intros tail'. split; reflexivity.
Qed.

Lemma number_exp_length neg man sc s3 q r :
  number_exp neg man sc s3 = Some (q, r) -> (length r <= length s3)%nat.
Proof.
  unfold number_exp. destruct s3 as [|c t]; [intros [= _ <-]; lia|].
  destruct ((c =? 101) || (c =? 69))%N; [|intros [= _ <-]; lia].
  destruct t as [|sg t''].
  - cbn. discriminate.
  - destruct (sg =? MINUS)%N; [|destruct (sg =? 43)%N].
    + destruct (take_digits t''); [discriminate|]. intros [= _ <-].
      pose proof (drop_digits_length t''). simpl. lia.
    + destruct (take_digits t''); [discriminate|]. intros [= _ <-].
      pose proof (drop_digits_length t''). simpl. lia.
    + destruct (take_digits (sg :: t'')); [discriminate|]. intros [= _ <-].
      pose proof (drop_digits_length (sg :: t'')). simpl in *. lia.
Qed.

Lemma number_exp_local neg man sc x tail q r :
  number_exp neg man sc (x ++ tail) = Some (q, r) ->
  (length tail < length r)%nat ->
  exists m, r = m ++ tail /\
            forall tail', number_exp neg man sc (x ++ tail') = Some (q, m ++ tail').
Proof.
  intros E L. destruct x as [|c x].
  { apply number_exp_length in E. cbn [app] in E. lia. }
  revert E. unfold number_exp. cbn [app].
  destruct ((c =? 101) || (c =? 69))%N.
  2: { intros [= <- <-]. exists (c :: x). split; reflexivity. }
  destruct x as [|sg x].
  { cbn [app]. intros E. exfalso.
    assert (length r <= length tail)%nat; [|lia].
    destruct tail as [|sg t'']; [discriminate|].
    destruct (sg =? MINUS)%N; [|destruct (sg =? 43)%N].
    - destruct (take_digits t''); [discriminate|]. injection E as _ <-.
      pose proof (drop_digits_length t''). simpl. lia.
    - destruct (take_digits t''); [discriminate|]. injection E as _ <-.
      pose proof (drop_digits_length t''). simpl. lia.
    - destruct (take_digits (sg :: t'')); [discriminate|]. injection E as _ <-.
      pose proof (drop_digits_length (sg :: t'')). simpl in *. lia. }
  cbn [app].
  assert (K : forall y,
            match take_digits (y ++ tail) with
            | [] => None
            | d :: ds =>
                Some (binary64
                        (decimal neg man
                           ((if (sg =? MINUS)%N
                             then (- Z.of_N (digits_value (d :: ds)))%Z
                             else Z.of_N (digits_value (d :: ds))) + sc)),
                      drop_digits (y ++ tail))
            end = Some (q, r) ->
            exists m, r = m ++ tail /\
              forall tail',
                match take_digits (y ++ tail') with
                | [] => None
                | d :: ds =>
                    Some (binary64
                            (decimal neg man
                               ((if (sg =? MINUS)%N
                                 then (- Z.of_N (digits_value (d :: ds)))%Z
                                 else Z.of_N (digits_value (d :: ds))) + sc)),
                          drop_digits (y ++ tail'))
                end = Some (q, m ++ tail')).
  { intros y E.
    destruct (take_digits (y ++ tail)) as [|d ds] eqn:T; [discriminate|].
    injection E as <- <-.
    destruct (@digits_local y tail L) as (m & _ & Em & S).
    exists m. split; [exact Em|]. intros tail'. destruct (S tail') as [S1 S2].
    rewrite S2, T, S1. reflexivity. }
  destruct (sg =? MINUS)%N eqn:Sg.
  - apply (K x).
  - destruct (sg =? 43)%N.
    + apply (K x).
    + apply (K (sg :: x)).
Qed.

Lemma number_frac_length s2 fp s3 :
  number_frac s2 = Some (fp, s3) -> (length s3 <= length s2)%nat.
Proof.
  unfold number_frac. destruct s2 as [|c t]; [intros [= _ <-]; lia|].
  destruct (c =? 46)%N; [|intros [= _ <-]; lia].
  destruct (take_digits t); [discriminate|]. intros [= _ <-].
  pose proof (drop_digits_length t). simpl. lia.
Qed.

Lemma number_frac_local x tail fp s3 :
  number_frac (x ++ tail) = Some (fp, s3) ->
  (length tail < length s3)%nat ->
  exists m, s3 = m ++ tail /\
            forall tail', number_frac (x ++ tail') = Some (fp, m ++ tail').
Proof.
  intros E L. destruct x as [|c x].
  { apply number_frac_length in E. cbn [app] in E. lia. }
  revert E. unfold number_frac. cbn [app].
  destruct (c =? 46)%N.
  2: { intros [= <- <-]. exists (c :: x). split; reflexivity. }
  destruct (take_digits (x ++ tail)) as [|d ds] eqn:T; [discriminate|].
  intros [= <- <-].
  destruct (@digits_local x tail L) as (m & _ & Em & S).
  exists m. split; [exact Em|]. intros tail'. destruct (S tail') as [S1 S2].
  rewrite S2, T, S1. reflexivity.
Qed.

Lemma number_int_length s1 : (length (snd (number_int s1)) <= length s1)%nat.
Proof.
  unfold number_int. destruct s1 as [|c t]; [simpl; lia|].
  destruct (c =? 48)%N; cbn [snd].
  - simpl. lia.
  - apply drop_digits_length.
Qed.

Lemma number_int_local x tail :
  (length tail < length (snd (number_int (x ++ tail))))%nat ->
  exists m, snd (number_int (x ++ tail)) = m ++ tail /\
            forall tail', number_int (x ++ tail')
                          = (fst (number_int (x ++ tail)), m ++ tail').
Proof.
  intros L. destruct x as [|c x].
  { pose proof (number_int_length tail). cbn [app] in L. lia. }
  revert L. unfold number_int. cbn [app].
  destruct (c =? 48)%N; cbn [fst snd]; intros L.
  - exists x. split; reflexivity.
  - destruct (@digits_local (c :: x) tail L) as (m & _ & Em & S).
    exists m. split; [exact Em|]. intros tail'. destruct (S tail') as [S1 S2].
    cbn [app] in S1, S2. now rewrite S1, S2.
Qed.

Lemma number_sign_length s : (length (snd (number_sign s)) <= length s)%nat.
Proof.
  unfold number_sign. destruct s as [|c t]; [simpl; lia|].
  destruct (c =? MINUS)%N; simpl; lia.
Qed.

Lemma number_sign_local x tail :
  (length tail < length (snd (number_sign (x ++ tail))))%nat ->
  exists m, snd (number_sign (x ++ tail)) = m ++ tail /\
            forall tail', number_sign (x ++ tail')
                          = (fst (number_sign (x ++ tail)), m ++ tail').
Proof.
  intros L. destruct x as [|c x].
  { pose proof (number_sign_length tail). cbn [app] in L. lia. }
  revert L. unfold number_sign. cbn [app].
  destruct (c =? MINUS)%N; cbn [fst snd]; intros L.
  - exists x. split; reflexivity.
  - exists (c :: x). split; reflexivity.
Qed.

(** A number that stops before the tail has been read without it. *)
Lemma parse_number_local x tail q r :
  parse_number (x ++ tail) = Some (q, r) ->
  (length tail < length r)%nat ->
  exists m, r = m ++ tail /\
            forall tail', parse_number (x ++ tail') = Some (q, m ++ tail').
Proof.
  rewrite parse_number_parts. intros E L.
  destruct (fst (number_int (snd (number_sign (x ++ tail))))) as [|d ds] eqn:I;
    [discriminate|].
  destruct (number_frac (snd (number_int (snd (number_sign (x ++ tail))))))
    as [[fp s3]|] eqn:F; [|discriminate].
  pose proof (number_exp_length _ _ _ _ E) as L3.
  pose proof (number_frac_length _ F) as L2.
  pose proof (number_int_length (snd (number_sign (x ++ tail)))) as L1.
  destruct (@number_sign_local x tail) as (m0 & E0 & S0); [lia|].
  rewrite E0 in *.
  destruct (@number_int_local m0 tail) as (m1 & E1 & S1); [lia|].
  rewrite E1 in *.
  destruct (@number_frac_local m1 tail fp s3 F) as (m2 & -> & S2); [lia|].
  destruct (@number_exp_local _ _ _ m2 tail q r E L) as (m & -> & S3).
  exists m. split; [reflexivity|]. intros tail'.
  rewrite parse_number_parts, S0. cbn [fst snd]. rewrite S1. cbn [fst snd].
  rewrite I, S2. apply S3.
Qed.

(** ** The text a value was read from

    A successful parse splits its input into the text read and the rest,
    and reads the same value from that text whatever follows it; after a
    number, whatever follows with the same first unit. *)

Lemma parse_number_prefix s q r :
  parse_number s = Some (q, r) ->
  exists u, s = u ++ r /\
            forall r', hd_error r' = hd_error r ->
                       parse_number (u ++ r') = Some (q, r').
Proof.
  intros E. destruct (parse_number_consumed _ E) as (u & _ & ->).
  exists u. split; [reflexivity|]. intros r' H.
  destruct r as [|c r0].
  - destruct r'; [|discriminate]. exact E.
  - destruct r' as [|c' r0']; [discriminate|]. injection H as ->.
    replace (u ++ c :: r0) with ((u ++ [c]) ++ r0) in E by list_eq.
    destruct (@parse_number_local (u ++ [c]) r0 q (c :: r0) E) as (m & Em & S);
      [simpl; lia|].
    assert (m = [c]) as ->.
    { apply (f_equal (@length _)) in Em as L. rewrite length_app in L.
      destruct m as [|a [|b m]]; simpl in L; try lia.
      now injection Em as <-. }
    specialize (S r0'). rewrite <- app_assoc in S. exact S.
Qed.

Lemma parse_number_head s q r :
  parse_number s = Some (q, r) ->
  exists c t, s = c :: t /\ ((c =? MINUS)%N = true \/ is_digit c = true).
Proof.
  rewrite parse_number_parts. unfold number_sign, number_int.
  destruct s as [|c t]; [discriminate|]. intros E. exists c, t.
  split; [reflexivity|].
  destruct (c =? MINUS)%N eqn:M; [now left|]. right. cbn [fst snd] in E.
  destruct (c =? 48)%N eqn:Z.
  - apply N.eqb_eq in Z. subst c. reflexivity.
  - cbn [fst take_digits] in E. destruct (is_digit c); [reflexivity|discriminate].
Qed.

Lemma starts_with_prefix p s r :
  starts_with p s = Some r ->
  s = p ++ r /\ forall r', starts_with p (p ++ r') = Some r'.
Proof.
  revert s. induction p as [|a p IH]; intros s; cbn [starts_with].
  - intros [= <-]. split; reflexivity.
  - destruct s as [|b s]; [discriminate|].
    destruct (char_eqb_spec a b) as [<-|]; [|discriminate].
    intros H. destruct (IH _ H) as [-> S]. split; [reflexivity|].
    intros r'. cbn [app starts_with].
    destruct (char_eqb_spec a a); [apply S|congruence].
Qed.

Lemma parse_chars_prefix n :
  forall s body r, (length s <= n)%nat ->
    parse_chars s = Some (body, r) ->
    exists u, s = u ++ r /\ forall r', parse_chars (u ++ r') = Some (body, r').
Proof.
  induction n as [|n IH]; intros s body r Hlen.
  - destruct s; [discriminate|simpl in Hlen; lia].
  - destruct s as [|c t]; [discriminate|]. simpl in Hlen. cbn [parse_chars].
    destruct (c =? QUOTE)%N eqn:Q.
    + intros [= <- <-]. exists [c]. split; [reflexivity|]. intros r'.
      cbn [app parse_chars]. now rewrite Q.
    + destruct (c =? BACKSLASH)%N eqn:B.
      * destruct t as [|e t']; [discriminate|].
        destruct (e =? 117)%N eqn:U.
        -- destruct t' as [|h1 [|h2 [|h3 [|h4 t'']]]]; try discriminate.
           destruct (hex4 h1 h2 h3 h4) as [x|] eqn:Hx; [|discriminate].
           intros H. apply push_some in H as H'. destruct H' as (b & H').
           destruct (IH t'' b r) as (u & -> & S); [simpl in Hlen; lia|exact H'|].
           exists (c :: e :: h1 :: h2 :: h3 :: h4 :: u).
           split; [reflexivity|]. intros r'. cbn [app parse_chars].
           rewrite Q, B, U, Hx, S. rewrite H' in H. cbn [push] in *.
           now injection H as <-.
        -- destruct (escape e) as [x|] eqn:Hx; [|discriminate].
           intros H. apply push_some in H as H'. destruct H' as (b & H').
           destruct (IH t' b r) as (u & -> & S); [simpl in Hlen; lia|exact H'|].
           exists (c :: e :: u). split; [reflexivity|]. intros r'.
           cbn [app parse_chars]. rewrite Q, B, U, Hx, S.
           rewrite H' in H. cbn [push] in *. now injection H as <-.
      * destruct (c <? 32)%N eqn:C; [discriminate|].
        intros H. apply push_some in H as H'. destruct H' as (b & H').
        destruct (IH t b r) as (u & -> & S); [lia|exact H'|].
        exists (c :: u). split; [reflexivity|]. intros r'.
        cbn [app parse_chars]. rewrite Q, B, C, S. rewrite H' in H.
        cbn [push] in *. now injection H as <-.
Qed.

Lemma parse_literal_prefix s v r :
  parse_literal s = Some (v, r) ->
  exists u, s = u ++ r /\
            forall r', agrees v r r' -> parse_literal (u ++ r') = Some (v, r').
Proof.
  unfold parse_literal.
  destruct (starts_with (str "true") s) eqn:E1.
  { intros [= <- <-]. destruct (starts_with_prefix _ _ E1) as [-> S].
    exists (str "true"). split; [reflexivity|]. intros r' _. now rewrite S. }
  destruct (starts_with (str "false") s) eqn:E2.
  { intros [= <- <-]. destruct (starts_with_prefix _ _ E2) as [-> S].
    exists (str "false"). split; [reflexivity|]. intros r' _.
    rewrite S. reflexivity. }
  destruct (starts_with (str "null") s) eqn:E3.
  { intros [= <- <-]. destruct (starts_with_prefix _ _ E3) as [-> S].
    exists (str "null"). split; [reflexivity|]. intros r' _.
    rewrite S. reflexivity. }
  destruct (parse_number s) as [[q r0]|] eqn:E4; [|discriminate].
  intros [= <- <-].
  destruct (parse_number_head _ E4) as (c & t & -> & Hc).
  destruct (parse_number_prefix _ E4) as (u & Eu & S).
  exists u. split; [exact Eu|]. intros r' A.
  rewrite (S r' (A eq_refl)).
  destruct u as [|c' u'].
  { exfalso. apply parse_number_consumed in E4. destruct E4 as (a & Ha & Ea).
    cbn [app] in Eu. rewrite <- Eu in Ea.
    apply (f_equal (@length _)) in Ea. rewrite length_app in Ea.
    destruct a; [congruence|simpl in Ea; lia]. }
  injection Eu as <- _. cbn [app].
  assert (T : forall p a, (a =? c)%N = false ->
                          starts_with (a :: p) (c :: u' ++ r') = None).
  { intros p a Ha. cbn [starts_with]. unfold char_eqb. now rewrite Ha. }
  unfold str. cbn [list_ascii_of_string map].
  rewrite !T; [reflexivity| | |].
  all: destruct Hc as [Hc|Hc]; [apply N.eqb_eq in Hc; subst c; reflexivity|].
  all: apply is_digit_bounds in Hc; apply N.eqb_neq; cbn; lia.
Qed.

Lemma skip_ws_stop s c t :
  skip_ws s = c :: t ->
  exists w, s = w ++ c :: t /\ forall z, skip_ws (w ++ c :: z) = c :: z.
Proof.
  induction s as [|a s IH]; [discriminate|]. cbn [skip_ws].
  destruct (is_ws a) eqn:A.
  - intros H. destruct (IH H) as (w & -> & S). exists (a :: w).
    split; [reflexivity|]. intros z. cbn [app skip_ws]. rewrite A. apply S.
  - intros [= -> ->]. exists []. split; [reflexivity|]. intros z.
    cbn [app skip_ws]. now rewrite A.
Qed.

Lemma skip_ws_app u z : skip_ws u <> [] -> skip_ws (u ++ z) = skip_ws u ++ z.
Proof.
  induction u as [|a u IH]; [intros H; now elim H|]. cbn [app skip_ws].
  destruct (is_ws a); [exact IH|reflexivity].
Qed.

Lemma hd_error_app (w : jsstring) c x y :
  hd_error (w ++ c :: x) = hd_error (w ++ c :: y).
Proof. destruct w; reflexivity. Qed.

Lemma parse_prefix fuel :
  (forall s v r, parse_value fuel s = Ok v r ->
     exists u, s = u ++ r /\ skip_ws u <> [] /\
               forall r', agrees v r r' -> parse_value fuel (u ++ r') = Ok v r')
  /\
  (forall acc s items r, parse_elements fuel acc s = Ok items r ->
     exists u, s = u ++ r /\ skip_ws u <> [] /\
               forall r', parse_elements fuel acc (u ++ r') = Ok items r')
  /\
  (forall acc s ms r, parse_members fuel acc s = Ok ms r ->
     exists u, s = u ++ r /\ skip_ws u <> [] /\
               forall r', parse_members fuel acc (u ++ r') = Ok ms r').
Proof.
  induction fuel as [|fuel (IHv & IHe & IHm)].
  { repeat split; intros; discriminate. }
  split; [|split].
  - intros s v r. rewrite parse_value_S.
    destruct (skip_ws s) as [|c t] eqn:Es; [discriminate|].
    destruct (skip_ws_stop _ Es) as (w & -> & Sw). clear Es.
    destruct (c =? LBRACKET)%N eqn:C1.
    { destruct (skip_ws t) as [|c' t'] eqn:Et; [discriminate|].
      destruct (c' =? RBRACKET)%N eqn:C2.
      - intros [= <- <-]. destruct (skip_ws_stop _ Et) as (w' & -> & Sw').
        exists (w ++ c :: w' ++ [c']). split; [list_eq|]. split.
        + rewrite Sw. discriminate.
        + intros r' _. rewrite parse_value_S.
          replace ((w ++ c :: w' ++ [c']) ++ r') with (w ++ c :: w' ++ c' :: r')
            by list_eq.
          now rewrite Sw, C1, Sw', C2.
      - destruct (parse_elements fuel [] t) as [items r0| |] eqn:Ep;
          try discriminate.
        intros [= <- <-]. destruct (IHe _ _ _ _ Ep) as (u & -> & Nu & Su).
        exists (w ++ c :: u). split; [list_eq|]. split.
        + rewrite Sw. discriminate.
        + intros r' _. rewrite parse_value_S.
          replace ((w ++ c :: u) ++ r') with (w ++ c :: u ++ r') by list_eq.
          rewrite Sw, C1. rewrite (@skip_ws_app _ _ Nu) in Et.
          rewrite (@skip_ws_app _ _ Nu).
          destruct (skip_ws u) as [|a u']; [congruence|].
          injection Et as -> _. cbn [app]. now rewrite C2, Su. }
    destruct (c =? LBRACE)%N eqn:C3.
    { destruct (skip_ws t) as [|c' t'] eqn:Et; [discriminate|].
      destruct (c' =? RBRACE)%N eqn:C2.
      - intros [= <- <-]. destruct (skip_ws_stop _ Et) as (w' & -> & Sw').
        exists (w ++ c :: w' ++ [c']). split; [list_eq|]. split.
        + rewrite Sw. discriminate.
        + intros r' _. rewrite parse_value_S.
          replace ((w ++ c :: w' ++ [c']) ++ r') with (w ++ c :: w' ++ c' :: r')
            by list_eq.
          now rewrite Sw, C1, C3, Sw', C2.
      - destruct (parse_members fuel [] t) as [ms r0| |] eqn:Ep;
          try discriminate.
        intros [= <- <-]. destruct (IHm _ _ _ _ Ep) as (u & -> & Nu & Su).
        exists (w ++ c :: u). split; [list_eq|]. split.
        + rewrite Sw. discriminate.
        + intros r' _. rewrite parse_value_S.
          replace ((w ++ c :: u) ++ r') with (w ++ c :: u ++ r') by list_eq.
          rewrite Sw, C1, C3. rewrite (@skip_ws_app _ _ Nu) in Et.
          rewrite (@skip_ws_app _ _ Nu).
          destruct (skip_ws u) as [|a u']; [congruence|].
          injection Et as -> _. cbn [app]. now rewrite C2, Su. }
    destruct (c =? QUOTE)%N eqn:C4.
    { destruct (parse_chars t) as [[body r0]|] eqn:Ep; [|discriminate].
      intros [= <- <-].
      destruct (@parse_chars_prefix (length t) t body r0 (le_n _) Ep)
        as (u & -> & Su).
      exists (w ++ c :: u). split; [list_eq|]. split.
      + rewrite Sw. discriminate.
      + intros r' _. rewrite parse_value_S.
        replace ((w ++ c :: u) ++ r') with (w ++ c :: u ++ r') by list_eq.
        now rewrite Sw, C1, C3, C4, Su. }
    destruct (parse_literal (c :: t)) as [[v' r0]|] eqn:Ep; [|discriminate].
    intros [= <- <-].
    destruct (parse_literal_prefix _ Ep) as (u & Eu & Su).
    destruct u as [|c' u'].
    { exfalso. apply parse_literal_consumed in Ep. destruct Ep as [Ep _].
      apply consumed_length in Ep. cbn [app] in Eu. rewrite <- Eu in Ep. lia. }
    injection Eu as <- ->.
    exists (w ++ c :: u'). split; [list_eq|]. split.
    + rewrite Sw. discriminate.
    + intros r' A. rewrite parse_value_S.
      replace ((w ++ c :: u') ++ r') with (w ++ c :: u' ++ r') by list_eq.
      rewrite Sw, C1, C3, C4. specialize (Su r' A). cbn [app] in Su.
      now rewrite Su.
  - intros acc s items r. rewrite parse_elements_S.
    destruct (parse_value fuel s) as [v r1| |] eqn:Ev; try discriminate.
    destruct (IHv _ _ _ Ev) as (u1 & -> & N1 & S1).
    destruct (skip_ws r1) as [|c t] eqn:Er; [discriminate|].
    destruct (skip_ws_stop _ Er) as (w & -> & Sw). clear Er.
    destruct (c =? COMMA)%N eqn:C1.
    + intros Ep. destruct (IHe _ _ _ _ Ep) as (u2 & -> & N2 & S2).
      exists (u1 ++ w ++ c :: u2). split; [list_eq|]. split.
      * replace (u1 ++ w ++ c :: u2) with (u1 ++ (w ++ c :: u2)) by list_eq.
        rewrite (@skip_ws_app _ _ N1). destruct (skip_ws u1); [congruence|discriminate].
      * intros r'. rewrite parse_elements_S.
        replace ((u1 ++ w ++ c :: u2) ++ r') with (u1 ++ (w ++ c :: u2 ++ r'))
          by list_eq.
        rewrite S1; [|intros _; apply hd_error_app].
        now rewrite Sw, C1, S2.
    + destruct (c =? RBRACKET)%N eqn:C2; [|discriminate].
      intros [= <- <-]. exists (u1 ++ w ++ [c]). split; [list_eq|]. split.
      * replace (u1 ++ w ++ [c]) with (u1 ++ (w ++ [c])) by list_eq.
        rewrite (@skip_ws_app _ _ N1). destruct (skip_ws u1); [congruence|discriminate].
      * intros r'. rewrite parse_elements_S.
        replace ((u1 ++ w ++ [c]) ++ r') with (u1 ++ (w ++ c :: r')) by list_eq.
        rewrite S1; [|intros _; apply hd_error_app].
        now rewrite Sw, C1, C2.
  - intros acc s ms r. rewrite parse_members_S.
    destruct (skip_ws s) as [|c t] eqn:Es; [discriminate|].
    destruct (skip_ws_stop _ Es) as (w0 & -> & Sw0). clear Es.
    destruct (c =? QUOTE)%N eqn:C0; [|discriminate].
    destruct (parse_chars t) as [[name r1]|] eqn:En; [|discriminate].
    destruct (@parse_chars_prefix (length t) t name r1 (le_n _) En)
      as (u1 & -> & S1).
    destruct (skip_ws r1) as [|c2 t2] eqn:E2; [discriminate|].
    destruct (skip_ws_stop _ E2) as (w2 & -> & Sw2). clear E2.
    destruct (c2 =? COLON)%N eqn:C2; [|discriminate].
    destruct (parse_value fuel t2) as [v r3| |] eqn:Ev; try discriminate.
    destruct (IHv _ _ _ Ev) as (u3 & -> & N3 & S3).
    destruct (skip_ws r3) as [|c3 t3] eqn:E3; [discriminate|].
    destruct (skip_ws_stop _ E3) as (w3 & -> & Sw3). clear E3.
    assert (Nn : forall z, skip_ws (w0 ++ c :: z) <> [])
      by (intros z; rewrite Sw0; discriminate).
    destruct (c3 =? COMMA)%N eqn:C3.
    + intros Ep. destruct (IHm _ _ _ _ Ep) as (u4 & -> & N4 & S4).
      exists (w0 ++ c :: u1 ++ w2 ++ c2 :: u3 ++ w3 ++ c3 :: u4).
      split; [list_eq|]. split; [apply Nn|].
      intros r'. rewrite parse_members_S.
      replace ((w0 ++ c :: u1 ++ w2 ++ c2 :: u3 ++ w3 ++ c3 :: u4) ++ r')
        with (w0 ++ c :: u1 ++ (w2 ++ c2 :: u3 ++ (w3 ++ c3 :: u4 ++ r')))
        by list_eq.
      rewrite Sw0, C0, S1, Sw2, C2.
      rewrite S3; [|intros _; apply hd_error_app].
      now rewrite Sw3, C3, S4.
    + destruct (c3 =? RBRACE)%N eqn:C4; [|discriminate].
      intros [= <- <-].
      exists (w0 ++ c :: u1 ++ w2 ++ c2 :: u3 ++ w3 ++ [c3]).
      split; [list_eq|]. split; [apply Nn|].
      intros r'. rewrite parse_members_S.
      replace ((w0 ++ c :: u1 ++ w2 ++ c2 :: u3 ++ w3 ++ [c3]) ++ r')
        with (w0 ++ c :: u1 ++ (w2 ++ c2 :: u3 ++ (w3 ++ c3 :: r')))
        by list_eq.
      rewrite Sw0, C0, S1, Sw2, C2.
      rewrite S3; [|intros _; apply hd_error_app].
      now rewrite Sw3, C3, C4.
Qed.

(** ** An array in prose *)

Lemma skip_ws_split s :
  exists w, s = w ++ skip_ws s /\ forallb is_ws w = true.
Proof.
  induction s as [|a s (w & E & W)]; [exists []; split; reflexivity|].
  cbn [skip_ws]. destruct (is_ws a) eqn:A.
  - exists (a :: w). cbn [app forallb]. rewrite A, W. split; [|reflexivity].
    now rewrite <- E.
  - exists []. split; reflexivity.
Qed.

Lemma ws_not_in w c : forallb is_ws w = true -> is_ws c = false -> ~ In c w.
Proof.
  intros W C H. rewrite forallb_forall in W. specialize (W c H). congruence.
Qed.

Lemma skip_ws_ws w z : forallb is_ws w = true -> skip_ws (w ++ z) = skip_ws z.
Proof.
  induction w as [|a w IH]; [reflexivity|]. cbn [forallb app skip_ws].
  intros H. apply andb_true_iff in H. destruct H as [-> H]. exact (IH H).
Qed.

Lemma parse_value_skip fuel s s' :
  skip_ws s = skip_ws s' -> parse_value fuel s = parse_value fuel s'.
Proof.
  intros E. destruct fuel; [reflexivity|]. now rewrite !parse_value_S, E.
Qed.

(** The array a text parses to, between its brackets. *)
Lemma parse_array_core text v :
  JSON.parse text = Some v -> is_array v = true ->
  exists w mid rest,
    text = w ++ LBRACKET :: mid ++ RBRACKET :: rest /\
    forallb is_ws w = true /\ forallb is_ws rest = true /\
    JSON.parse (LBRACKET :: mid ++ [RBRACKET]) = Some v.
Proof.
  unfold JSON.parse at 1. intros E A.
  destruct (parse_value (2 * length text + 1) text) as [v' rest| |] eqn:Ev;
    try discriminate.
  destruct (skip_ws rest) eqn:Er; [|discriminate]. injection E as ->.
  destruct (proj1 (parse_prefix _) _ _ _ Ev) as (u & Eu & Nu & Su).
  specialize (Su [] ltac:(intros K; destruct v; discriminate)).
  rewrite app_nil_r in Su.
  pose proof (proj1 (parse_consumed _) _ _ _ Su) as [_ B].
  destruct (B A) as (a & b & Eb).
  destruct (skip_ws_split u) as (w & Ew & Ww).
  destruct (skip_ws_split rest) as (wr & Ewr & Wr). rewrite Er, app_nil_r in Ewr.
  subst wr.
  (* the first unit after the white space is the opening bracket *)
  assert (C : exists t, skip_ws u = LBRACKET :: t).
  { revert Su. rewrite Nat.add_1_r, parse_value_S.
    destruct (skip_ws u) as [|c t]; [discriminate|].
    destruct (N.eqb_spec c LBRACKET) as [->|_]; [now exists t|].
    destruct (c =? LBRACE)%N.
    { destruct (skip_ws t) as [|c' t']; [discriminate|].
      destruct (c' =? RBRACE)%N; [intros [= <-]; discriminate|].
      destruct (parse_members _ _ _); try discriminate.
      intros [= <-]. discriminate. }
    destruct (c =? QUOTE)%N.
    { destruct (parse_chars t) as [[? ?]|]; [|discriminate].
      intros [= <-]. discriminate. }
    destruct (parse_literal (c :: t)) as [[v' r']|] eqn:El; [|discriminate].
    intros [= <- _]. apply parse_literal_consumed in El. destruct El as [_ El].
    congruence. }
  destruct C as (t & Et). rewrite Et in Ew.
  (* and the last one the closing bracket *)
  assert (D : exists mid, t = mid ++ [RBRACKET]).
  { assert (L : u <> []) by (intros ->; now apply Nu).
    assert (t <> []) as Ht.
    { intros ->. rewrite Ew in Eb.
      apply (f_equal (@rev _)) in Eb.
      rewrite !rev_app_distr in Eb. cbn [rev app] in Eb.
      rewrite !rev_app_distr in Eb. cbn [rev app] in Eb.
      rewrite <- !app_assoc in Eb. cbn [app] in Eb.
      injection Eb as Eb _. discriminate. }
    destruct (exists_last Ht) as (mid & x & ->). exists mid.
    rewrite Ew in Eb. apply (f_equal (@rev _)) in Eb.
    replace (w ++ LBRACKET :: mid ++ [x]) with ((w ++ LBRACKET :: mid) ++ [x])
      in Eb by list_eq.
    replace (a ++ LBRACKET :: b ++ [RBRACKET])
      with ((a ++ LBRACKET :: b) ++ [RBRACKET]) in Eb by list_eq.
    rewrite !(rev_app_distr _ [_]) in Eb. cbn [rev app] in Eb.
    now injection Eb as -> _. }
  destruct D as (mid & ->).
  exists w, mid, rest. split; [|split; [exact Ww|split; [exact Wr|]]].
  { rewrite Eu, Ew. list_eq. }
  unfold JSON.parse.
  set (core := LBRACKET :: mid ++ [RBRACKET]) in *.
  assert (F : parse_value (2 * length core + 1) core = Ok v []).
  { assert (Sk : skip_ws u = skip_ws core) by (rewrite Et; reflexivity).
    rewrite (parse_value_skip _ _ _ Sk) in Su.
    assert (Len : (length core <= length text)%nat).
    { rewrite Eu, Ew, !length_app. lia. }
    replace (2 * length text + 1)%nat
      with ((2 * length text - 2 * length core) + (2 * length core + 1))%nat
      in Su by lia.
    now rewrite parse_fuel_irrelevant in Su. }
  rewrite F. reflexivity.
Qed.

Lemma trimStart_before p c z :
  is_space c = false -> trimStart (p ++ c :: z) = trimStart p ++ c :: z.
Proof.
  intros Hc. induction p as [|x p IH]; cbn [app trimStart].
  - now rewrite Hc.
  - destruct (is_space x); [exact IH|reflexivity].
Qed.

Lemma trim_around p c mid d q :
  is_space c = false -> is_space d = false ->
  trim (p ++ (c :: mid ++ [d]) ++ q)
  = trimStart p ++ (c :: mid ++ [d]) ++ trimEnd q.
Proof.
  intros Hc Hd. unfold trim. cbn [app]. rewrite (@trimStart_before _ _ _ Hc).
  unfold trimEnd.
  replace (trimStart p ++ c :: (mid ++ [d]) ++ q)
    with ((trimStart p ++ c :: mid) ++ d :: q) by list_eq.
  rewrite rev_app_distr. cbn [rev]. rewrite <- app_assoc. cbn [app].
  rewrite (@trimStart_before _ _ _ Hd).
  rewrite rev_app_distr. cbn [rev]. rewrite rev_involutive.
  fold (trimEnd q). list_eq.
Qed.

Lemma trimStart_in x s : In x (trimStart s) -> In x s.
Proof.
  intros H. destruct (trimStart_suffix s) as (a & E). rewrite E.
  apply in_or_app. now right.
Qed.

Lemma trimEnd_in x s : In x (trimEnd s) -> In x s.
Proof.
  unfold trimEnd. intros H. apply in_rev in H. apply trimStart_in in H.
  now apply in_rev.
Qed.

Lemma extract_array raw pre inner post v :
  markers_removed raw = pre ++ inner ++ post ->
  ~ In LBRACKET pre -> ~ In RBRACKET post ->
  JSON.parse inner = Some v -> is_array v = true ->
  JSON.parse (extract raw) = Some v.
Proof.
  intros E Hpre Hpost P A.
  destruct (parse_array_core _ P A) as (w & mid & rest & -> & Ww & Wr & Pc).
  unfold extract, strip_fences. fold (markers_removed raw). rewrite E.
  replace (pre ++ (w ++ LBRACKET :: mid ++ RBRACKET :: rest) ++ post)
    with ((pre ++ w) ++ (LBRACKET :: mid ++ [RBRACKET]) ++ (rest ++ post))
    by list_eq.
  rewrite trim_around by reflexivity.
  rewrite match_array_skip.
  2: { intros H. apply trimStart_in in H. apply in_app_or in H.
       destruct H as [H|H]; [now apply Hpre|].
       revert H. now apply ws_not_in. }
  replace ((LBRACKET :: mid ++ [RBRACKET]) ++ trimEnd (rest ++ post))
    with (LBRACKET :: mid ++ RBRACKET :: trimEnd (rest ++ post)) by list_eq.
  cbn [match_ re_array]. destruct (char_eqb_spec LBRACKET LBRACKET); [|congruence].
  rewrite last_index_last.
  2: { intros H. apply trimEnd_in in H. apply in_app_or in H.
       destruct H as [H|H]; [|now apply Hpost].
       revert H. now apply ws_not_in. }
  rewrite firstn_cons, firstn_through. exact Pc.
Qed.

Lemma markers_removed_unfenced raw :
  ~ occurs fence raw -> markers_removed raw = raw.
Proof.
  intros H. apply match_literal_none in H; [|discriminate].
  unfold markers_removed.
  rewrite (@replace_all_unmatched _ _ _ (@fence_json_fence _ H)).
  now rewrite (@replace_all_unmatched _ _ _ H).
Qed.

Lemma upper_tick x :
  x <> BACKTICK -> char_eqb (to_upper BACKTICK) (to_upper x) = false.
Proof.
  intros Hx. unfold to_upper, char_eqb.
  change ((97 <=? BACKTICK) && (BACKTICK <=? 122))%N with false. cbv iota.
  apply N.eqb_neq. intros E.
  destruct ((97 <=? x) && (x <=? 122))%N eqn:R; [|congruence].
  apply andb_true_iff in R. destruct R as [R1 R2].
  apply N.leb_le in R1. apply N.leb_le in R2. unfold BACKTICK in *. lia.
Qed.

(** A marker starts with a grave accent, in whatever case. *)
Lemma literal_tick (ignore_case : bool) p c t :
  c <> BACKTICK -> literal ignore_case (BACKTICK :: p) (c :: t) = None.
Proof.
  intros Hc. unfold literal. cbn [literal_at].
  replace (if ignore_case
           then char_eqb (to_upper BACKTICK) (to_upper c)
           else char_eqb BACKTICK c) with false; [reflexivity|].
  symmetry. destruct ignore_case.
  - now apply upper_tick.
  - unfold char_eqb. apply N.eqb_neq. congruence.
Qed.

Lemma replace_all_ticks (ignore_case : bool) p a s :
  ~ In BACKTICK a ->
  replace_all (literal ignore_case (BACKTICK :: p)) [] (a ++ s)
  = a ++ replace_all (literal ignore_case (BACKTICK :: p)) [] s.
Proof.
  induction a as [|c a IH]; [reflexivity|]. intros H. cbn [app].
  rewrite replace_all_cons, literal_tick by (intros ->; apply H; now left).
  rewrite IH by (intros K; apply H; now right). reflexivity.
Qed.

Lemma match_ticks (ignore_case : bool) p a :
  ~ In BACKTICK a -> match_ (literal ignore_case (BACKTICK :: p)) a = None.
Proof.
  induction a as [|c a IH]; [reflexivity|]. intros H. cbn [match_].
  rewrite literal_tick by (intros ->; apply H; now left).
  apply IH. intros K. apply H. now right.
Qed.

Lemma literal_at_prefix (ignore_case : bool) p q s :
  literal_at ignore_case (p ++ q) (p ++ s) = literal_at ignore_case q s.
Proof.
  induction p as [|a p IH]; [reflexivity|]. cbn [app literal_at]. rewrite IH.
  destruct ignore_case.
  - destruct (char_eqb_spec (to_upper a) (to_upper a)); [reflexivity|congruence].
  - destruct (char_eqb_spec a a); [reflexivity|congruence].
Qed.

Lemma replace_all_head (ignore_case : bool) c p s :
  replace_all (literal ignore_case (c :: p)) [] ((c :: p) ++ s)
  = replace_all (literal ignore_case (c :: p)) [] s.
Proof.
  cbn [app]. rewrite replace_all_cons.
  assert (M : literal ignore_case (c :: p) (c :: p ++ s)
              = Some (S (length p))).
  { unfold literal.
    change (c :: p ++ s) with ((c :: p) ++ s).
    rewrite <- (app_nil_r (c :: p)) at 1.
    now rewrite literal_at_prefix. }
  rewrite M. cbn [app]. f_equal.
  rewrite skipn_app, skipn_all, Nat.sub_diag. reflexivity.
Qed.

(** A closing marker that no language tag follows is no opening one. *)
Lemma closing_fence_kept d :
  ~ In BACKTICK d -> literal_at true (str "json") d = false ->
  match_ (literal true fence_json) (fence ++ d) = None.
Proof.
  intros Hd Ht.
  assert (A : literal true fence_json (fence ++ d) = None).
  { unfold literal, fence_json. now rewrite literal_at_prefix, Ht. }
  assert (B : forall t, literal true fence_json (t ++ d) = None
                        \/ exists t', t ++ d = BACKTICK :: BACKTICK :: BACKTICK :: t').
  { intros t. destruct (t ++ d) as [|x [|y [|z t']]].
    1-3: left; unfold literal, fence_json, fence; cbn [app literal_at];
      repeat match goal with
             | |- context [char_eqb ?u ?v] => destruct (char_eqb u v)
             end; reflexivity.
    unfold literal, fence_json, fence. cbn [app literal_at].
    destruct (N.eq_dec x BACKTICK) as [->|Nx];
      [|left; now rewrite (upper_tick Nx)].
    destruct (N.eq_dec y BACKTICK) as [->|Ny];
      [|left; now rewrite (upper_tick Ny), andb_false_r].
    destruct (N.eq_dec z BACKTICK) as [->|Nz];
      [|left; now rewrite (upper_tick Nz), !andb_false_r].
    right. now exists t'. }
  unfold fence in *. cbn [app match_] in *. rewrite A.
  destruct (B [BACKTICK; BACKTICK]) as [E|(t' & E)]; cbn [app] in E.
  2: { exfalso. injection E as E. apply Hd. rewrite E. now left. }
  rewrite E. clear E.
  destruct (B [BACKTICK]) as [E|(t' & E)]; cbn [app] in E.
  2: { exfalso. injection E as E. apply Hd. rewrite E. now left. }
  rewrite E. now apply match_ticks.
Qed.

(** The markers of an answer that holds one fenced block and no other
    grave accent. *)
Lemma markers_removed_fenced a inner d :
  ~ In BACKTICK a -> ~ In BACKTICK inner -> ~ In BACKTICK d ->
  literal_at true (str "json") d = false ->
  markers_removed (a ++ fence_json ++ inner ++ fence ++ d) = a ++ inner ++ d.
Proof.
  intros Ha Hi Hd Ht. unfold markers_removed.
  assert (T : replace_all (literal true fence_json) []
                (a ++ fence_json ++ inner ++ fence ++ d)
              = a ++ inner ++ fence ++ d).
  { change (literal true fence_json)
      with (literal true (BACKTICK :: [BACKTICK; BACKTICK] ++ str "json")).
    rewrite replace_all_ticks by exact Ha. f_equal.
    change (fence_json ++ inner ++ fence ++ d)
      with ((BACKTICK :: [BACKTICK; BACKTICK] ++ str "json")
              ++ inner ++ fence ++ d).
    rewrite replace_all_head.
    rewrite replace_all_ticks by exact Hi. f_equal.
    apply replace_all_unmatched. now apply closing_fence_kept. }
  rewrite T.
  change (literal false fence)
    with (literal false (BACKTICK :: [BACKTICK; BACKTICK])).
  rewrite replace_all_ticks by exact Ha. f_equal.
  rewrite replace_all_ticks by exact Hi. f_equal.
  change (fence ++ d) with ((BACKTICK :: [BACKTICK; BACKTICK]) ++ d).
  rewrite replace_all_head.
  apply replace_all_unmatched. now apply match_ticks.
Qed.

Lemma not_in_units c (s : jsstring) : existsb (char_eqb c) s = false -> ~ In c s.
Proof.
  intros E H. assert (existsb (char_eqb c) s = true); [|congruence].
  apply existsb_exists. exists c. split; [exact H|].
  destruct (char_eqb_spec c c); congruence.
Qed.

(** X24. An array that stands in prose is recovered. When the answer with
    its fence markers removed is a text without opening bracket, then a
    text that [JSON.parse] reads as an array, then a text without closing
    bracket, the candidate is read by [JSON.parse] as that same array. From
    an answer without fence marker nothing is removed; from an answer with
    one fenced block, no other grave accent and no language tag after the
    closing marker, the two markers and the tag are removed and nothing
    else. *)
Theorem extract_recovers_array :
  (forall (raw pre inner post : jsstring) (v : json),
     markers_removed raw = pre ++ inner ++ post ->
     ~ In LBRACKET pre -> ~ In RBRACKET post ->
     JSON.parse inner = Some v -> is_array v = true ->
     JSON.parse (extract raw) = Some v)
  /\
  (forall raw : jsstring, ~ occurs fence raw -> markers_removed raw = raw)
  /\
  (forall a inner d : jsstring,
     ~ In BACKTICK a -> ~ In BACKTICK inner -> ~ In BACKTICK d ->
     literal_at true (str "json") d = false ->
     markers_removed (a ++ fence_json ++ inner ++ fence ++ d) = a ++ inner ++ d).
Proof.
  split; [exact extract_array|].
  split; [exact markers_removed_unfenced|exact markers_removed_fenced].
Qed.

Lemma extract_recovers_array_witness :
  JSON.parse (extract fenced_answer)
  = Some (JArr [JObj [(str "a", JNum (of_Z 1))]]).
Proof.
  apply (proj1 extract_recovers_array fenced_answer
           (str "Sure! ") ([LF] ++ str "[{" ++ quoted "a" ++ str ":1}]" ++ [LF])
           (str " Thanks")).
  - vm_compute. reflexivity.
  - apply not_in_units. reflexivity.
  - apply not_in_units. reflexivity.
  - vm_compute. reflexivity.
  - reflexivity.
Defined.

(** X25. When the Evaluator answers with a JSON array of evaluations in a
    fenced block, after prose without opening bracket and before prose
    without closing bracket, and no grave accent occurs but in the two
    markers, the handler answers with status 200 and the report aggregated
    from these evaluations. The evaluations are those of the data model
    (the four scores integers, higherOrder a boolean, bloom a string, null
    or missing, suggestions an array of strings), and their Bloom labels
    name no member of [Object.prototype]. *)
Theorem fenced_array_reported :
  forall (openai : Evaluator) (req : Request) (o s set1 a inner d : jsstring)
         (items : list json) (qs : list QuestionEvaluation),
    request_fields req = Some (o, s, set1) ->
    answers openai set1
      (Some {| content := Some (a ++ fence_json ++ inner ++ fence ++ d) |}) ->
    ~ In BACKTICK a -> ~ In LBRACKET a ->
    ~ In BACKTICK inner ->
    ~ In BACKTICK d -> ~ In RBRACKET d ->
    literal_at true (str "json") d = false ->
    JSON.parse inner = Some (JArr items) ->
    as_evaluations items = Some qs ->
    (forall l, In l (labels qs) -> inherited l = false) ->
    run (POST openai req)
    = (Value (json_response (ReportBody (aggregate qs)) 200),
       [create_params (questions set1)]).
Proof.
  intros openai req o s set1 a inner d items qs Hreq Hans Ha1 Ha2 Hi Hd1 Hd2
    Ht Hp Hq _.
  erewrite POST_answered by eassumption.
  rewrite report_from_cases. cbn [content].
  assert (E : JSON.parse (extract (a ++ fence_json ++ inner ++ fence ++ d))
              = Some (JArr items)).
  { apply extract_array with (pre := a) (inner := inner) (post := d);
      try assumption; [|reflexivity].
    now apply markers_removed_fenced. }
  destruct (a ++ fence_json ++ inner ++ fence ++ d) as [|c t] eqn:R.
  { exfalso. apply (f_equal (@length _)) in R. rewrite !length_app in R.
    simpl in R. lia. }
  rewrite E, (as_evaluations_no_null _ Hq), Hq. reflexivity.
Qed.

Lemma fenced_array_reported_witness :
  run (POST (stub (Some {| content := Some (str "Here you go:" ++ sample_answer
                                             ++ [LF] ++ str "Done.") |}))
         sample_request)
  = (Value (json_response (ReportBody (aggregate [sample_evaluation])) 200),
     [create_params [str "What is 2+2?"; str "Explain photosynthesis."]]).
Proof.
  refine (@fenced_array_reported
            (stub (Some {| content := Some (str "Here you go:" ++ sample_answer
                                             ++ [LF] ++ str "Done.") |}))
            sample_request (str "CO1") (str "Unit 1")
            (str "What is 2+2?" ++ [LF; LF] ++ str "Explain photosynthesis.")
            (str "Here you go:") ([LF] ++ sample_array ++ [LF])
            ([LF] ++ str "Done.")
            [JObj [ (str "question", JStr (str "What is 2+2?"));
                    (str "bloom", JStr (str "Remember"));
                    (str "higherOrder", JBool false);
                    (str "clarityScore", JNum (of_Z 90));
                    (str "grammarScore", JNum (of_Z 85));
                    (str "spellingScore", JNum (of_Z 100));
                    (str "overallScore", JNum (of_Z 92));
                    (str "suggestions",
                     JArr [JStr (str "Name the operation.")]) ]]
            [sample_evaluation] _ _ _ _ _ _ _ _ _ _ _).
  - vm_compute. reflexivity.
  - exists []. vm_compute. reflexivity.
  - apply not_in_units. reflexivity.
  - apply not_in_units. reflexivity.
  - apply not_in_units. vm_compute. reflexivity.
  - apply not_in_units. reflexivity.
  - apply not_in_units. reflexivity.
  - reflexivity.
  - vm_compute. reflexivity.
  - vm_compute. reflexivity.
  - intros l [<-|[]]. reflexivity.
Defined.
